(** * SafeWay: danger scores, city graphs and the risk-weighted pathfinder

    A shallow embedding of [src/safemap/core_logic.py] and of the query
    handling of [src/main.py], followed by the loader of
    [src/safemap/data_handler.py], the map drawing of
    [src/safemap/visualization.py] and the haversine distance.

    Numbers.  The Python code computes with binary floating point; the
    embedding computes with exact rationals [Q], compared with [Qeq] the way
    floats are compared by value.  A float that would be NaN or infinite
    because of a division by zero is modelled by [None]; [float('inf')] in
    the search tables is the constructor [Infinity].

    Data frames.  A pandas data frame is a list of rows, a column is the list
    of the values of one field, and [groupby(...).transform] is modelled by
    applying the function to the series of each group and reading the result
    back at the position of the row inside its group. *)

From Stdlib Require Import QArith Qround Qminmax Lqa Lia Sorted.
From stdpp Require Import gmap strings list fin_maps.

Local Open Scope Q_scope.

(** ** Score Normalizer: [calculate_danger_scores] *)

Module Scores.

(** One raw record of the observation set (one record per incident). *)
Record observation := {
  o_city : string;
  o_area_name : string;
  o_lighting_quality_score : Q;
  o_uptime_ratio : Q
}.

(** One row of [processed_data], as returned by [calculate_danger_scores]. *)
Record area_profile := {
  city : string;
  area_name : string;
  crime_count : nat;
  lighting_quality_score : Q;
  uptime_ratio : Q;
  crime_norm : Q;
  lighting_inverted_norm : Q;
  danger_score : Q
}.

Definition group_key : Type := string * string.

Definition key_of (o : observation) : group_key := (o_city o, o_area_name o).

Definition key_compare (k1 k2 : group_key) : comparison :=
  match String.compare k1.1 k2.1 with
  | Eq => String.compare k1.2 k2.2
  | c => c
  end.

(** [groupby] returns its groups sorted by key, each key once. *)
Fixpoint insert_key (k : group_key) (l : list group_key) : list group_key :=
  match l with
  | [] => [k]
  | k' :: l' =>
      match key_compare k k' with
      | Lt => k :: l
      | Eq => l
      | Gt => k' :: insert_key k l'
      end
  end.

Definition group_keys (obs : list observation) : list group_key :=
  foldr insert_key [] (map key_of obs).

Definition key_eqb (k1 k2 : group_key) : bool :=
  String.eqb k1.1 k2.1 && String.eqb k1.2 k2.2.

Definition group_of (k : group_key) (obs : list observation) : list observation :=
  List.filter (fun o => key_eqb (key_of o) k) obs.

Definition Qsum (l : list Q) : Q := foldr Qplus 0 l.

Definition mean (l : list Q) : Q := Qsum l / inject_Z (Z.of_nat (length l)).

(** [data_df.groupby(['city', 'area_name']).size().reset_index(name='crime_count')] *)
Definition crime_counts (obs : list observation) : list (group_key * nat) :=
  map (fun k => (k, length (group_of k obs))) (group_keys obs).

(** [data_df.groupby(['city', 'area_name']).agg({... 'mean', ... 'mean'}).reset_index()] *)
Definition area_features (obs : list observation) : list (group_key * (Q * Q)) :=
  map (fun k =>
         (k, (mean (map o_lighting_quality_score (group_of k obs)),
              mean (map o_uptime_ratio (group_of k obs)))))
      (group_keys obs).

(** A row of the merged frame, before the score columns are added. *)
Record base_row := {
  b_city : string;
  b_area_name : string;
  b_crime_count : nat;
  b_lighting_quality_score : Q;
  b_uptime_ratio : Q
}.

(** [pd.merge(crime_counts, area_features, on=['city', 'area_name'])]:
    inner join on the key, in the order of the left frame. *)
Definition merge (cc : list (group_key * nat)) (af : list (group_key * (Q * Q)))
  : list base_row :=
  flat_map (fun c =>
    map (fun a => {| b_city := c.1.1; b_area_name := c.1.2; b_crime_count := c.2;
                     b_lighting_quality_score := a.2.1; b_uptime_ratio := a.2.2 |})
        (List.filter (fun a => key_eqb a.1 c.1) af)) cc.

Definition series_max (x : Q) (xs : list Q) : Q := foldr Qmax x xs.
Definition series_min (x : Q) (xs : list Q) : Q := foldr Qmin x xs.

(** The nested function [normalize].  [None] stands for a series of NaN or
    infinite values, which is what a division by a zero range would give. *)
Definition normalize (series : list Q) : option (list Q) :=
  match series with
  | [] => Some []
  | x :: xs =>
      let mx := series_max x xs in
      let mn := series_min x xs in
      if Qeq_bool mx mn then Some (map (fun _ => 0) series)
      else if Qeq_bool (mx - mn) 0 then None
      else Some (map (fun v => (v - mn) / (mx - mn)) series)
  end.

(** The series of one city, and the position of row [i] inside it. *)
Definition city_series (cities : list string) (col : list Q) (c : string) : list Q :=
  map snd (List.filter (fun p => String.eqb p.1 c) (zip cities col)).

Definition group_pos (cities : list string) (i : nat) (c : string) : nat :=
  length (List.filter (fun c' => String.eqb c' c) (take i cities)).

(** [frame.groupby('city')[col].transform(f)] *)
Definition transform (f : list Q -> option (list Q))
    (cities : list string) (col : list Q) : option (list Q) :=
  mapM (fun ic : nat * string =>
          r ← f (city_series cities col ic.2);
          r !! group_pos cities ic.1 ic.2)
       (imap pair cities).

Definition crime_weight : Q := 7 # 10.
Definition lighting_weight : Q := 3 # 10.

Definition composite (cn li : Q) : Q := crime_weight * cn + lighting_weight * li.

Definition mk_profile (b : base_row) (cn li d : Q) : area_profile :=
  {| city := b_city b; area_name := b_area_name b; crime_count := b_crime_count b;
     lighting_quality_score := b_lighting_quality_score b;
     uptime_ratio := b_uptime_ratio b;
     crime_norm := cn; lighting_inverted_norm := li; danger_score := d |}.

Fixpoint add_columns (bs : list base_row) (cns lis ds : list Q) : list area_profile :=
  match bs, cns, lis, ds with
  | b :: bs', cn :: cns', li :: lis', d :: ds' =>
      mk_profile b cn li d :: add_columns bs' cns' lis' ds'
  | _, _, _, _ => []
  end.

Definition calculate_danger_scores (data_df : list observation)
  : option (list area_profile) :=
  let processed_data := merge (crime_counts data_df) (area_features data_df) in
  let cities := map b_city processed_data in
  cn ← transform normalize cities
         (map (fun b => inject_Z (Z.of_nat (b_crime_count b))) processed_data);
  ln ← transform normalize cities (map b_lighting_quality_score processed_data);
  let li := map (fun v => 1 - v) ln in
  let comp := zip_with composite cn li in
  nd ← normalize comp;
  Some (add_columns processed_data cn li (map (fun v => 1 + 9 * v) nd)).

(** The crime count of a row as a number of the series. *)
Definition crime_count_Q (r : area_profile) : Q := inject_Z (Z.of_nat (crime_count r)).

(** The composite of a finished row: [0.7 * crime_norm + 0.3 * lighting_inverted_norm]. *)
Definition composite_of (r : area_profile) : Q :=
  composite (crime_norm r) (lighting_inverted_norm r).

(** What an observation is made of besides [uptime_ratio]. *)
Definition without_uptime (o : observation) : string * string * Q :=
  (o_city o, o_area_name o, o_lighting_quality_score o).

End Scores.


(** ** Graph Builder: [nx.Graph], [geocode_areas] and [build_city_graphs] *)

Module Graphs.
Import Scores.

(** The part of [networkx.Graph] the program uses.  The graph is undirected
    and simple: [g_adj] maps every node to its neighbours, each neighbour
    once, in the order in which the edges were added (a Python dict keeps
    insertion order); [g_nodes] lists the nodes in insertion order. *)
Record graph := {
  g_nodes : list string;
  g_adj : gmap string (list string)
}.

(** [nx.Graph()] *)
Definition empty_graph : graph := {| g_nodes := []; g_adj := ∅ |}.

(** [G.nodes] *)
Definition nodes (G : graph) : list string := g_nodes G.

(** [G.neighbors(n)]; [None] is the [NetworkXError] raised for a node that
    is not in the graph. *)
Definition neighbors (G : graph) (n : string) : option (list string) := g_adj G !! n.

(** [G.add_node(n)]: nothing changes when the node is already there. *)
Definition add_node (n : string) (G : graph) : graph :=
  if bool_decide (n ∈ g_nodes G) then G
  else {| g_nodes := g_nodes G ++ [n]; g_adj := <[n := []]> (g_adj G) |}.

(** [G.add_nodes_from(nodes)] *)
Definition add_nodes_from (ns : list string) (G : graph) : graph :=
  foldl (fun G n => add_node n G) G ns.

(** [self._adj[u][v] = datadict]: a key that is already present keeps its place. *)
Definition add_neighbor (u v : string) (G : graph) : graph :=
  match g_adj G !! u with
  | Some l =>
      if bool_decide (v ∈ l) then G
      else {| g_nodes := g_nodes G; g_adj := <[u := l ++ [v]]> (g_adj G) |}
  | None => G
  end.

(** [G.add_edge(u, v)] *)
Definition add_edge (u v : string) (G : graph) : graph :=
  add_neighbor v u (add_neighbor u v (add_node v (add_node u G))).

(** [G.edges]: every edge once, reported from the endpoint that comes first
    in the node order. *)
Fixpoint edges_from (G : graph) (seen ns : list string) : list (string * string) :=
  match ns with
  | [] => []
  | n :: ns' =>
      map (pair n)
          (List.filter (fun nbr => negb (bool_decide (nbr ∈ seen)))
                       (default [] (g_adj G !! n)))
      ++ edges_from G (n :: seen) ns'
  end.

Definition edges (G : graph) : list (string * string) := edges_from G [] (g_nodes G).

(** [G.number_of_edges()] *)
Definition number_of_edges (G : graph) : nat := length (edges G).

Definition coord : Type := Q * Q.

(** A row of the frame once [geocode_areas] has attached the coordinates. *)
Record geocoded_area := {
  profile : area_profile;
  coords : coord
}.

(** [geocode_areas], with the geocoding service as a function that gives the
    coordinates of (city, area) or fails; rows without coordinates are
    dropped ([dropna]). *)
Definition geocode_areas (geocode : string -> string -> option coord)
    (data_df : list area_profile) : list geocoded_area :=
  omap (fun r => c ← geocode (city r) (area_name r);
                 Some {| profile := r; coords := c |}) data_df.

(** [processed_data['city'].unique()]: in order of first appearance. *)
Fixpoint unique (l : list string) : list string :=
  match l with
  | [] => []
  | x :: l' => x :: List.filter (fun y => negb (String.eqb y x)) (unique l')
  end.

(** The two nested [for] loops: an edge from each node to every later node. *)
Fixpoint add_all_edges (ns : list string) (G : graph) : graph :=
  match ns with
  | [] => G
  | n :: rest => add_all_edges rest (foldl (fun G m => add_edge n m G) G rest)
  end.

(** [pd.Series(values, index=city_df.area_name).to_dict()]: a later row
    with the same area name replaces an earlier one. *)
Definition to_dict {V} (value : geocoded_area -> V) (city_df : list geocoded_area)
  : gmap string V :=
  foldl (fun m r => <[area_name (profile r) := value r]> m) ∅ city_df.

Record city_tables := {
  city_graphs : gmap string graph;
  city_coords : gmap string (gmap string coord);
  city_danger_scores : gmap string (gmap string Q)
}.

Definition city_rows (c : string) (processed_data : list geocoded_area)
  : list geocoded_area :=
  List.filter (fun r => String.eqb (city (profile r)) c) processed_data.

Definition build_city (processed_data : list geocoded_area)
    (t : city_tables) (c : string) : city_tables :=
  let city_df := city_rows c processed_data in
  let ns := map (fun r => area_name (profile r)) city_df in
  let G := add_all_edges ns (add_nodes_from ns empty_graph) in
  {| city_graphs := <[c := G]> (city_graphs t);
     city_coords := <[c := to_dict coords city_df]> (city_coords t);
     city_danger_scores :=
       <[c := to_dict (fun r => danger_score (profile r)) city_df]>
         (city_danger_scores t) |}.

Definition build_city_graphs (processed_data : list geocoded_area) : city_tables :=
  foldl (build_city processed_data)
        {| city_graphs := ∅; city_coords := ∅; city_danger_scores := ∅ |}
        (unique (map (fun r => city (profile r)) processed_data)).

(** The graph that the body of the loop over the cities builds from the
    area names [ns] of one city. *)
Definition complete_on (ns : list string) : graph :=
  add_all_edges ns (add_nodes_from ns empty_graph).

(** The area names of the rows of one city, in row order. *)
Definition area_names (c : string) (processed_data : list geocoded_area) : list string :=
  map (fun r => area_name (profile r)) (city_rows c processed_data).

End Graphs.

(** ** Risk-Weighted Pathfinder: [a_star_search] *)

Module AStar.
Import Graphs.

(** A float of the search tables: a number or [float('inf')]. *)
Inductive ext := Finite (q : Q) | Infinity.

(** The exceptions the function can let escape. *)
Inductive error :=
| KeyError (key : string)
| NetworkXError (node : string).

(** What a call does: it returns, it raises, or (in the embedding only) the
    fuel that bounds the two [while] loops runs out. *)
Inductive outcome (A : Type) :=
| Return (a : A)
| Raise (e : error)
| OutOfFuel.
Arguments Return {A} a.
Arguments Raise {A} e.
Arguments OutOfFuel {A}.

#[export] Instance outcome_bind : MBind outcome := fun A B f m =>
  match m with
  | Return a => f a
  | Raise e => Raise e
  | OutOfFuel => OutOfFuel
  end.

(** [d[k]] on a dict. *)
Definition getitem {V} (d : gmap string V) (k : string) : outcome V :=
  match d !! k with
  | Some v => Return v
  | None => Raise (KeyError k)
  end.

(** Heap items are tuples [(f_score, g_score, node)], compared the way
    Python compares tuples: first components first, node names last. *)
Definition entry : Type := Q * Q * string.

Definition entry_compare (a b : entry) : comparison :=
  match Qcompare a.1.1 b.1.1 with
  | Eq => match Qcompare a.1.2 b.1.2 with
          | Eq => String.compare a.2 b.2
          | c => c
          end
  | c => c
  end.

Definition entry_ltb (a b : entry) : bool :=
  match entry_compare a b with Lt => true | _ => false end.

(** [heapq] as a priority queue: the heap is the collection of its items,
    [heappop] removes a smallest one.  Two items that compare equal are the
    same tuple, so the layout of the heap cannot be observed. *)
Definition heappush (h : list entry) (x : entry) : list entry := x :: h.

Fixpoint heappop (h : list entry) : option (entry * list entry) :=
  match h with
  | [] => None
  | x :: h' =>
      match heappop h' with
      | None => Some (x, [])
      | Some (y, rest) => if entry_ltb y x then Some (y, x :: rest) else Some (x, h')
      end
  end.

(** [tentative_g_score < g_score[neighbor]] *)
Definition lt_ext (q : Q) (e : ext) : bool :=
  match e with
  | Infinity => true
  | Finite g => match Qcompare q g with Lt => true | _ => false end
  end.

Record search_state := {
  open_set : list entry;
  came_from : gmap string string;
  g_score : gmap string ext;
  f_score : gmap string ext
}.

(** [{node: float('inf') for node in graph.nodes}] *)
Definition all_infinite (ns : list string) : gmap string ext :=
  foldr (fun n m => <[n := Infinity]> m) ∅ ns.

Section Search.

(** The heuristic.  [haversine_distance] is computed with [sin], [cos],
    [sqrt] and [atan2]; the search only uses its values, so it is a
    parameter here.  It is taken to return a value; a call that raises is
    part of [Pathfinder] below. *)
Variable haversine_distance : coord -> coord -> Q.

Variable graph : graph.
Variables start_node end_node : string.
Variable coords_map : gmap string coord.
Variable danger_scores : gmap string Q.

(** The body of [for neighbor in graph.neighbors(current_node)]. *)
Definition relax (current_g : Q) (current_node : string)
    (st : search_state) (neighbor : string) : outcome search_state :=
  d ← getitem danger_scores neighbor;
  let tentative_g_score := current_g + d in
  g ← getitem (g_score st) neighbor;
  if lt_ext tentative_g_score g then
    cn ← getitem coords_map neighbor;
    ce ← getitem coords_map end_node;
    let heuristic := haversine_distance cn ce in
    let f := tentative_g_score + heuristic in
    Return {| open_set := heappush (open_set st) (f, tentative_g_score, neighbor);
              came_from := <[neighbor := current_node]> (came_from st);
              g_score := <[neighbor := Finite tentative_g_score]> (g_score st);
              f_score := <[neighbor := Finite f]> (f_score st) |}
  else Return st.

Fixpoint relax_all (current_g : Q) (current_node : string)
    (st : search_state) (nbrs : list string) : outcome search_state :=
  match nbrs with
  | [] => Return st
  | neighbor :: rest =>
      st' ← relax current_g current_node st neighbor;
      relax_all current_g current_node st' rest
  end.

(** [while current_node in came_from: path.append(current_node); ...] *)
Fixpoint walk_back (fuel : nat) (came_from : gmap string string)
    (current_node : string) (path : list string) : outcome (list string) :=
  match came_from !! current_node with
  | None => Return path
  | Some prev =>
      match fuel with
      | O => OutOfFuel
      | S fuel' => walk_back fuel' came_from prev (path ++ [current_node])
      end
  end.

Definition reconstruct (fuel : nat) (came_from : gmap string string)
    (current_node : string) : outcome (list string) :=
  path ← walk_back fuel came_from current_node [];
  Return (rev (path ++ [start_node])).

(** [while open_set: ...]; [rfuel] bounds the inner loop that walks the
    predecessor links. *)
Fixpoint search_loop (rfuel fuel : nat) (st : search_state)
  : outcome (option (list string)) :=
  match fuel with
  | O => OutOfFuel
  | S fuel' =>
      match heappop (open_set st) with
      | None => Return None
      | Some ((_, current_g, current_node), rest) =>
          let st := {| open_set := rest; came_from := came_from st;
                       g_score := g_score st; f_score := f_score st |} in
          if String.eqb current_node end_node then
            path ← reconstruct rfuel (came_from st) current_node;
            Return (Some path)
          else
            match neighbors graph current_node with
            | None => Raise (NetworkXError current_node)
            | Some nbrs =>
                st' ← relax_all current_g current_node st nbrs;
                search_loop rfuel fuel' st'
            end
      end
  end.

Definition a_star_search (fuel : nat) : outcome (option (list string)) :=
  let open_set := heappush [] (0, 0, start_node) in
  let g_score := <[start_node := Finite 0]> (all_infinite (nodes graph)) in
  cs ← getitem coords_map start_node;
  ce ← getitem coords_map end_node;
  let f_score :=
    <[start_node := Finite (haversine_distance cs ce)]> (all_infinite (nodes graph)) in
  search_loop fuel fuel
    {| open_set := open_set; came_from := ∅; g_score := g_score; f_score := f_score |}.

End Search.

(** The cumulative cost of a path: the danger scores of all nodes after the
    first. *)
Definition path_cost (danger_scores : gmap string Q) (path : list string) : Q :=
  foldr Qplus 0 (map (fun n => default 0 (danger_scores !! n)) (tail path)).

(** Consecutive nodes of a path are joined by an edge. *)
Fixpoint is_path (G : graph) (p : list string) : Prop :=
  match p with
  | a :: (b :: _) as tl => (exists l, neighbors G a = Some l /\ b ∈ l) /\ is_path G tl
  | _ => True
  end.

(** A complete simple graph: every node is adjacent to exactly the other
    nodes, each once. *)
Definition complete_graph (G : graph) : Prop :=
  NoDup (nodes G) /\
  forall n, n ∈ nodes G ->
    exists l, neighbors G n = Some l /\ NoDup l /\
      forall m, m ∈ l <-> m ∈ nodes G /\ m <> n.

End AStar.

(** ** The pathfinder with its library calls: [heapq] and the heuristic

    [AStar.a_star_search] above fixes one layout of the heap and takes a
    heuristic that always returns.  Here the two calls that leave the
    function are parameters with their own behaviour: the heap is any pair
    of operations that does what [heapq.heappush] and [heapq.heappop] do,
    and [haversine_distance] may raise the ValueError of [math.sqrt]
    ([None]). *)

Module Pathfinder.
Import Graphs AStar.

(** The exceptions of the search: those of the dictionary and graph lookups,
    and the "math domain error" of the heuristic. *)
Inductive exception :=
| LookupError (e : error)
| ValueError.

Inductive run (A : Type) :=
| Returned (a : A)
| Raised (e : exception)
| NoFuel.
Arguments Returned {A} a.
Arguments Raised {A} e.
Arguments NoFuel {A}.

#[global] Instance run_bind : MBind run := fun A B f m =>
  match m with
  | Returned a => f a
  | Raised e => Raised e
  | NoFuel => NoFuel
  end.

(** A lookup or a walk along the predecessor links, as it is in [AStar]. *)
Definition lift {A} (m : outcome A) : run A :=
  match m with
  | Return a => Returned a
  | Raise e => Raised (LookupError e)
  | OutOfFuel => NoFuel
  end.

(** A call of [haversine_distance]. *)
Definition call (r : option Q) : run Q :=
  match r with
  | Some d => Returned d
  | None => Raised ValueError
  end.

(** What [heapq] promises: a push adds the item, a pop of an empty heap
    fails (the loop tests the heap before), and a pop removes an item that
    no other item of the heap is smaller than. *)
Record heapq (push : list entry -> entry -> list entry)
    (pop : list entry -> option (entry * list entry)) : Prop := {
  push_items : forall h x, push h x ≡ₚ x :: h;
  pop_empty : forall h, pop h = None <-> h = [];
  pop_items : forall h x rest, pop h = Some (x, rest) -> h ≡ₚ x :: rest;
  pop_least : forall h x rest y, pop h = Some (x, rest) -> y ∈ h -> entry_ltb y x = false
}.

Section Search.

Variable heappush : list entry -> entry -> list entry.
Variable heappop : list entry -> option (entry * list entry).
Variable haversine_distance : coord -> coord -> option Q.

Variable graph : graph.
Variables start_node end_node : string.
Variable coords_map : gmap string coord.
Variable danger_scores : gmap string Q.

(** The body of [for neighbor in graph.neighbors(current_node)]. *)
Definition relax (current_g : Q) (current_node : string)
    (st : search_state) (neighbor : string) : run search_state :=
  d ← lift (getitem danger_scores neighbor);
  let tentative_g_score := current_g + d in
  g ← lift (getitem (g_score st) neighbor);
  if lt_ext tentative_g_score g then
    cn ← lift (getitem coords_map neighbor);
    ce ← lift (getitem coords_map end_node);
    heuristic ← call (haversine_distance cn ce);
    let f := tentative_g_score + heuristic in
    Returned {| open_set := heappush (open_set st) (f, tentative_g_score, neighbor);
                came_from := <[neighbor := current_node]> (came_from st);
                g_score := <[neighbor := Finite tentative_g_score]> (g_score st);
                f_score := <[neighbor := Finite f]> (f_score st) |}
  else Returned st.

Fixpoint relax_all (current_g : Q) (current_node : string)
    (st : search_state) (nbrs : list string) : run search_state :=
  match nbrs with
  | [] => Returned st
  | neighbor :: rest =>
      st' ← relax current_g current_node st neighbor;
      relax_all current_g current_node st' rest
  end.

(** [while open_set: ...] *)
Fixpoint search_loop (rfuel fuel : nat) (st : search_state)
  : run (option (list string)) :=
  match fuel with
  | O => NoFuel
  | S fuel' =>
      match heappop (open_set st) with
      | None => Returned None
      | Some ((_, current_g, current_node), rest) =>
          let st := {| open_set := rest; came_from := came_from st;
                       g_score := g_score st; f_score := f_score st |} in
          if String.eqb current_node end_node then
            path ← lift (reconstruct start_node rfuel (came_from st) current_node);
            Returned (Some path)
          else
            match neighbors graph current_node with
            | None => Raised (LookupError (NetworkXError current_node))
            | Some nbrs =>
                st' ← relax_all current_g current_node st nbrs;
                search_loop rfuel fuel' st'
            end
      end
  end.

Definition a_star_search (fuel : nat) : run (option (list string)) :=
  let open_set := heappush [] (0, 0, start_node) in
  let g_score := <[start_node := Finite 0]> (all_infinite (nodes graph)) in
  cs ← lift (getitem coords_map start_node);
  ce ← lift (getitem coords_map end_node);
  h0 ← call (haversine_distance cs ce);
  let f_score := <[start_node := Finite h0]> (all_infinite (nodes graph)) in
  search_loop fuel fuel
    {| open_set := open_set; came_from := ∅; g_score := g_score; f_score := f_score |}.

End Search.

End Pathfinder.

(** ** The application: [run_application] *)

Module Main.
Import Scores Graphs AStar.

(** What [run_application] tells the user. *)
Inductive report :=
| SetupFailed                      (* "Failed to load data" / "Geocoding failed" *)
| InvalidCity                      (* "Invalid city name. Please restart." *)
| InvalidArea                      (* "Invalid start or end area. Please restart." *)
| PathFound (path : list string)   (* "Path found: ..." *)
| NoPathFound.                     (* "No path could be found ..." *)

(** The data processing pipeline.  [combined_data] is what
    [load_and_combine_data] returned ([None] when loading failed) and
    [geocode] is the geocoding service. *)
Definition data_pipeline (geocode : string -> string -> option coord)
    (combined_data : option (list observation)) : option city_tables :=
  data ← combined_data;
  processed_data ← calculate_danger_scores data;
  let geocoded_data := geocode_areas geocode processed_data in
  match geocoded_data with
  | [] => None
  | _ => Some (build_city_graphs geocoded_data)
  end.

(** The user interaction: the three answers typed by the user are [city],
    [start_area] and [end_area]. *)
Definition user_interaction (haversine_distance : coord -> coord -> Q)
    (t : city_tables) (city start_area end_area : string) (fuel : nat)
  : outcome report :=
  match city_graphs t !! city with
  | None => Return InvalidCity
  | Some G =>
      if negb (bool_decide (start_area ∈ nodes G))
         || negb (bool_decide (end_area ∈ nodes G))
      then Return InvalidArea
      else
        cm ← getitem (city_coords t) city;
        dm ← getitem (city_danger_scores t) city;
        path ← a_star_search haversine_distance G start_area end_area cm dm fuel;
        match path with
        | Some (n :: p) => Return (PathFound (n :: p))
        | _ => Return NoPathFound
        end
  end.

Definition run_application (haversine_distance : coord -> coord -> Q)
    (geocode : string -> string -> option coord)
    (combined_data : option (list observation))
    (city start_area end_area : string) (fuel : nat) : outcome report :=
  match data_pipeline geocode combined_data with
  | None => Return SetupFailed
  | Some t => user_interaction haversine_distance t city start_area end_area fuel
  end.

End Main.

(** ** Map drawing: [get_osrm_route], [create_route_map], [save_map] *)

Module Visualization.
Import Scores Graphs.

(** What a request to the OSRM routing service can give: a failed request
    (a [requests.exceptions.RequestException], which [get_osrm_route]
    catches), a reply in which [data['routes'][0]['geometry']] does not exist
    (a KeyError or IndexError, which nothing catches), or the decoded
    polyline of the route. *)
Inductive osrm_reply :=
| RequestFailed
| NoGeometry
| Geometry (route : list coord).

(** The exceptions that leave [create_route_map]. *)
Inductive exception :=
| MissingCoords (loc : string)   (* KeyError from [city_coords[loc]] *)
| BadReply.                      (* from [data['routes'][0]['geometry']] *)

Inductive result (A : Type) :=
| Ok (a : A)
| Raised (e : exception).
Arguments Ok {A} a.
Arguments Raised {A} e.

Definition result_bind {A B} (f : A -> result B) (m : result A) : result B :=
  match m with
  | Ok a => f a
  | Raised e => Raised e
  end.

#[export] Instance result_mbind : MBind result := @result_bind.

(** [city_coords[loc]] *)
Definition subscript (city_coords : gmap string coord) (loc : string) : result coord :=
  match city_coords !! loc with
  | Some c => Ok c
  | None => Raised (MissingCoords loc)
  end.

(** A list comprehension [[f(loc) for loc in path]] whose body may raise. *)
Fixpoint for_each {A B} (f : A -> result B) (l : list A) : result (list B) :=
  match l with
  | [] => Ok []
  | x :: l' => y ← f x; ys ← for_each f l'; Ok (y :: ys)
  end.

Inductive colour := green | orange | red | blue | purple.

Record circle_marker := {
  circle_location : coord;
  circle_area : string;          (* the popup names the area ... *)
  circle_score : Q;              (* ... and shows its danger score *)
  circle_color : colour
}.

Inductive marker_kind := START | FINISH.   (* "START: ..." and "END: ..." *)

Record marker := {
  marker_location : coord;
  marker_kind_of : marker_kind;
  marker_area : string;
  marker_color : colour
}.

Record poly_line := {
  line_points : list coord;
  line_color : colour;
  line_weight : nat
}.

(** A Folium map and the elements added to it.  The dict [city_coords] is a
    [gmap] here, so the circle markers come in the order of [map_to_list]
    and not in the insertion order of the dict. *)
Record folium_map := {
  map_location : Q * Q;
  circle_markers : list circle_marker;
  markers : list marker;
  poly_lines : list poly_line
}.

(** OSRM takes coordinates as (longitude, latitude). *)
Definition get_osrm_route (request : list (Q * Q) -> osrm_reply)
    (coords_sequence : list coord) : result (option (list coord)) :=
  let waypoints := map (fun c : coord => (c.2, c.1)) coords_sequence in
  match request waypoints with
  | Geometry route => Ok (Some route)
  | RequestFailed => Ok None
  | NoGeometry => Raised BadReply
  end.

(** The colour of an area: [score < 3.5], [score < 6], else. *)
Definition danger_color (score : Q) : colour :=
  if Qlt_le_dec score (7 # 2) then green
  else if Qlt_le_dec score 6 then orange
  else red.

Definition circle_of (city_danger_scores : gmap string Q) (item : string * coord)
  : circle_marker :=
  let score := default 0 (city_danger_scores !! item.1) in
  {| circle_location := item.2; circle_area := item.1; circle_score := score;
     circle_color := danger_color score |}.

Definition create_route_map (request : list (Q * Q) -> osrm_reply)
    (path : list string) (city_coords : gmap string coord)
    (city_danger_scores : gmap string Q) : result (option folium_map) :=
  match path with
  | [] => Ok None
  | first :: _ =>
      lats ← for_each (fun loc => c ← subscript city_coords loc; Ok c.1) path;
      lons ← for_each (fun loc => c ← subscript city_coords loc; Ok c.2) path;
      let avg_lat := mean lats in
      let avg_lon := mean lons in
      let circles := map (circle_of city_danger_scores) (map_to_list city_coords) in
      start ← subscript city_coords first;
      finish ← subscript city_coords (List.last path first);
      let start_marker :=
        {| marker_location := start; marker_kind_of := START;
           marker_area := first; marker_color := green |} in
      let end_marker :=
        {| marker_location := finish; marker_kind_of := FINISH;
           marker_area := List.last path first; marker_color := red |} in
      path_coords ← for_each (subscript city_coords) path;
      osrm_route_geometry ← get_osrm_route request path_coords;
      let line :=
        match osrm_route_geometry with
        | Some (p :: route) =>
            {| line_points := p :: route; line_color := blue; line_weight := 5 |}
        | _ => {| line_points := path_coords; line_color := purple; line_weight := 3 |}
        end in
      Ok (Some {| map_location := (avg_lat, avg_lon);
                  circle_markers := circles;
                  markers := [start_marker; end_marker];
                  poly_lines := [line] |})
  end.

(** [save_map]: the map written to the file, if there is one to write. *)
Definition save_map (map_object : option folium_map) : option folium_map :=
  match map_object with
  | Some m => Some m
  | None => None
  end.

End Visualization.

(** ** Data loading: [load_and_combine_data] *)

Module DataHandler.
Import Scores.

(** The dict [sheet_names_map], in the order of its items. *)
Definition sheet_names_map : list (string * string) :=
  [ ("delhi_combined_data", "Delhi");
    ("mumbai_combined_data", "Mumbai");
    ("chennai_combined_data", "Chennai");
    ("bengaluru_combined_data", "Bengaluru");
    ("kochi_combined_data", "Kochi") ].

(** [df['city'] = city_name] on one row: the column is set, whatever the
    sheet had in it. *)
Definition set_city (city_name : string) (o : observation) : observation :=
  {| o_city := city_name; o_area_name := o_area_name o;
     o_lighting_quality_score := o_lighting_quality_score o;
     o_uptime_ratio := o_uptime_ratio o |}.

(** [read_excel] stands for [pd.read_excel(file_path, sheet_name=...)]: the
    dict of the sheets it read, or [None] when it raised. *)
Definition load_and_combine_data
    (read_excel : list string -> option (gmap string (list observation)))
  : option (list observation) :=
  match read_excel (map fst sheet_names_map) with
  | Some xls =>
      let all_dfs :=
        omap (fun item : string * string =>
                match xls !! item.1 with
                | Some df => Some (map (set_city item.2) df)
                | None => None
                end) sheet_names_map in
      match all_dfs with
      | [] => None
      | _ => Some (concat all_dfs)
      end
  | None => None
  end.

End DataHandler.

(** ** The application with its input and output: loading, and drawing the map *)

Module App.
Import Scores Graphs AStar Main Visualization DataHandler.

(** The end of [run_application]: when a path was found, the map is drawn
    from the tables of the city and saved.  The search has read
    [coords[city]] and [dangers[city]] before, so they are there when a path
    was found. *)
Definition draw_route (request : list (Q * Q) -> osrm_reply)
    (t : city_tables) (city : string) (r : report)
  : result (option folium_map) :=
  match r with
  | PathFound path =>
      match city_coords t !! city, city_danger_scores t !! city with
      | Some cm, Some dm =>
          route_map ← create_route_map request path cm dm;
          Ok (save_map route_map)
      | _, _ => Ok None
      end
  | _ => Ok None
  end.

(** [run_application] from the workbook to the saved map: what the user is
    told, and the map that was written. *)
Definition run_from_file (haversine_distance : coord -> coord -> Q)
    (read_excel : list string -> option (gmap string (list observation)))
    (geocode : string -> string -> option coord)
    (request : list (Q * Q) -> osrm_reply)
    (city start_area end_area : string) (fuel : nat)
  : outcome (report * result (option folium_map)) :=
  let combined_data := load_and_combine_data read_excel in
  r ← run_application haversine_distance geocode combined_data
        city start_area end_area fuel;
  match data_pipeline geocode combined_data with
  | Some t => Return (r, draw_route request t city r)
  | None => Return (r, Ok None)
  end.

End App.

(** ** The heuristic: [haversine_distance]

    The trigonometric functions are those of the real numbers: a float is
    read as the real number it stands for.  [math.sqrt] raises a ValueError
    on a negative argument, which is [None] here.  The computation in
    binary64, where rounding can take [a] above 1, is [HaversineFloat]
    below. *)

From Stdlib Require Reals Lra.

Module Haversine.
Import Stdlib.Reals.Reals.
Local Open Scope R_scope.

(** [math.radians] *)
Definition radians (x : R) : R := x * PI / 180.

(** [math.sqrt] *)
Definition sqrt_checked (x : R) : option R :=
  if Rle_dec 0 x then Some (sqrt x) else None.

(** [math.atan2(y, x)]: the angle of the point (x, y), in (-pi, pi]. *)
Definition atan2 (y x : R) : R :=
  if Rlt_dec 0 x then atan (y / x)
  else if Rlt_dec x 0 then
    if Rle_dec 0 y then atan (y / x) + PI else atan (y / x) - PI
  else if Rlt_dec 0 y then PI / 2
  else if Rlt_dec y 0 then - (PI / 2)
  else 0.

(** The quantity [a] of the haversine formula. *)
Definition haversine_a (coord1 coord2 : R * R) : R :=
  let lat1 := radians coord1.1 in
  let lon1 := radians coord1.2 in
  let lat2 := radians coord2.1 in
  let lon2 := radians coord2.2 in
  let dlon := lon2 - lon1 in
  let dlat := lat2 - lat1 in
  (sin (dlat / 2)) ^ 2 + cos lat1 * cos lat2 * (sin (dlon / 2)) ^ 2.

Definition haversine_distance (coord1 coord2 : R * R) : option R :=
  let R := 6371 in
  let a := haversine_a coord1 coord2 in
  s1 ← sqrt_checked a;
  s2 ← sqrt_checked (1 - a);
  let c := 2 * atan2 s1 s2 in
  Some (R * c).

End Haversine.

(** ** The heuristic in floating point

    [haversine_distance] as Python computes it: in binary64 arithmetic, with
    the functions [sin], [cos], [atan2] and [pow] of the C library behind the
    [math] module as parameters.  [math.sqrt] raises a ValueError ("math
    domain error") on a negative argument, which is [None] here. *)

From Stdlib Require Floats.

Module HaversineFloat.
Import Stdlib.Floats.Floats.
Import Graphs.

(** The functions of the C library that the formula calls. *)
Record libm := {
  m_sin : float -> float;
  m_cos : float -> float;
  m_atan2 : float -> float -> float;
  m_pow : float -> float -> float         (* [x ** y] on floats *)
}.

(** [math.pi] *)
Definition pi : float := 0x1.921fb54442d18p+1%float.

(** [math.radians]: the argument times [pi / 180]. *)
Definition radians (x : float) : float := (x * (pi / 180))%float.

(** [math.sqrt] *)
Definition sqrt_checked (x : float) : option float :=
  if (x <? 0)%float then None else Some (PrimFloat.sqrt x).

Section Formula.

Variable m : libm.

(** The quantity [a] of the formula. *)
Definition haversine_a (coord1 coord2 : float * float) : float :=
  let lat1 := radians coord1.1 in
  let lon1 := radians coord1.2 in
  let lat2 := radians coord2.1 in
  let lon2 := radians coord2.2 in
  let dlon := (lon2 - lon1)%float in
  let dlat := (lat2 - lat1)%float in
  (m_pow m (m_sin m (dlat / 2)) 2
   + m_cos m lat1 * m_cos m lat2 * m_pow m (m_sin m (dlon / 2)) 2)%float.

Definition haversine_distance (coord1 coord2 : float * float) : option float :=
  let R := 6371%float in
  let a := haversine_a coord1 coord2 in
  s1 ← sqrt_checked a;
  s2 ← sqrt_checked (1 - a)%float;
  let c := (2 * m_atan2 m s1 s2)%float in
  Some (R * c)%float.

End Formula.

(** The float nearest to a rational, and the rational a float stands for;
    the coordinates and the scores of the embedding are rationals. *)
Definition float_of_Z (z : Z) : float :=
  match z with
  | Z0 => 0%float
  | Zpos p => PrimFloat.of_uint63 (Uint63.of_Z (Zpos p))
  | Zneg p => (- PrimFloat.of_uint63 (Uint63.of_Z (Zpos p)))%float
  end.

Definition float_of_Q (q : Q) : float :=
  (float_of_Z (Qnum q) / float_of_Z (Zpos (Qden q)))%float.

Definition Q_of_float (x : float) : Q :=
  match Prim2SF x with
  | S754_finite s mant e =>
      (if s then - inject_Z (Zpos mant) else inject_Z (Zpos mant)) * (2 ^ e)
  | _ => 0
  end.

Definition float_coord (c : coord) : float * float := (float_of_Q c.1, float_of_Q c.2).

(** The heuristic as the search receives it. *)
Definition heuristic (m : libm) (coord1 coord2 : coord) : option Q :=
  Q_of_float <$> haversine_distance m (float_coord coord1) (float_coord coord2).

End HaversineFloat.
(** ** Facts about the Score Normalizer *)

Module ScoresFacts.
Import Scores.

Lemma series_max_ge x xs v : In v (x :: xs) -> v <= series_max x xs.
Proof.
  unfold series_max. induction xs as [|y ys IH]; simpl.
  - intros [->|[]]. apply Qle_refl.
  - intros [->|[->|Hin]].
    + eapply Qle_trans; [apply IH; left; reflexivity | apply Q.le_max_r].
    + apply Q.le_max_l.
    + eapply Qle_trans; [apply IH; right; exact Hin | apply Q.le_max_r].
Qed.

Lemma series_min_le x xs v : In v (x :: xs) -> series_min x xs <= v.
Proof.
  unfold series_min. induction xs as [|y ys IH]; simpl.
  - intros [->|[]]. apply Qle_refl.
  - intros [->|[->|Hin]].
    + eapply Qle_trans; [apply Q.le_min_r | apply IH; left; reflexivity].
    + apply Q.le_min_l.
    + eapply Qle_trans; [apply Q.le_min_r | apply IH; right; exact Hin].
Qed.

Lemma series_max_in x xs : exists v, In v (x :: xs) /\ v == series_max x xs.
Proof.
  unfold series_max. induction xs as [|y ys IH]; simpl.
  - exists x. split; [left; reflexivity | reflexivity].
  - destruct IH as (v & Hin & Hv).
    destruct (Q.max_dec y (foldr Qmax x ys)) as [E|E].
    + exists y. split; [right; left; reflexivity | symmetry; exact E].
    + exists v. split.
      * destruct Hin as [->|Hin]; [left; reflexivity | right; right; exact Hin].
      * rewrite E. exact Hv.
Qed.

Lemma series_min_in x xs : exists v, In v (x :: xs) /\ v == series_min x xs.
Proof.
  unfold series_min. induction xs as [|y ys IH]; simpl.
  - exists x. split; [left; reflexivity | reflexivity].
  - destruct IH as (v & Hin & Hv).
    destruct (Q.min_dec y (foldr Qmin x ys)) as [E|E].
    + exists y. split; [right; left; reflexivity | symmetry; exact E].
    + exists v. split.
      * destruct Hin as [->|Hin]; [left; reflexivity | right; right; exact Hin].
      * rewrite E. exact Hv.
Qed.

(** The value [normalize] gives to an element [v] of a series with minimum
    [mn] and maximum [mx]. *)
Definition norm_with (mn mx v : Q) : Q :=
  if Qeq_bool mx mn then 0 else (v - mn) / (mx - mn).

Lemma normalize_cons x xs :
  normalize (x :: xs) =
  Some (map (norm_with (series_min x xs) (series_max x xs)) (x :: xs)).
Proof.
  unfold normalize, norm_with.
  destruct (Qeq_bool (series_max x xs) (series_min x xs)) eqn:E; [reflexivity|].
  destruct (Qeq_bool (series_max x xs - series_min x xs) 0) eqn:E0; [|reflexivity].
  apply Qeq_bool_neq in E. apply Qeq_bool_eq in E0.
  exfalso. apply E. lra.
Qed.

Lemma norm_with_range mn mx v :
  mn <= v -> v <= mx -> 0 <= norm_with mn mx v <= 1.
Proof.
  intros Hlo Hhi. unfold norm_with.
  destruct (Qeq_bool mx mn) eqn:E; [lra|].
  apply Qeq_bool_neq in E.
  assert (Hpos : 0 < mx - mn).
  { destruct (Qlt_le_dec mn mx) as [H|H]; [lra|]. exfalso. apply E. lra. }
  split.
  - apply Qle_shift_div_l; [exact Hpos | lra].
  - apply Qle_shift_div_r; [exact Hpos | lra].
Qed.

Lemma norm_with_flat mn mx v : mx == mn -> norm_with mn mx v = 0.
Proof. intros E. unfold norm_with. rewrite (Qeq_eq_bool _ _ E). reflexivity. Qed.

Lemma norm_with_min mn mx v : v == mn -> norm_with mn mx v == 0.
Proof.
  intros E. unfold norm_with. destruct (Qeq_bool mx mn); [reflexivity|].
  rewrite E. unfold Qdiv. ring.
Qed.

Lemma norm_with_max mn mx v : v == mx -> ~ mx == mn -> norm_with mn mx v == 1.
Proof.
  intros E Hne. unfold norm_with.
  destruct (Qeq_bool mx mn) eqn:B; [apply Qeq_bool_eq in B; contradiction|].
  rewrite E. field. lra.
Qed.

Lemma lookup_map {A B} (f : A -> B) (l : list A) i :
  map f l !! i = f <$> (l !! i).
Proof. exact (list_lookup_fmap f l i). Qed.

Lemma city_series_cons c' cities x col c :
  city_series (c' :: cities) (x :: col) c =
  if String.eqb c' c then x :: city_series cities col c else city_series cities col c.
Proof. unfold city_series. simpl. destruct (String.eqb c' c); reflexivity. Qed.

Lemma city_series_lookup cities : forall (col : list Q) i c x,
  length cities = length col ->
  cities !! i = Some c -> col !! i = Some x ->
  city_series cities col c !! group_pos cities i c = Some x.
Proof.
  induction cities as [|c' cities IH]; intros col i c x Hlen Hc Hx.
  - destruct i; discriminate.
  - destruct col as [|y col]; [discriminate|].
    rewrite city_series_cons.
    destruct i as [|i]; simpl in Hc, Hx.
    + injection Hc as ->. injection Hx as ->.
      rewrite String.eqb_refl. reflexivity.
    + unfold group_pos. simpl.
      injection Hlen as Hlen.
      destruct (String.eqb c' c); simpl; apply IH; assumption.
Qed.

Lemma city_series_in cities : forall (col : list Q) c v,
  In v (city_series cities col c) ->
  exists i, cities !! i = Some c /\ col !! i = Some v.
Proof.
  induction cities as [|c' cities IH]; intros col c v Hin.
  - destruct col; contradiction.
  - destruct col as [|y col]; [contradiction|].
    rewrite city_series_cons in Hin.
    destruct (String.eqb c' c) eqn:E.
    + destruct Hin as [->|Hin].
      * apply String.eqb_eq in E. subst c'. exists 0%nat. split; reflexivity.
      * destruct (IH _ _ _ Hin) as (i & H1 & H2). exists (S i). split; assumption.
    + destruct (IH _ _ _ Hin) as (i & H1 & H2). exists (S i). split; assumption.
Qed.

Lemma transform_normalize cities (col : list Q) :
  length cities = length col ->
  exists r, transform normalize cities col = Some r /\
    length r = length col /\
    forall i c x, cities !! i = Some c -> col !! i = Some x ->
      exists y ys, city_series cities col c = y :: ys /\
        r !! i = Some (norm_with (series_min y ys) (series_max y ys) x).
Proof.
  intros Hlen.
  assert (Hpt : forall i c, cities !! i = Some c ->
            exists x y ys, col !! i = Some x /\ city_series cities col c = y :: ys /\
              (r ← normalize (city_series cities col c); r !! group_pos cities i c)
              = Some (norm_with (series_min y ys) (series_max y ys) x)).
  { intros i c Hc.
    destruct (col !! i) as [x|] eqn:Hx.
    2:{ apply lookup_ge_None in Hx. apply lookup_lt_Some in Hc. lia. }
    pose proof (city_series_lookup _ _ _ _ _ Hlen Hc Hx) as Hl.
    destruct (city_series cities col c) as [|y ys] eqn:Hs.
    { rewrite lookup_nil in Hl. discriminate. }
    exists x, y, ys. split; [reflexivity|]. split; [reflexivity|].
    rewrite normalize_cons.
    change (map (norm_with (series_min y ys) (series_max y ys)) (y :: ys)
              !! group_pos cities i c
            = Some (norm_with (series_min y ys) (series_max y ys) x)).
    rewrite lookup_map, Hl. reflexivity. }
  destruct (transform normalize cities col) as [r|] eqn:Ht.
  - exists r. unfold transform in Ht. apply mapM_Some in Ht.
    apply Forall2_same_length_lookup in Ht as [Hl Hall].
    rewrite length_imap in Hl.
    split; [reflexivity|]. split; [lia|].
    intros i c x Hc Hx.
    destruct (Hpt i c Hc) as (x' & y & ys & Hx' & Hs & Hr).
    rewrite Hx in Hx'. injection Hx' as <-.
    exists y, ys. split; [exact Hs|].
    destruct (r !! i) as [v|] eqn:Hv.
    2:{ apply lookup_ge_None in Hv. apply lookup_lt_Some in Hc. lia. }
    specialize (Hall i (i, c) v).
    rewrite list_lookup_imap, Hc in Hall. specialize (Hall eq_refl Hv).
    simpl in Hall. rewrite Hr in Hall. congruence.
  - exfalso. unfold transform in Ht.
    assert (His : is_Some (mapM (fun ic : nat * string =>
              r ← normalize (city_series cities col ic.2);
              r !! group_pos cities ic.1 ic.2) (imap pair cities))).
    { apply mapM_is_Some. apply Forall_forall. intros [i c] Hin.
      apply list_elem_of_lookup in Hin as [j Hj].
      rewrite list_lookup_imap in Hj.
      destruct (cities !! j) as [c'|] eqn:Hc; [|discriminate].
      simpl in Hj. injection Hj as <- <-.
      destruct (Hpt j c' Hc) as (x & y & ys & _ & _ & Hr).
      simpl. unfold compose. simpl. rewrite Hr. eexists; reflexivity. }
    rewrite Ht in His. destruct His; discriminate.
Qed.

Definition normalized (series : list Q) : list Q :=
  match series with
  | [] => []
  | x :: xs => map (norm_with (series_min x xs) (series_max x xs)) series
  end.

Lemma normalize_total series : normalize series = Some (normalized series).
Proof. destruct series; [reflexivity | apply normalize_cons]. Qed.

Lemma normalized_length series : length (normalized series) = length series.
Proof. destruct series; [reflexivity|]. unfold normalized. apply length_map. Qed.

Lemma normalized_lookup x xs i v :
  (x :: xs) !! i = Some v ->
  normalized (x :: xs) !! i = Some (norm_with (series_min x xs) (series_max x xs) v).
Proof. intros H. unfold normalized. rewrite lookup_map, H. reflexivity. Qed.

Lemma lookup_In {A} (l : list A) i x : l !! i = Some x -> In x l.
Proof. intros H. apply list_elem_of_In. eapply list_elem_of_lookup_2; eauto. Qed.

Lemma In_lookup {A} (l : list A) x : In x l -> exists i, l !! i = Some x.
Proof. intros H. apply list_elem_of_In in H. apply list_elem_of_lookup_1 in H. exact H. Qed.

Lemma add_columns_lookup bs : forall cns lis ds i r,
  add_columns bs cns lis ds !! i = Some r <->
  exists b cn li d, bs !! i = Some b /\ cns !! i = Some cn /\ lis !! i = Some li /\
    ds !! i = Some d /\ r = mk_profile b cn li d.
Proof.
  induction bs as [|b bs IH]; intros cns lis ds i r.
  - simpl. split; [intros H; discriminate|].
    intros (b & ? & ? & ? & H & _). discriminate.
  - destruct cns as [|cn cns]; [|destruct lis as [|li lis]; [|destruct ds as [|d ds]]].
    1-3: (simpl; split; [intros H; discriminate|];
          intros (? & ? & ? & ? & ? & H1 & H2 & H3 & _); discriminate).
    destruct i as [|i]; simpl.
    + split.
      * intros [= <-]. do 4 eexists. repeat split.
      * intros (? & ? & ? & ? & [= <-] & [= <-] & [= <-] & [= <-] & ->). reflexivity.
    + apply IH.
Qed.

(** The stages of [calculate_danger_scores], all of the same length. *)
Lemma calculate_stages data_df :
  let processed_data := merge (crime_counts data_df) (area_features data_df) in
  let cities := map b_city processed_data in
  let crimes := map (fun b => inject_Z (Z.of_nat (b_crime_count b))) processed_data in
  let lights := map b_lighting_quality_score processed_data in
  exists cn ln,
    transform normalize cities crimes = Some cn /\
    transform normalize cities lights = Some ln /\
    length cn = length processed_data /\ length ln = length processed_data /\
    calculate_danger_scores data_df =
      Some (add_columns processed_data cn (map (fun v => 1 - v) ln)
              (map (fun v => 1 + 9 * v)
                 (normalized (zip_with composite cn (map (fun v => 1 - v) ln))))).
Proof.
  intros P cities crimes lights.
  destruct (transform_normalize cities crimes) as (cn & Hcn & Hlcn & _).
  { unfold cities, crimes. rewrite !length_map. reflexivity. }
  destruct (transform_normalize cities lights) as (ln & Hln & Hlln & _).
  { unfold cities, lights. rewrite !length_map. reflexivity. }
  exists cn, ln. repeat split; try assumption.
  - rewrite Hlcn. unfold crimes. apply length_map.
  - rewrite Hlln. unfold lights. apply length_map.
  - unfold calculate_danger_scores. fold P. fold cities. fold crimes. fold lights.
    rewrite Hcn. simpl. rewrite Hln. simpl. rewrite normalize_total. reflexivity.
Qed.

Lemma add_columns_cols bs : forall cns lis ds,
  length cns = length bs -> length lis = length bs -> length ds = length bs ->
  let rows := add_columns bs cns lis ds in
  length rows = length bs /\
  map city rows = map b_city bs /\
  map crime_count_Q rows = map (fun b => inject_Z (Z.of_nat (b_crime_count b))) bs /\
  map lighting_quality_score rows = map b_lighting_quality_score bs /\
  map crime_norm rows = cns /\
  map lighting_inverted_norm rows = lis /\
  map danger_score rows = ds /\
  map composite_of rows = zip_with composite cns lis.
Proof.
  induction bs as [|b bs IH]; intros cns lis ds H1 H2 H3.
  - destruct cns, lis, ds; try discriminate. simpl. repeat split.
  - destruct cns as [|cn cns], lis as [|li lis], ds as [|d ds]; try discriminate.
    injection H1 as H1. injection H2 as H2. injection H3 as H3.
    destruct (IH cns lis ds H1 H2 H3) as (E0 & E1 & E2 & E3 & E4 & E5 & E6 & E7).
    simpl. repeat split; f_equal; assumption.
Qed.

(** What [calculate_danger_scores] returns, stated on the rows themselves:
    the two per-city normalizations, and the final normalization of the
    composite, which runs over the whole frame. *)
Lemma calculate_rows data_df :
  exists rows, calculate_danger_scores data_df = Some rows /\
    forall i r, rows !! i = Some r ->
      (exists y ys,
          city_series (map city rows) (map crime_count_Q rows) (city r) = y :: ys /\
          crime_norm r = norm_with (series_min y ys) (series_max y ys) (crime_count_Q r)) /\
      (exists y ys,
          city_series (map city rows) (map lighting_quality_score rows) (city r) = y :: ys /\
          lighting_inverted_norm r =
            1 - norm_with (series_min y ys) (series_max y ys) (lighting_quality_score r)) /\
      (exists y ys,
          map composite_of rows = y :: ys /\
          danger_score r =
            1 + 9 * norm_with (series_min y ys) (series_max y ys) (composite_of r)).
Proof.
  destruct (calculate_stages data_df) as (cn & ln & Hcn & Hln & Lcn & Lln & Hcalc).
  set (P := merge (crime_counts data_df) (area_features data_df)) in *.
  set (li := map (fun v => 1 - v) ln) in *.
  set (nd := normalized (zip_with composite cn li)) in *.
  set (ds := map (fun v => 1 + 9 * v) nd) in *.
  assert (Lli : length li = length P) by (unfold li; rewrite length_map; exact Lln).
  assert (Lds : length ds = length P).
  { unfold ds, nd. rewrite length_map, normalized_length, length_zip_with. lia. }
  destruct (add_columns_cols P cn li ds Lcn Lli Lds)
    as (E0 & E1 & E2 & E3 & E4 & E5 & E6 & E7).
  set (rows := add_columns P cn li ds) in *.
  exists rows. split; [exact Hcalc|].
  intros i r Hr.
  assert (Hcity : map city rows !! i = Some (city r)) by (rewrite lookup_map, Hr; reflexivity).
  split; [|split].
  - destruct (transform_normalize (map b_city P)
                (map (fun b => inject_Z (Z.of_nat (b_crime_count b))) P))
      as (cn' & Hcn' & _ & Hpt); [rewrite !length_map; reflexivity|].
    rewrite Hcn in Hcn'. injection Hcn' as <-.
    rewrite <- E1, <- E2 in Hpt.
    destruct (Hpt i (city r) (crime_count_Q r) Hcity) as (y & ys & Hs & Hv).
    { rewrite lookup_map, Hr. reflexivity. }
    exists y, ys. split; [exact Hs|].
    rewrite <- E4, lookup_map, Hr in Hv. simpl in Hv. congruence.
  - destruct (transform_normalize (map b_city P) (map b_lighting_quality_score P))
      as (ln' & Hln' & _ & Hpt); [rewrite !length_map; reflexivity|].
    rewrite Hln in Hln'. injection Hln' as <-.
    rewrite <- E1, <- E3 in Hpt.
    destruct (Hpt i (city r) (lighting_quality_score r) Hcity) as (y & ys & Hs & Hv).
    { rewrite lookup_map, Hr. reflexivity. }
    exists y, ys. split; [exact Hs|].
    assert (Hli : li !! i = Some (lighting_inverted_norm r))
      by (rewrite <- E5, lookup_map, Hr; reflexivity).
    unfold li in Hli. rewrite lookup_map, Hv in Hli. simpl in Hli. congruence.
  - assert (Hc : map composite_of rows !! i = Some (composite_of r))
      by (rewrite lookup_map, Hr; reflexivity).
    destruct (map composite_of rows) as [|y ys] eqn:Hcomp; [discriminate|].
    exists y, ys. split; [reflexivity|].
    assert (Hd : ds !! i = Some (danger_score r))
      by (rewrite <- E6, lookup_map, Hr; reflexivity).
    unfold ds, nd in Hd. rewrite <- E7 in Hd.
    rewrite lookup_map, (normalized_lookup _ _ _ _ Hc) in Hd.
    simpl in Hd. congruence.
Qed.

Lemma series_flat x xs a :
  (forall v, In v (x :: xs) -> v == a) -> series_max x xs == series_min x xs.
Proof.
  intros H.
  destruct (series_max_in x xs) as (v1 & Hin1 & <-).
  destruct (series_min_in x xs) as (v2 & Hin2 & <-).
  rewrite (H _ Hin1), (H _ Hin2). reflexivity.
Qed.

Lemma series_range x xs v :
  In v (x :: xs) -> series_min x xs <= v /\ v <= series_max x xs.
Proof. intros H. split; [apply series_min_le | apply series_max_ge]; exact H. Qed.

Lemma In_map_lookup {A B} (f : A -> B) (l : list A) i x :
  l !! i = Some x -> In (f x) (map f l).
Proof. intros H. apply in_map. eapply lookup_In; eauto. Qed.

(** Rows of one city and the series of a column over that city. *)
Lemma city_series_rows (rows : list area_profile) (f : area_profile -> Q) c v :
  In v (city_series (map city rows) (map f rows) c) ->
  exists r, In r rows /\ city r = c /\ f r = v.
Proof.
  intros Hin. apply city_series_in in Hin as (i & Hc & Hv).
  rewrite lookup_map in Hc. rewrite lookup_map in Hv.
  destruct (rows !! i) as [r|] eqn:Hr; [|discriminate].
  simpl in Hc, Hv. injection Hc as Hc. injection Hv as Hv.
  exists r. split; [eapply lookup_In; eauto | split; assumption].
Qed.

Lemma city_series_own (rows : list area_profile) (f : area_profile -> Q) i r :
  rows !! i = Some r ->
  In (f r) (city_series (map city rows) (map f rows) (city r)).
Proof.
  intros Hr. eapply lookup_In. apply city_series_lookup.
  - rewrite !length_map. reflexivity.
  - rewrite lookup_map, Hr. reflexivity.
  - rewrite lookup_map, Hr. reflexivity.
Qed.

(** C5.  Min-max normalization stays in the unit interval and never divides
    by zero.  For any series, [normalize] returns a series of numbers (never
    the NaN outcome), of the same length, all in [0,1], and all exactly 0 when
    the maximum of the series equals its minimum.  In the frame returned by
    [calculate_danger_scores], the per-city normalized crime count
    ([crime_norm]) and the per-city normalized mean lighting quality
    ([1 - lighting_inverted_norm]) lie in [0,1], and are 0 for a city whose
    rows all have the same crime count, respectively the same mean lighting
    quality. *)
Theorem normalize_unit_interval :
  (forall series, exists r,
      normalize series = Some r /\ length r = length series /\
      (forall v, In v r -> 0 <= v <= 1) /\
      (forall x xs, series = x :: xs -> series_max x xs == series_min x xs ->
         forall v, In v r -> v = 0)) /\
  (forall data_df, exists rows,
      calculate_danger_scores data_df = Some rows /\
      forall r, In r rows ->
        0 <= crime_norm r <= 1 /\
        0 <= 1 - lighting_inverted_norm r <= 1 /\
        ((forall r', In r' rows -> city r' = city r -> crime_count r' = crime_count r) ->
           crime_norm r == 0) /\
        ((forall r', In r' rows -> city r' = city r ->
            lighting_quality_score r' == lighting_quality_score r) ->
           1 - lighting_inverted_norm r == 0)).
Proof.
  split.
  - intros series. exists (normalized series).
    split; [apply normalize_total|]. split; [apply normalized_length|].
    destruct series as [|x xs]; [split; [intros v []| intros ? ? ? ? v []]|].
    unfold normalized. split.
    + intros v Hin. apply in_map_iff in Hin as (w & <- & Hw).
      apply norm_with_range; apply series_range; exact Hw.
    + intros x' xs' [= <- <-] Hflat v Hin.
      apply in_map_iff in Hin as (w & <- & Hw).
      apply norm_with_flat. exact Hflat.
  - intros data_df.
    destruct (calculate_rows data_df) as (rows & Hcalc & Hrows).
    exists rows. split; [exact Hcalc|].
    intros r Hin. apply In_lookup in Hin as [i Hr].
    destruct (Hrows i r Hr) as ((y & ys & Hs & Hcn) & (y' & ys' & Hs' & Hli) & _).
    pose proof (city_series_own rows crime_count_Q i r Hr) as Hown.
    pose proof (city_series_own rows lighting_quality_score i r Hr) as Hown'.
    rewrite Hs in Hown. rewrite Hs' in Hown'.
    assert (Hln : 1 - lighting_inverted_norm r ==
                  norm_with (series_min y' ys') (series_max y' ys')
                    (lighting_quality_score r)) by (rewrite Hli; ring).
    split; [|split; [|split]].
    + rewrite Hcn. apply norm_with_range; apply series_range; exact Hown.
    + rewrite Hln. apply norm_with_range; apply series_range; exact Hown'.
    + intros Hsame. rewrite Hcn, norm_with_flat; [reflexivity|].
      apply (series_flat y ys (crime_count_Q r)).
      intros v Hv. rewrite <- Hs in Hv.
      apply city_series_rows in Hv as (r' & Hin' & Hc' & <-).
      unfold crime_count_Q. rewrite (Hsame r' Hin' Hc'). reflexivity.
    + intros Hsame. rewrite Hln, norm_with_flat; [reflexivity|].
      apply (series_flat y' ys' (lighting_quality_score r)).
      intros v Hv. rewrite <- Hs' in Hv.
      apply city_series_rows in Hv as (r' & Hin' & Hc' & <-).
      apply Hsame; assumption.
Qed.

(** C1 (amended).  Every danger score lies in [1,10].  The final
    normalization of the composite runs over all rows of the frame, that is
    over the areas of all cities together: when two areas of the frame have
    different composites, some area of the frame has danger score exactly 1
    and some area has danger score exactly 10; when all areas of the frame
    have the same composite (in particular when the frame has one area),
    every danger score is exactly 1. *)
Theorem danger_score_global_range data_df :
  exists rows,
    calculate_danger_scores data_df = Some rows /\
    (forall r, In r rows -> 1 <= danger_score r <= 10) /\
    ((exists r1 r2, In r1 rows /\ In r2 rows /\ ~ composite_of r1 == composite_of r2) ->
       (exists r, In r rows /\ danger_score r == 1) /\
       (exists r, In r rows /\ danger_score r == 10)) /\
    ((forall r1 r2, In r1 rows -> In r2 rows -> composite_of r1 == composite_of r2) ->
       forall r, In r rows -> danger_score r == 1).
Proof.
  destruct (calculate_rows data_df) as (rows & Hcalc & Hrows).
  exists rows. split; [exact Hcalc|].
  assert (Hrow : forall r, In r rows -> exists y ys,
             map composite_of rows = y :: ys /\ In (composite_of r) (y :: ys) /\
             danger_score r =
               1 + 9 * norm_with (series_min y ys) (series_max y ys) (composite_of r)).
  { intros r Hin. pose proof (in_map composite_of _ _ Hin) as Hm.
    apply In_lookup in Hin as [i Hr].
    destruct (Hrows i r Hr) as (_ & _ & y & ys & Hs & Hd).
    exists y, ys. rewrite Hs in Hm. auto. }
  split; [|split].
  - intros r Hin. destruct (Hrow r Hin) as (y & ys & _ & Hc & ->).
    pose proof (series_range _ _ _ Hc) as [Hlo Hhi].
    pose proof (norm_with_range _ _ _ Hlo Hhi). lra.
  - intros (r1 & r2 & Hin1 & Hin2 & Hne).
    destruct (Hrow r1 Hin1) as (y & ys & Hs & Hc1 & _).
    destruct (Hrow r2 Hin2) as (y2 & ys2 & Hs2 & Hc2 & _).
    rewrite Hs in Hs2. injection Hs2 as <- <-.
    assert (Hspread : ~ series_max y ys == series_min y ys).
    { intros E. apply Hne.
      pose proof (series_range _ _ _ Hc1). pose proof (series_range _ _ _ Hc2). lra. }
    split.
    + destruct (series_min_in y ys) as (v & Hv & Emin).
      rewrite <- Hs in Hv. apply in_map_iff in Hv as (r & <- & Hin).
      exists r. split; [exact Hin|].
      destruct (Hrow r Hin) as (y' & ys' & Hs' & _ & ->).
      rewrite Hs in Hs'. injection Hs' as <- <-.
      rewrite (norm_with_min _ _ _ Emin). ring.
    + destruct (series_max_in y ys) as (v & Hv & Emax).
      rewrite <- Hs in Hv. apply in_map_iff in Hv as (r & <- & Hin).
      exists r. split; [exact Hin|].
      destruct (Hrow r Hin) as (y' & ys' & Hs' & _ & ->).
      rewrite Hs in Hs'. injection Hs' as <- <-.
      rewrite (norm_with_max _ _ _ Emax Hspread). ring.
  - intros Hsame r Hin. destruct (Hrow r Hin) as (y & ys & Hs & Hc & ->).
    rewrite norm_with_flat; [ring|].
    apply (series_flat y ys (composite_of r)).
    intros v Hv. rewrite <- Hs in Hv. apply in_map_iff in Hv as (r' & <- & Hin').
    apply Hsame; assumption.
Qed.

Definition base_without_uptime (b : base_row) : string * string * nat * Q :=
  (b_city b, b_area_name b, b_crime_count b, b_lighting_quality_score b).

Lemma without_uptime_keys obs1 obs2 :
  map without_uptime obs1 = map without_uptime obs2 ->
  map key_of obs1 = map key_of obs2.
Proof.
  intros H.
  assert (E : forall obs, map key_of obs = map (fun t : string * string * Q => (t.1.1, t.1.2))
                                      (map without_uptime obs)).
  { intros obs. rewrite map_map. reflexivity. }
  rewrite !E, H. reflexivity.
Qed.

Lemma without_uptime_group k obs1 : forall obs2,
  map without_uptime obs1 = map without_uptime obs2 ->
  map without_uptime (group_of k obs1) = map without_uptime (group_of k obs2).
Proof.
  induction obs1 as [|o1 obs1 IH]; intros [|o2 obs2] H; try discriminate.
  - reflexivity.
  - simpl in H. apply (f_equal (fun l => (head l, tail l))) in H. simpl in H.
    assert (Ho : without_uptime o1 = without_uptime o2) by congruence.
    assert (Hrest : map without_uptime obs1 = map without_uptime obs2) by congruence.
    clear H. unfold group_of. simpl.
    assert (Hk : key_of o1 = key_of o2).
    { unfold without_uptime in Ho. unfold key_of. congruence. }
    rewrite Hk. destruct (key_eqb (key_of o2) k); simpl.
    + f_equal; [exact Ho | apply IH; exact Hrest].
    + apply IH; exact Hrest.
Qed.

Lemma without_uptime_crime_counts obs1 obs2 :
  map without_uptime obs1 = map without_uptime obs2 ->
  crime_counts obs1 = crime_counts obs2.
Proof.
  intros H. unfold crime_counts, group_keys.
  rewrite (without_uptime_keys _ _ H).
  apply map_ext. intros k. f_equal.
  rewrite <- (length_map without_uptime (group_of k obs1)),
          <- (length_map without_uptime (group_of k obs2)).
  rewrite (without_uptime_group k _ _ H). reflexivity.
Qed.

Lemma without_uptime_area_features obs1 obs2 :
  map without_uptime obs1 = map without_uptime obs2 ->
  map (fun a : group_key * (Q * Q) => (a.1, a.2.1)) (area_features obs1) =
  map (fun a : group_key * (Q * Q) => (a.1, a.2.1)) (area_features obs2).
Proof.
  intros H. unfold area_features, group_keys.
  rewrite (without_uptime_keys _ _ H). rewrite !map_map.
  apply map_ext. intros k. simpl. f_equal.
  assert (E : forall obs, map o_lighting_quality_score (group_of k obs) =
                          map snd (map without_uptime (group_of k obs))).
  { intros obs. rewrite map_map. reflexivity. }
  rewrite !E, (without_uptime_group k _ _ H). reflexivity.
Qed.

Lemma without_uptime_merge cc : forall af1 af2,
  map (fun a : group_key * (Q * Q) => (a.1, a.2.1)) af1 =
  map (fun a : group_key * (Q * Q) => (a.1, a.2.1)) af2 ->
  map base_without_uptime (merge cc af1) = map base_without_uptime (merge cc af2).
Proof.
  intros af1 af2 H. unfold merge.
  induction cc as [|c cc IH]; [reflexivity|].
  simpl. rewrite !map_app. f_equal; [|exact IH].
  clear IH. revert af2 H.
  induction af1 as [|a1 af1 IH]; intros [|a2 af2] H; try discriminate.
  { reflexivity. }
  simpl in H. injection H as Hk Hl Hrest. simpl.
  rewrite Hk.
  match goal with |- context [if ?b then _ else _] => destruct b end; simpl.
  - rewrite (IH _ Hrest). unfold base_without_uptime at 1 3. simpl.
    rewrite Hl. reflexivity.
  - apply IH; exact Hrest.
Qed.

Lemma add_columns_without_uptime bs1 : forall bs2 cns lis ds,
  map base_without_uptime bs1 = map base_without_uptime bs2 ->
  map (fun r => (city r, area_name r, danger_score r)) (add_columns bs1 cns lis ds) =
  map (fun r => (city r, area_name r, danger_score r)) (add_columns bs2 cns lis ds).
Proof.
  induction bs1 as [|b1 bs1 IH]; intros [|b2 bs2] cns lis ds H; try discriminate.
  - reflexivity.
  - simpl in H. unfold base_without_uptime in H at 1 3.
    injection H as Hc Ha _ _ Hrest.
    destruct cns as [|cn cns], lis as [|li lis], ds as [|d ds]; try reflexivity.
    simpl. rewrite Hc, Ha. f_equal. apply IH. exact Hrest.
Qed.

(** C7.  The danger scores do not depend on [uptime_ratio]: two
    observation sets that agree record by record on city, area name and
    lighting quality score give the same danger score to every
    (city, area_name). *)
Theorem danger_score_ignores_uptime obs1 obs2 :
  map without_uptime obs1 = map without_uptime obs2 ->
  (map (fun r => (city r, area_name r, danger_score r))) <$> calculate_danger_scores obs1 =
  (map (fun r => (city r, area_name r, danger_score r))) <$> calculate_danger_scores obs2.
Proof.
  intros H.
  pose proof (without_uptime_merge (crime_counts obs1) _ _
                (without_uptime_area_features _ _ H)) as HP.
  rewrite (without_uptime_crime_counts _ _ H) in HP at 2.
  unfold calculate_danger_scores.
  set (P1 := merge (crime_counts obs1) (area_features obs1)) in *.
  set (P2 := merge (crime_counts obs2) (area_features obs2)) in *.
  assert (Ecity : map b_city P1 = map b_city P2).
  { transitivity (map (fun t : string * string * nat * Q => t.1.1.1)
                    (map base_without_uptime P1)); [rewrite map_map; reflexivity|].
    rewrite HP, map_map. reflexivity. }
  assert (Ecrime : map (fun b => inject_Z (Z.of_nat (b_crime_count b))) P1 =
                   map (fun b => inject_Z (Z.of_nat (b_crime_count b))) P2).
  { transitivity (map (fun t : string * string * nat * Q => inject_Z (Z.of_nat t.1.2))
                    (map base_without_uptime P1)); [rewrite map_map; reflexivity|].
    rewrite HP, map_map. reflexivity. }
  assert (Elight : map b_lighting_quality_score P1 = map b_lighting_quality_score P2).
  { transitivity (map (fun t : string * string * nat * Q => t.2)
                    (map base_without_uptime P1)); [rewrite map_map; reflexivity|].
    rewrite HP, map_map. reflexivity. }
  rewrite Ecity, Ecrime, Elight.
  destruct (transform normalize (map b_city P2) _) as [cn|]; [|reflexivity].
  simpl. destruct (transform normalize (map b_city P2) _) as [ln|]; [|reflexivity].
  simpl. destruct (normalize _) as [nd|]; [|reflexivity].
  simpl. f_equal. apply add_columns_without_uptime. exact HP.
Qed.

(** *** The groups of [groupby] are distinct *)

Lemma ascii_compare_refl a : Ascii.compare a a = Eq.
Proof. unfold Ascii.compare. apply N.compare_refl. Qed.

Lemma ascii_compare_trans a b c :
  Ascii.compare a b = Lt -> Ascii.compare b c = Lt -> Ascii.compare a c = Lt.
Proof.
  unfold Ascii.compare. rewrite !N.compare_lt_iff. apply N.lt_trans.
Qed.

Lemma string_compare_refl s : String.compare s s = Eq.
Proof.
  induction s as [|a s IH]; simpl; [reflexivity|].
  rewrite ascii_compare_refl. exact IH.
Qed.

Lemma string_compare_trans s1 : forall s2 s3,
  String.compare s1 s2 = Lt -> String.compare s2 s3 = Lt -> String.compare s1 s3 = Lt.
Proof.
  induction s1 as [|a s1 IH]; intros [|b s2] [|c s3]; simpl; try discriminate; auto.
  destruct (Ascii.compare a b) eqn:Eab; try discriminate;
    destruct (Ascii.compare b c) eqn:Ebc; try discriminate; intros H1 H2.
  - apply Ascii.compare_eq_iff in Eab, Ebc. subst. rewrite ascii_compare_refl.
    eapply IH; eauto.
  - apply Ascii.compare_eq_iff in Eab. subst. rewrite Ebc. reflexivity.
  - apply Ascii.compare_eq_iff in Ebc. subst. rewrite Eab. reflexivity.
  - rewrite (ascii_compare_trans _ _ _ Eab Ebc). reflexivity.
Qed.

Lemma key_compare_eq k1 k2 : key_compare k1 k2 = Eq -> k1 = k2.
Proof.
  unfold key_compare. destruct k1 as [c1 a1], k2 as [c2 a2]. simpl.
  destruct (String.compare c1 c2) eqn:E; try discriminate.
  intros H. apply String.compare_eq_iff in E, H. congruence.
Qed.

Lemma key_compare_refl k : key_compare k k = Eq.
Proof. unfold key_compare. rewrite !string_compare_refl. reflexivity. Qed.

Lemma key_compare_trans k1 k2 k3 :
  key_compare k1 k2 = Lt -> key_compare k2 k3 = Lt -> key_compare k1 k3 = Lt.
Proof.
  unfold key_compare. destruct k1 as [c1 a1], k2 as [c2 a2], k3 as [c3 a3]. simpl.
  destruct (String.compare c1 c2) eqn:E12; try discriminate;
    destruct (String.compare c2 c3) eqn:E23; try discriminate; intros H1 H2.
  - apply String.compare_eq_iff in E12, E23. subst. rewrite string_compare_refl.
    eapply string_compare_trans; eauto.
  - apply String.compare_eq_iff in E12. subst. rewrite E23. reflexivity.
  - apply String.compare_eq_iff in E23. subst. rewrite E12. reflexivity.
  - rewrite (string_compare_trans _ _ _ E12 E23). reflexivity.
Qed.

Lemma key_compare_gt k1 k2 : key_compare k1 k2 = Gt -> key_compare k2 k1 = Lt.
Proof.
  unfold key_compare. destruct k1 as [c1 a1], k2 as [c2 a2]. simpl.
  rewrite (String.compare_antisym c2 c1), (String.compare_antisym a2 a1).
  destruct (String.compare c1 c2); simpl; try discriminate; [|reflexivity].
  destruct (String.compare a1 a2); simpl; try discriminate. reflexivity.
Qed.

Definition keys_sorted (l : list group_key) : Prop :=
  StronglySorted (fun a b => key_compare a b = Lt) l.

Lemma insert_key_elem k l x : x ∈ insert_key k l <-> x = k \/ x ∈ l.
Proof.
  induction l as [|k' l IH]; simpl.
  - rewrite list_elem_of_singleton, elem_of_nil. tauto.
  - destruct (key_compare k k') eqn:E.
    + apply key_compare_eq in E. subst k'. rewrite elem_of_cons. tauto.
    + rewrite !elem_of_cons. tauto.
    + rewrite !elem_of_cons, IH. tauto.
Qed.

Lemma insert_key_sorted k l : keys_sorted l -> keys_sorted (insert_key k l).
Proof.
  unfold keys_sorted. induction l as [|k' l IH]; intros Hs; simpl.
  - constructor; constructor.
  - apply StronglySorted_inv in Hs as [Hl Hk'].
    destruct (key_compare k k') eqn:E.
    + constructor; assumption.
    + constructor; [constructor; assumption|].
      constructor; [exact E|].
      rewrite List.Forall_forall in *. intros x Hx.
      eapply key_compare_trans; [exact E | apply Hk'; exact Hx].
    + constructor; [apply IH; exact Hl|].
      rewrite List.Forall_forall in *. intros x Hx.
      apply list_elem_of_In, insert_key_elem in Hx as [->|Hx].
      * apply key_compare_gt. exact E.
      * apply Hk'. apply list_elem_of_In. exact Hx.
Qed.

Lemma keys_sorted_NoDup l : keys_sorted l -> NoDup l.
Proof.
  unfold keys_sorted. induction l as [|k l IH]; intros Hs; [constructor|].
  apply StronglySorted_inv in Hs as [Hl Hk]. constructor; [|apply IH; exact Hl].
  intros Hin. rewrite List.Forall_forall in Hk.
  apply list_elem_of_In, Hk in Hin. rewrite key_compare_refl in Hin. discriminate.
Qed.

Lemma group_keys_NoDup obs : NoDup (group_keys obs).
Proof.
  apply keys_sorted_NoDup. unfold group_keys.
  induction (map key_of obs) as [|k l IH]; simpl; [constructor|].
  apply insert_key_sorted. exact IH.
Qed.

Lemma key_eqb_eq k1 k2 : key_eqb k1 k2 = true <-> k1 = k2.
Proof.
  unfold key_eqb. destruct k1, k2. simpl.
  rewrite andb_true_iff, !String.eqb_eq. split; [intros [-> ->]; reflexivity|].
  intros [= -> ->]. split; reflexivity.
Qed.

Lemma filter_key_unique (l : list group_key) k :
  NoDup l -> k ∈ l -> List.filter (fun k' => key_eqb k' k) l = [k].
Proof.
  induction l as [|x l IH]; intros Hnd Hin; [inversion Hin|].
  apply NoDup_cons in Hnd as [Hx Hnd]. simpl.
  destruct (key_eqb x k) eqn:E.
  - apply key_eqb_eq in E. subst x. f_equal.
    clear IH Hin. induction l as [|y l IH]; [reflexivity|]. simpl.
    apply not_elem_of_cons in Hx as [Hne Hx].
    destruct (key_eqb y k) eqn:E; [apply key_eqb_eq in E; congruence|].
    apply IH; [exact Hx|]. apply NoDup_cons in Hnd as [_ Hnd]. exact Hnd.
  - apply elem_of_cons in Hin as [->|Hin].
    + rewrite (proj2 (key_eqb_eq x x) eq_refl) in E. discriminate.
    + apply IH; assumption.
Qed.

Definition base_key (b : base_row) : group_key := (b_city b, b_area_name b).

(** The merged frame has one row per group. *)
Lemma merge_keys obs :
  map base_key (merge (crime_counts obs) (area_features obs)) = group_keys obs.
Proof.
  unfold merge, crime_counts, area_features.
  pose proof (group_keys_NoDup obs) as Hnd.
  set (L := group_keys obs) in *.
  assert (H : forall l, (forall k, k ∈ l -> k ∈ L) ->
    map base_key
      (flat_map (fun c : group_key * nat =>
         map (fun a : group_key * (Q * Q) =>
                {| b_city := c.1.1; b_area_name := c.1.2; b_crime_count := c.2;
                   b_lighting_quality_score := a.2.1; b_uptime_ratio := a.2.2 |})
             (List.filter (fun a => key_eqb a.1 c.1)
                (map (fun k => (k, (mean (map o_lighting_quality_score (group_of k obs)),
                                    mean (map o_uptime_ratio (group_of k obs))))) L)))
         (map (fun k => (k, length (group_of k obs))) l)) = l).
  { induction l as [|k l IH]; intros Hsub; [reflexivity|].
    cbn [map flat_map]. rewrite map_app, IH by (intros x Hx; apply Hsub; right; exact Hx).
    cbn [fst snd].
    assert (E : forall (g : group_key -> Q * Q) (M : list group_key),
               List.filter (fun a : group_key * (Q * Q) => key_eqb a.1 k)
                 (map (fun k' => (k', g k')) M)
               = map (fun k' => (k', g k')) (List.filter (fun k' => key_eqb k' k) M)).
    { intros g M. induction M as [|m M IHM]; [reflexivity|]. simpl.
      destruct (key_eqb m k); simpl; rewrite IHM; reflexivity. }
    rewrite E, (filter_key_unique L k Hnd) by (apply Hsub; left).
    destruct k as [c a]. reflexivity. }
  apply H. auto.
Qed.

Lemma add_columns_keys bs : forall cns lis ds,
  length cns = length bs -> length lis = length bs -> length ds = length bs ->
  map (fun r => (city r, area_name r)) (add_columns bs cns lis ds) = map base_key bs.
Proof.
  induction bs as [|b bs IH]; intros cns lis ds H1 H2 H3.
  - destruct cns, lis, ds; try discriminate. reflexivity.
  - destruct cns as [|cn cns], lis as [|li lis], ds as [|d ds]; try discriminate.
    injection H1 as H1. injection H2 as H2. injection H3 as H3.
    simpl. f_equal. apply IH; assumption.
Qed.

(** [calculate_danger_scores] returns one row per (city, area_name), in the
    order of the keys. *)
Lemma calculate_keys data_df rows :
  calculate_danger_scores data_df = Some rows ->
  map (fun r => (city r, area_name r)) rows = group_keys data_df.
Proof.
  intros H. destruct (calculate_stages data_df) as (cn & ln & _ & _ & Lcn & Lln & E).
  rewrite E in H. injection H as <-.
  rewrite add_columns_keys.
  - apply merge_keys.
  - exact Lcn.
  - rewrite length_map. exact Lln.
  - rewrite length_map, normalized_length, length_zip_with, length_map. lia.
Qed.

End ScoresFacts.

(** ** Facts about the Graph Builder *)

Module GraphsFacts.
Import Scores Graphs.

Definition others (m : string) (ns : list string) : list string :=
  List.filter (fun x => negb (String.eqb x m)) ns.

Lemma others_notin m ns : m ∉ ns -> others m ns = ns.
Proof.
  induction ns as [|x ns IH]; intros H; [reflexivity|].
  unfold others. simpl. apply not_elem_of_cons in H as [Hne Hnot].
  destruct (String.eqb_spec x m) as [->|_]; [contradiction|].
  simpl. f_equal. apply IH. exact Hnot.
Qed.

Lemma others_app m l1 l2 : others m (l1 ++ l2) = others m l1 ++ others m l2.
Proof. unfold others. rewrite List.filter_app. reflexivity. Qed.

Lemma others_cons_same m ns : others m (m :: ns) = others m ns.
Proof. unfold others. simpl. rewrite String.eqb_refl. reflexivity. Qed.

Lemma elem_of_others x m ns : x ∈ others m ns <-> x ∈ ns /\ x <> m.
Proof.
  unfold others. rewrite !list_elem_of_In, filter_In.
  destruct (String.eqb_spec x m); simpl; intuition congruence.
Qed.

Lemma NoDup_others m ns : NoDup ns -> NoDup (others m ns).
Proof.
  intros H. apply NoDup_ListNoDup. apply List.NoDup_filter.
  apply NoDup_ListNoDup. exact H.
Qed.

Lemma add_node_new n G :
  n ∉ g_nodes G ->
  add_node n G = {| g_nodes := g_nodes G ++ [n]; g_adj := <[n := []]> (g_adj G) |}.
Proof. intros H. unfold add_node. rewrite bool_decide_eq_false_2 by exact H. reflexivity. Qed.

Lemma add_node_old n G : n ∈ g_nodes G -> add_node n G = G.
Proof. intros H. unfold add_node. rewrite bool_decide_eq_true_2 by exact H. reflexivity. Qed.

(** Nodes are added with an empty neighbourhood. *)
Lemma add_nodes_from_spec ns : forall G,
  NoDup (g_nodes G ++ ns) ->
  g_nodes (add_nodes_from ns G) = g_nodes G ++ ns /\
  forall m, g_adj (add_nodes_from ns G) !! m =
            if bool_decide (m ∈ ns) then Some [] else g_adj G !! m.
Proof.
  induction ns as [|n ns IH]; intros G Hnd.
  - unfold add_nodes_from. cbn [foldl]. rewrite app_nil_r. split; [reflexivity|].
    intros m. rewrite bool_decide_eq_false_2; [reflexivity | apply not_elem_of_nil].
  - assert (Hn : n ∉ g_nodes G).
    { apply NoDup_app in Hnd as (_ & Hdisj & _). intros Hin.
      apply (Hdisj n Hin). left. }
    change (add_nodes_from (n :: ns) G) with (add_nodes_from ns (add_node n G)).
    rewrite (add_node_new n G Hn).
    destruct (IH {| g_nodes := g_nodes G ++ [n]; g_adj := <[n:=[]]> (g_adj G) |})
      as [E1 E2].
    { simpl. rewrite <- app_assoc. exact Hnd. }
    simpl in E1, E2. split; [rewrite E1, <- app_assoc; reflexivity|].
    intros m. rewrite E2.
    apply NoDup_app in Hnd as (_ & _ & Hns). apply NoDup_cons in Hns as [Hnns _].
    destruct (decide (m = n)) as [->|Hne].
    + rewrite bool_decide_eq_false_2 by exact Hnns.
      rewrite bool_decide_eq_true_2 by left. apply lookup_insert_eq.
    + rewrite lookup_insert_ne by congruence.
      destruct (decide (m ∈ ns)) as [Hin|Hnin].
      * rewrite !bool_decide_eq_true_2; [reflexivity | right; exact Hin | exact Hin].
      * rewrite !bool_decide_eq_false_2; [reflexivity | | exact Hnin].
        intros Hc. apply elem_of_cons in Hc as [?|?]; contradiction.
Qed.

(** Adjacency while the inner loop runs for node [n]: the nodes of [pre]
    are finished, [n] is linked to [pre] and to the part [done] of the later
    nodes, the nodes of [todo] are linked to [pre] only. *)
Definition inner_adj (pre : list string) (n : string) (done todo : list string)
    (m : string) : option (list string) :=
  if bool_decide (m ∈ pre) then Some (others m (pre ++ n :: done ++ todo))
  else if bool_decide (m = n) then Some (pre ++ done)
  else if bool_decide (m ∈ done) then Some (pre ++ [n])
  else if bool_decide (m ∈ todo) then Some pre
  else None.

(** Adjacency between two rounds of the outer loop. *)
Definition partial_adj (pre post : list string) (m : string) : option (list string) :=
  if bool_decide (m ∈ pre) then Some (others m (pre ++ post))
  else if bool_decide (m ∈ post) then Some pre
  else None.

Lemma add_neighbor_new u v G l :
  g_adj G !! u = Some l -> v ∉ l ->
  add_neighbor u v G = {| g_nodes := g_nodes G; g_adj := <[u := l ++ [v]]> (g_adj G) |}.
Proof.
  intros Hl Hv. unfold add_neighbor. rewrite Hl.
  rewrite bool_decide_eq_false_2 by exact Hv. reflexivity.
Qed.

Lemma NoDup_split5 (pre : list string) n done r todo :
  NoDup (pre ++ n :: done ++ r :: todo) ->
  (n ∉ pre) /\ (n ∉ done) /\ n <> r /\ (n ∉ todo) /\ (r ∉ pre) /\ (r ∉ done) /\ (r ∉ todo).
Proof.
  intros H. apply NoDup_app in H as (_ & Hd & H).
  apply NoDup_cons in H as (Hn & H).
  apply NoDup_app in H as (_ & Hd' & H).
  apply NoDup_cons in H as (Hr & _).
  rewrite elem_of_app, elem_of_cons in Hn.
  assert (Hpre : forall x, x ∈ pre -> x <> n /\ (x ∉ done) /\ x <> r /\ (x ∉ todo)).
  { intros x Hx. specialize (Hd x Hx).
    rewrite elem_of_cons, elem_of_app, elem_of_cons in Hd. tauto. }
  assert (Hdone : forall x, x ∈ done -> x <> r /\ (x ∉ todo)).
  { intros x Hx. specialize (Hd' x Hx). rewrite elem_of_cons in Hd'. tauto. }
  repeat split; try tauto.
  - intros Hin. apply Hpre in Hin. tauto.
  - intros Hin. apply Hpre in Hin. tauto.
  - intros Hin. apply Hdone in Hin. tauto.
Qed.

Lemma inner_step pre n done r todo G :
  NoDup (pre ++ n :: done ++ r :: todo) ->
  g_nodes G = pre ++ n :: done ++ r :: todo ->
  (forall m, g_adj G !! m = inner_adj pre n done (r :: todo) m) ->
  g_nodes (add_edge n r G) = pre ++ n :: (done ++ [r]) ++ todo /\
  (forall m, g_adj (add_edge n r G) !! m = inner_adj pre n (done ++ [r]) todo m).
Proof.
  intros Hnd Hnodes Hadj.
  destruct (NoDup_split5 _ _ _ _ _ Hnd) as (Hn1 & Hn2 & Hnr & Hn3 & Hr1 & Hr2 & Hr3).
  unfold add_edge.
  rewrite (add_node_old n G) by (rewrite Hnodes; set_solver).
  rewrite (add_node_old r G) by (rewrite Hnodes; set_solver).
  assert (Hadjn : g_adj G !! n = Some (pre ++ done)).
  { rewrite Hadj. unfold inner_adj.
    rewrite bool_decide_eq_false_2 by exact Hn1.
    rewrite bool_decide_eq_true_2 by reflexivity. reflexivity. }
  rewrite (add_neighbor_new n r G _ Hadjn) by set_solver.
  assert (Hadjr : g_adj G !! r = Some pre).
  { rewrite Hadj. unfold inner_adj.
    rewrite bool_decide_eq_false_2 by exact Hr1.
    rewrite bool_decide_eq_false_2 by congruence.
    rewrite bool_decide_eq_false_2 by exact Hr2.
    rewrite bool_decide_eq_true_2 by left. reflexivity. }
  erewrite add_neighbor_new; [| simpl; rewrite lookup_insert_ne by exact Hnr; exact Hadjr
                              | exact Hn1].
  simpl. split; [rewrite Hnodes, <- app_assoc; reflexivity|].
  intros m. unfold inner_adj.
  destruct (decide (m = r)) as [->|Hmr].
  - rewrite lookup_insert_eq.
    rewrite bool_decide_eq_false_2 by exact Hr1.
    rewrite bool_decide_eq_false_2 by congruence.
    rewrite bool_decide_eq_true_2 by set_solver. reflexivity.
  - rewrite lookup_insert_ne by congruence.
    destruct (decide (m = n)) as [->|Hmn].
    + rewrite lookup_insert_eq.
      rewrite bool_decide_eq_false_2 by exact Hn1.
      rewrite bool_decide_eq_true_2 by reflexivity.
      rewrite <- app_assoc. reflexivity.
    + rewrite lookup_insert_ne by congruence.
      rewrite Hadj. unfold inner_adj.
      rewrite <- (app_assoc done [r] todo). simpl.
      destruct (bool_decide (m ∈ pre)); [reflexivity|].
      rewrite (bool_decide_eq_false_2 (m = n)) by exact Hmn.
      destruct (decide (m ∈ done)) as [Hd|Hd].
      * rewrite !bool_decide_eq_true_2; [reflexivity| set_solver | exact Hd].
      * rewrite (bool_decide_eq_false_2 (m ∈ done)) by exact Hd.
        rewrite (bool_decide_eq_false_2 (m ∈ done ++ [r])) by set_solver.
        destruct (decide (m ∈ todo)) as [Ht|Ht].
        -- rewrite !bool_decide_eq_true_2; [reflexivity| exact Ht | set_solver].
        -- rewrite !bool_decide_eq_false_2; [reflexivity| exact Ht | set_solver].
Qed.

Lemma inner_loop pre n todo : forall done G,
  NoDup (pre ++ n :: done ++ todo) ->
  g_nodes G = pre ++ n :: done ++ todo ->
  (forall m, g_adj G !! m = inner_adj pre n done todo m) ->
  let G' := foldl (fun G m => add_edge n m G) G todo in
  g_nodes G' = pre ++ n :: done ++ todo /\
  (forall m, g_adj G' !! m = inner_adj pre n (done ++ todo) [] m).
Proof.
  induction todo as [|r todo IH]; intros done G Hnd Hnodes Hadj.
  - simpl. rewrite app_nil_r in *. split; [exact Hnodes | exact Hadj].
  - simpl.
    destruct (inner_step _ _ _ _ _ _ Hnd Hnodes Hadj) as [E1 E2].
    destruct (IH (done ++ [r]) (add_edge n r G)) as [F1 F2].
    + rewrite <- app_assoc. exact Hnd.
    + exact E1.
    + exact E2.
    + rewrite <- !app_assoc in F1, F2. simpl in F1, F2. split; assumption.
Qed.

Lemma outer_loop post : forall pre G,
  NoDup (pre ++ post) ->
  g_nodes G = pre ++ post ->
  (forall m, g_adj G !! m = partial_adj pre post m) ->
  g_nodes (add_all_edges post G) = pre ++ post /\
  (forall m, g_adj (add_all_edges post G) !! m = partial_adj (pre ++ post) [] m).
Proof.
  induction post as [|n rest IH]; intros pre G Hnd Hnodes Hadj.
  - simpl. rewrite app_nil_r in *. split; [exact Hnodes | exact Hadj].
  - simpl.
    assert (Hn : (n ∉ pre) /\ (n ∉ rest)).
    { apply NoDup_app in Hnd as (_ & Hd & H). apply NoDup_cons in H as (Hn & _).
      split; [|exact Hn]. intros Hin. apply (Hd n Hin). left. }
    destruct Hn as [Hn1 Hn2].
    destruct (inner_loop pre n rest [] G) as [E1 E2].
    + exact Hnd.
    + exact Hnodes.
    + intros m. rewrite Hadj. unfold partial_adj, inner_adj. simpl.
      destruct (bool_decide (m ∈ pre)); [reflexivity|].
      destruct (decide (m = n)) as [->|Hmn].
      * rewrite bool_decide_eq_true_2 by left.
        rewrite bool_decide_eq_true_2 by reflexivity. rewrite app_nil_r. reflexivity.
      * rewrite (bool_decide_eq_false_2 (m = n)) by exact Hmn.
        destruct (decide (m ∈ rest)) as [Hr|Hr].
        -- rewrite !bool_decide_eq_true_2; [reflexivity | exact Hr | right; exact Hr].
        -- rewrite !bool_decide_eq_false_2; [reflexivity | exact Hr | set_solver].
    + simpl in E1, E2.
      destruct (IH (pre ++ [n]) (foldl (fun G m => add_edge n m G) G rest)) as [F1 F2].
      * rewrite <- app_assoc. exact Hnd.
      * rewrite E1, <- app_assoc. reflexivity.
      * intros m. rewrite E2. unfold inner_adj, partial_adj.
        rewrite <- app_assoc. simpl. rewrite (app_nil_r rest).
        destruct (decide (m ∈ pre)) as [Hp|Hp].
        -- rewrite !bool_decide_eq_true_2; [reflexivity | set_solver | exact Hp].
        -- rewrite (bool_decide_eq_false_2 (m ∈ pre)) by exact Hp.
           destruct (decide (m = n)) as [->|Hmn].
           ++ rewrite bool_decide_eq_true_2 by reflexivity.
              rewrite bool_decide_eq_true_2 by set_solver.
              rewrite others_app, others_cons_same, !others_notin by assumption.
              reflexivity.
           ++ rewrite (bool_decide_eq_false_2 (m = n)) by exact Hmn.
              rewrite (bool_decide_eq_false_2 (m ∈ pre ++ [n])) by set_solver.
              destruct (bool_decide (m ∈ rest)); [reflexivity|].
              try rewrite bool_decide_eq_false_2 by apply not_elem_of_nil. reflexivity.
      * rewrite <- !app_assoc in F1, F2. simpl in F1, F2. split; assumption.
Qed.

Lemma complete_on_spec ns :
  NoDup ns ->
  g_nodes (complete_on ns) = ns /\
  forall m, g_adj (complete_on ns) !! m =
            if bool_decide (m ∈ ns) then Some (others m ns) else None.
Proof.
  intros Hnd. unfold complete_on.
  destruct (add_nodes_from_spec ns empty_graph) as [E1 E2]; [exact Hnd|].
  simpl in E1, E2.
  destruct (outer_loop ns [] (add_nodes_from ns empty_graph)) as [F1 F2].
  - exact Hnd.
  - exact E1.
  - intros m. rewrite E2. unfold partial_adj. simpl.
    destruct (bool_decide (m ∈ ns)); reflexivity.
  - simpl in F1, F2. split; [exact F1|].
    intros m. rewrite F2. unfold partial_adj. rewrite app_nil_r.
    destruct (bool_decide (m ∈ ns)); reflexivity.
Qed.

(** Every node paired with every later node. *)
Fixpoint pairs (l : list string) : list (string * string) :=
  match l with
  | [] => []
  | n :: r => map (pair n) r ++ pairs r
  end.

Lemma filter_unseen (seen pre rest : list string) :
  (forall x, x ∈ pre -> x ∈ seen) -> (forall x, x ∈ rest -> x ∉ seen) ->
  List.filter (fun nbr => negb (bool_decide (nbr ∈ seen))) (pre ++ rest) = rest.
Proof.
  intros Hpre Hrest. rewrite List.filter_app.
  assert (E1 : List.filter (fun nbr => negb (bool_decide (nbr ∈ seen))) pre = []).
  { clear Hrest. induction pre as [|x pre IH]; [reflexivity|]. simpl.
    rewrite bool_decide_eq_true_2 by (apply Hpre; left). simpl.
    apply IH. intros y Hy. apply Hpre. right. exact Hy. }
  assert (E2 : List.filter (fun nbr => negb (bool_decide (nbr ∈ seen))) rest = rest).
  { clear Hpre E1. induction rest as [|x rest IH]; [reflexivity|]. simpl.
    rewrite bool_decide_eq_false_2 by (apply Hrest; left). simpl.
    f_equal. apply IH. intros y Hy. apply Hrest. right. exact Hy. }
  rewrite E1, E2. reflexivity.
Qed.

Lemma edges_from_pairs G rest : forall pre seen,
  NoDup (pre ++ rest) ->
  (forall m, g_adj G !! m =
             if bool_decide (m ∈ pre ++ rest) then Some (others m (pre ++ rest)) else None) ->
  (forall x, x ∈ seen <-> x ∈ pre) ->
  edges_from G seen rest = pairs rest.
Proof.
  induction rest as [|n rest IH]; intros pre seen Hnd Hadj Hseen; [reflexivity|].
  simpl.
  assert (Hn : (n ∉ pre) /\ (n ∉ rest)).
  { pose proof Hnd as H. apply NoDup_app in H as (_ & Hd & H).
    apply NoDup_cons in H as (Hn & _).
    split; [|exact Hn]. intros Hin. apply (Hd n Hin). left. }
  destruct Hn as [Hn1 Hn2].
  rewrite Hadj, bool_decide_eq_true_2 by set_solver. simpl.
  rewrite others_app, others_cons_same, !others_notin by assumption.
  rewrite filter_unseen.
  - f_equal. apply (IH (pre ++ [n])).
    + rewrite <- app_assoc. exact Hnd.
    + intros m. rewrite <- app_assoc. apply Hadj.
    + intros x. rewrite elem_of_cons, elem_of_app, list_elem_of_singleton, Hseen. tauto.
  - intros x Hx. apply Hseen. exact Hx.
  - intros x Hx Hs. apply Hseen in Hs.
    apply NoDup_app in Hnd as (_ & Hd & _). apply (Hd x Hs). right. exact Hx.
Qed.

Lemma complete_on_edges ns : NoDup ns -> edges (complete_on ns) = pairs ns.
Proof.
  intros Hnd. destruct (complete_on_spec ns Hnd) as [E1 E2].
  unfold edges. rewrite E1. apply (edges_from_pairs _ ns [] []).
  - exact Hnd.
  - exact E2.
  - intros x. reflexivity.
Qed.

Lemma pairs_length l : (2 * length (pairs l) = length l * (length l - 1))%nat.
Proof.
  induction l as [|n r IH]; [reflexivity|].
  simpl pairs. rewrite length_app, length_map. simpl length.
  replace (S (length r) - 1)%nat with (length r) by lia.
  destruct (length r) as [|k] eqn:E; [lia|].
  replace (S k - 1)%nat with k in IH by lia. nia.
Qed.

Lemma elem_of_pairs l u v :
  (u, v) ∈ pairs l <-> exists l1 l2, l = l1 ++ u :: l2 /\ v ∈ l2.
Proof.
  induction l as [|n r IH]; simpl.
  - split; [intros H; inversion H|]. intros (l1 & l2 & H & _). destruct l1; discriminate.
  - rewrite elem_of_app, list_elem_of_fmap, IH. split.
    + intros [(y & [= -> ->] & Hy) | (l1 & l2 & -> & Hv)].
      * exists [], r. split; [reflexivity | exact Hy].
      * exists (n :: l1), l2. split; [reflexivity | exact Hv].
    + intros (l1 & l2 & H & Hv). destruct l1 as [|x l1]; simpl in H.
      * injection H as -> ->. left. exists v. split; [reflexivity | exact Hv].
      * injection H as -> ->. right. exists l1, l2. split; [reflexivity | exact Hv].
Qed.

Lemma NoDup_pairs l : NoDup l -> NoDup (pairs l).
Proof.
  induction l as [|n r IH]; intros Hnd; [constructor|].
  apply NoDup_cons in Hnd as [Hn Hr]. simpl. apply NoDup_app. split; [|split].
  - apply NoDup_fmap_2; [|exact Hr]. intros x y [= ->]. reflexivity.
  - intros [u v] H1 H2. apply list_elem_of_fmap in H1 as (y & [= -> ->] & Hy).
    apply elem_of_pairs in H2 as (l1 & l2 & -> & _). apply Hn. set_solver.
  - apply IH. exact Hr.
Qed.

Lemma pairs_elems l u v : (u, v) ∈ pairs l -> u ∈ l /\ v ∈ l.
Proof.
  intros H. apply elem_of_pairs in H as (l1 & l2 & -> & Hv).
  split; [set_solver|]. rewrite elem_of_app, elem_of_cons. tauto.
Qed.

Lemma pairs_asym l : forall u v,
  NoDup l -> (u, v) ∈ pairs l -> (v, u) ∈ pairs l -> False.
Proof.
  induction l as [|n r IH]; intros u v Hnd H1 H2; [inversion H1|].
  apply NoDup_cons in Hnd as [Hn Hr]. simpl in H1, H2.
  apply elem_of_app in H1 as [H1|H1]; apply elem_of_app in H2 as [H2|H2].
  - apply list_elem_of_fmap in H1 as (y & [= -> ->] & Hy).
    apply list_elem_of_fmap in H2 as (z & [= -> ->] & Hz). contradiction.
  - apply list_elem_of_fmap in H1 as (y & [= -> ->] & Hy).
    apply pairs_elems in H2 as [_ Hin]. contradiction.
  - apply list_elem_of_fmap in H2 as (y & [= -> ->] & Hy).
    apply pairs_elems in H1 as [_ Hin]. contradiction.
  - exact (IH u v Hr H1 H2).
Qed.

Lemma pairs_order l u v :
  NoDup l -> (u, v) ∈ pairs l -> u <> v /\ (v, u) ∉ pairs l.
Proof.
  intros Hnd H. split.
  - intros ->. exact (pairs_asym l v v Hnd H H).
  - intros H'. exact (pairs_asym l u v Hnd H H').
Qed.

Lemma pairs_total l u v :
  u ∈ l -> v ∈ l -> u <> v -> (u, v) ∈ pairs l \/ (v, u) ∈ pairs l.
Proof.
  intros Hu Hv Hne. apply list_elem_of_split in Hu as (l1 & l2 & ->).
  apply elem_of_app in Hv as [Hv|Hv].
  - right. apply list_elem_of_split in Hv as (k1 & k2 & ->).
    apply elem_of_pairs. exists k1, (k2 ++ u :: l2).
    split; [rewrite <- app_assoc; reflexivity | set_solver].
  - apply elem_of_cons in Hv as [->|Hv]; [contradiction|].
    left. apply elem_of_pairs. exists l1, l2. split; [reflexivity | exact Hv].
Qed.

Lemma elem_of_unique x l : x ∈ unique l <-> x ∈ l.
Proof.
  induction l as [|y l IH]; simpl; [reflexivity|].
  rewrite !elem_of_cons, list_elem_of_In, filter_In, <- list_elem_of_In, IH.
  destruct (String.eqb_spec x y); simpl; intuition congruence.
Qed.

(** The tables after the loop over the cities [cs]. *)
Lemma build_city_fold processed_data cs : forall t c,
  let t' := foldl (build_city processed_data) t cs in
  city_graphs t' !! c =
    (if bool_decide (c ∈ cs) then Some (complete_on (area_names c processed_data))
     else city_graphs t !! c) /\
  city_coords t' !! c =
    (if bool_decide (c ∈ cs) then Some (to_dict coords (city_rows c processed_data))
     else city_coords t !! c) /\
  city_danger_scores t' !! c =
    (if bool_decide (c ∈ cs)
     then Some (to_dict (fun r => danger_score (profile r)) (city_rows c processed_data))
     else city_danger_scores t !! c).
Proof.
  induction cs as [|c0 cs IH]; intros t c.
  - simpl. repeat split.
  - cbn [foldl]. destruct (IH (build_city processed_data t c0) c) as (E1 & E2 & E3).
    cbv zeta in *. rewrite E1, E2, E3. clear E1 E2 E3.
    destruct (decide (c ∈ cs)) as [Hin|Hnin].
    + rewrite !(bool_decide_eq_true_2 (c ∈ cs)) by exact Hin.
      rewrite !(bool_decide_eq_true_2 (c ∈ c0 :: cs)) by (right; exact Hin).
      repeat split.
    + rewrite !(bool_decide_eq_false_2 (c ∈ cs)) by exact Hnin.
      unfold build_city. simpl.
      destruct (decide (c = c0)) as [->|Hne].
      * rewrite !bool_decide_eq_true_2 by left.
        rewrite !lookup_insert_eq. repeat split.
      * rewrite !bool_decide_eq_false_2 by set_solver.
        rewrite !lookup_insert_ne by congruence. repeat split.
Qed.

Lemma elem_of_cities c processed_data :
  c ∈ map (fun r => city (profile r)) processed_data <->
  city_rows c processed_data <> [].
Proof.
  unfold city_rows. induction processed_data as [|r rows IH]; simpl.
  - split; [intros H; inversion H | congruence].
  - rewrite elem_of_cons, IH.
    destruct (String.eqb_spec (city (profile r)) c) as [E|E].
    + split; [discriminate | intros _; left; congruence].
    + split; [intros [?|?]; [congruence | assumption] | intros H; right; exact H].
Qed.

Lemma build_city_graphs_lookup processed_data c :
  let t := build_city_graphs processed_data in
  (city_rows c processed_data <> [] ->
   city_graphs t !! c = Some (complete_on (area_names c processed_data)) /\
   city_coords t !! c = Some (to_dict coords (city_rows c processed_data)) /\
   city_danger_scores t !! c =
     Some (to_dict (fun r => danger_score (profile r)) (city_rows c processed_data))) /\
  (city_rows c processed_data = [] ->
   city_graphs t !! c = None /\ city_coords t !! c = None /\
   city_danger_scores t !! c = None).
Proof.
  intros t. unfold t, build_city_graphs.
  destruct (build_city_fold processed_data
              (unique (map (fun r => city (profile r)) processed_data))
              {| city_graphs := ∅; city_coords := ∅; city_danger_scores := ∅ |} c)
    as (E1 & E2 & E3).
  cbv zeta in *. rewrite E1, E2, E3. clear E1 E2 E3.
  cbn [city_graphs city_coords city_danger_scores]. rewrite !lookup_empty.
  pose proof (elem_of_cities c processed_data) as Hc.
  rewrite <- elem_of_unique in Hc.
  case_bool_decide as Hin; split; intros H.
  - repeat split.
  - apply Hc in Hin. contradiction.
  - exfalso. apply Hin, Hc, H.
  - repeat split.
Qed.

(** C6.  For a city with N >= 1 geocoded areas (areas of one city have
    distinct names), [build_city_graphs] stores a graph whose nodes are
    exactly those areas, with N(N-1)/2 edges, no self-loop, no edge listed
    twice in either direction, and an edge between every two distinct
    nodes. *)
Theorem build_city_graphs_complete processed_data c :
  let areas := area_names c processed_data in
  let N := length areas in
  NoDup areas -> (1 <= N)%nat ->
  exists G, city_graphs (build_city_graphs processed_data) !! c = Some G /\
    nodes G = areas /\
    number_of_edges G = (N * (N - 1) / 2)%nat /\
    (forall u v, (u, v) ∈ edges G -> u <> v) /\
    NoDup (edges G) /\
    (forall u v, (u, v) ∈ edges G -> (v, u) ∉ edges G) /\
    (forall u, u ∈ nodes G -> exists l, neighbors G u = Some l /\ NoDup l /\
        (u ∉ l) /\ forall v, v ∈ l <-> v ∈ nodes G /\ v <> u) /\
    (forall u v, u ∈ nodes G -> v ∈ nodes G -> u <> v ->
        (u, v) ∈ edges G \/ (v, u) ∈ edges G).
Proof.
  intros areas N Hnd HN.
  assert (Hrows : city_rows c processed_data <> []).
  { intros E. unfold N, areas, area_names in HN. rewrite E in HN. simpl in HN. lia. }
  destruct (build_city_graphs_lookup processed_data c) as [Hsome _].
  destruct (Hsome Hrows) as (HG & _ & _). fold areas in HG.
  exists (complete_on areas). split; [exact HG|].
  destruct (complete_on_spec areas Hnd) as [E1 E2].
  pose proof (complete_on_edges areas Hnd) as E3.
  unfold nodes, number_of_edges, neighbors. rewrite E1, E3.
  split; [reflexivity|]. split; [|split; [|split; [|split; [|split]]]].
  - pose proof (pairs_length areas) as H. fold N in H.
    apply Nat.div_unique_exact; lia.
  - intros u v H. apply (pairs_order areas u v Hnd H).
  - apply NoDup_pairs. exact Hnd.
  - intros u v H. apply (pairs_order areas u v Hnd H).
  - intros u Hu. exists (others u areas).
    rewrite E2, bool_decide_eq_true_2 by exact Hu.
    split; [reflexivity|]. split; [apply NoDup_others; exact Hnd|].
    split; [rewrite elem_of_others; tauto|].
    intros v. apply elem_of_others.
  - intros u v Hu Hv Hne. apply pairs_total; assumption.
Qed.

Lemma add_nodes_from_elem ns : forall G m,
  m ∈ g_nodes (add_nodes_from ns G) <-> m ∈ g_nodes G \/ m ∈ ns.
Proof.
  induction ns as [|n ns IH]; intros G m.
  - simpl. rewrite elem_of_nil. tauto.
  - change (add_nodes_from (n :: ns) G) with (add_nodes_from ns (add_node n G)).
    rewrite IH, elem_of_cons. unfold add_node. case_bool_decide as Hn; simpl.
    + split; [tauto|]. intros [?|[->|?]]; tauto.
    + rewrite elem_of_app, list_elem_of_singleton. tauto.
Qed.

Lemma add_neighbor_nodes u v G : g_nodes (add_neighbor u v G) = g_nodes G.
Proof.
  unfold add_neighbor. destruct (g_adj G !! u); [|reflexivity].
  case_bool_decide; reflexivity.
Qed.

Lemma add_edge_nodes u v G :
  u ∈ g_nodes G -> v ∈ g_nodes G -> g_nodes (add_edge u v G) = g_nodes G.
Proof.
  intros Hu Hv. unfold add_edge. rewrite !add_neighbor_nodes.
  rewrite (add_node_old u G Hu), (add_node_old v G Hv). reflexivity.
Qed.

Lemma add_edges_nodes n rest : forall G,
  n ∈ g_nodes G -> (forall x, x ∈ rest -> x ∈ g_nodes G) ->
  g_nodes (foldl (fun G m => add_edge n m G) G rest) = g_nodes G.
Proof.
  induction rest as [|r rest IH]; intros G Hn Hrest; [reflexivity|].
  cbn [foldl].
  assert (E : g_nodes (add_edge n r G) = g_nodes G)
    by (apply add_edge_nodes; [exact Hn | apply Hrest; left]).
  rewrite IH; [exact E | rewrite E; exact Hn |].
  intros x Hx. rewrite E. apply Hrest. right. exact Hx.
Qed.

Lemma add_all_edges_nodes ns : forall G,
  (forall x, x ∈ ns -> x ∈ g_nodes G) -> g_nodes (add_all_edges ns G) = g_nodes G.
Proof.
  induction ns as [|n rest IH]; intros G Hns; [reflexivity|].
  cbn [add_all_edges].
  assert (E : g_nodes (foldl (fun G m => add_edge n m G) G rest) = g_nodes G).
  { apply add_edges_nodes; [apply Hns; left|]. intros x Hx. apply Hns. right. exact Hx. }
  rewrite IH; [exact E|]. intros x Hx. rewrite E. apply Hns. right. exact Hx.
Qed.

(** The nodes of the built graph are the listed names, duplicates or not. *)
Lemma complete_on_elem ns m : m ∈ g_nodes (complete_on ns) <-> m ∈ ns.
Proof.
  unfold complete_on. rewrite add_all_edges_nodes.
  - rewrite add_nodes_from_elem. simpl. rewrite elem_of_nil. tauto.
  - intros x Hx. apply add_nodes_from_elem. right. exact Hx.
Qed.

Lemma to_dict_keys {V} (value : geocoded_area -> V) city_df n :
  is_Some (to_dict value city_df !! n) <->
  n ∈ map (fun r => area_name (profile r)) city_df.
Proof.
  unfold to_dict.
  assert (H : forall (m : gmap string V),
             is_Some (foldl (fun m r => <[area_name (profile r) := value r]> m) m city_df !! n)
             <-> is_Some (m !! n) \/ n ∈ map (fun r => area_name (profile r)) city_df).
  { induction city_df as [|r rows IH]; intros m.
    - simpl. rewrite elem_of_nil. tauto.
    - cbn [foldl map]. rewrite IH, elem_of_cons.
      destruct (decide (n = area_name (profile r))) as [->|Hne].
      + rewrite lookup_insert_eq. split; [intros _; right; left; reflexivity|].
        intros _. left. eexists; reflexivity.
      + rewrite lookup_insert_ne by congruence. tauto. }
  rewrite H, lookup_empty. split; [intros [[? ?]|?]; [discriminate | assumption] | tauto].
Qed.

(** C10.  For every city of the output, the three tables are keyed by
    the same area names: a name is a node of the city's graph exactly when it
    has an entry in the city's coordinate map, and exactly when it has an
    entry in the city's danger-score map (a map holds one entry per key). *)
Theorem build_city_graphs_keys processed_data c G :
  city_graphs (build_city_graphs processed_data) !! c = Some G ->
  exists cm dm,
    city_coords (build_city_graphs processed_data) !! c = Some cm /\
    city_danger_scores (build_city_graphs processed_data) !! c = Some dm /\
    forall n, (n ∈ nodes G <-> is_Some (cm !! n)) /\ (n ∈ nodes G <-> is_Some (dm !! n)).
Proof.
  intros HG.
  destruct (build_city_graphs_lookup processed_data c) as [Hsome Hnone].
  destruct (city_rows c processed_data) as [|r rows] eqn:Hrows.
  { destruct (Hnone eq_refl) as (E & _). rewrite E in HG. discriminate. }
  destruct Hsome as (E1 & E2 & E3); [discriminate|].
  rewrite E1 in HG. injection HG as <-.
  exists (to_dict coords (r :: rows)),
         (to_dict (fun r => danger_score (profile r)) (r :: rows)).
  split; [exact E2|]. split; [exact E3|].
  intros n. unfold nodes. rewrite complete_on_elem, !to_dict_keys.
  unfold area_names. rewrite Hrows. tauto.
Qed.

End GraphsFacts.

(** ** Facts about the pathfinder *)

Module AStarFacts.
Import Graphs AStar.

Lemma heappop_nil h : heappop h = None <-> h = [].
Proof.
  destruct h as [|x h]; simpl; [tauto|].
  split; [|discriminate].
  destruct (heappop h) as [[y rest]|]; [destruct (entry_ltb y x)|]; discriminate.
Qed.

Lemma heappop_perm h : forall x rest, heappop h = Some (x, rest) -> h ≡ₚ x :: rest.
Proof.
  induction h as [|a h IH]; intros x rest H; [discriminate|].
  simpl in H. destruct (heappop h) as [[y r]|] eqn:E.
  - destruct (entry_ltb y a).
    + injection H as <- <-. rewrite (IH y r eq_refl). apply Permutation_swap.
    + injection H as <- <-. reflexivity.
  - injection H as <- <-. apply heappop_nil in E. subst h. reflexivity.
Qed.

Lemma heappop_length h x rest : heappop h = Some (x, rest) -> length h = S (length rest).
Proof. intros H. apply heappop_perm in H. rewrite H. reflexivity. Qed.

Lemma heappop_elem h x rest y :
  heappop h = Some (x, rest) -> (y ∈ h <-> y = x \/ y ∈ rest).
Proof. intros H. apply heappop_perm in H. rewrite H, elem_of_cons. tauto. Qed.

Lemma all_infinite_lookup ns n :
  all_infinite ns !! n = if bool_decide (n ∈ ns) then Some Infinity else None.
Proof.
  induction ns as [|m ns IH]; simpl.
  - rewrite lookup_empty. reflexivity.
  - destruct (decide (n = m)) as [->|Hne].
    + rewrite lookup_insert_eq, bool_decide_eq_true_2 by left. reflexivity.
    + rewrite lookup_insert_ne, IH by congruence.
      destruct (decide (n ∈ ns)) as [Hin|Hnin].
      * rewrite !bool_decide_eq_true_2; [reflexivity | right; exact Hin | exact Hin].
      * rewrite !bool_decide_eq_false_2; [reflexivity | | exact Hnin].
        rewrite elem_of_cons. tauto.
Qed.

Section Fuel.

Variable haversine_distance : coord -> coord -> Q.
Variable graph : graph.
Variables start_node end_node : string.
Variable coords_map : gmap string coord.
Variable danger_scores : gmap string Q.

Lemma walk_back_mono fuel : forall fuel' cf cur path o,
  walk_back fuel cf cur path = o -> o <> OutOfFuel -> (fuel <= fuel')%nat ->
  walk_back fuel' cf cur path = o.
Proof.
  induction fuel as [|fuel IH]; intros fuel' cf cur path o H Ho Hle.
  - destruct fuel'; simpl in *; destruct (cf !! cur); congruence.
  - destruct fuel' as [|fuel']; [lia|]. simpl in *.
    destruct (cf !! cur); [|exact H]. apply (IH fuel'); [exact H | exact Ho | lia].
Qed.

Lemma reconstruct_mono fuel fuel' cf cur o :
  reconstruct start_node fuel cf cur = o -> o <> OutOfFuel -> (fuel <= fuel')%nat ->
  reconstruct start_node fuel' cf cur = o.
Proof.
  unfold reconstruct. intros H Ho Hle.
  destruct (walk_back fuel cf cur []) as [p|e|] eqn:E.
  - rewrite (walk_back_mono _ fuel' _ _ _ _ E); [exact H | discriminate | exact Hle].
  - rewrite (walk_back_mono _ fuel' _ _ _ _ E); [exact H | discriminate | exact Hle].
  - simpl in H. congruence.
Qed.

Lemma search_loop_mono rfuel rfuel' fuel : forall fuel' st o,
  search_loop haversine_distance graph start_node end_node coords_map danger_scores
    rfuel fuel st = o ->
  o <> OutOfFuel -> (rfuel <= rfuel')%nat -> (fuel <= fuel')%nat ->
  search_loop haversine_distance graph start_node end_node coords_map danger_scores
    rfuel' fuel' st = o.
Proof.
  induction fuel as [|fuel IH]; intros fuel' st o H Ho Hr Hle.
  - simpl in H. congruence.
  - destruct fuel' as [|fuel']; [lia|]. simpl in *.
    destruct (heappop (open_set st)) as [[[[f g] cur] rest]|]; [|exact H].
    destruct (String.eqb cur end_node).
    + destruct (reconstruct start_node rfuel (came_from st) cur) as [p|e|] eqn:E.
      * rewrite (reconstruct_mono _ rfuel' _ _ _ E); [exact H | discriminate | exact Hr].
      * rewrite (reconstruct_mono _ rfuel' _ _ _ E); [exact H | discriminate | exact Hr].
      * simpl in H. congruence.
    + destruct (neighbors graph cur) as [nbrs|]; [|exact H].
      destruct (relax_all _ _ _ _ _ _ _ _) as [st'|e|]; simpl in *.
      * apply IH; [exact H | exact Ho | exact Hr | lia].
      * exact H.
      * exact H.
Qed.

Lemma a_star_search_mono fuel fuel' o :
  a_star_search haversine_distance graph start_node end_node coords_map danger_scores
    fuel = o ->
  o <> OutOfFuel -> (fuel <= fuel')%nat ->
  a_star_search haversine_distance graph start_node end_node coords_map danger_scores
    fuel' = o.
Proof.
  unfold a_star_search. intros H Ho Hle.
  destruct (getitem coords_map start_node) as [cs|e|]; simpl in *; [|exact H|exact H].
  destruct (getitem coords_map end_node) as [ce|e|]; simpl in *; [|exact H|exact H].
  apply (search_loop_mono fuel fuel' fuel); [exact H | exact Ho | exact Hle | exact Hle].
Qed.

End Fuel.

(** C8.  On a single-node city graph queried from its only node to
    itself, the search returns the one-element path [[start]], of cost 0. *)
Theorem a_star_search_single_node haversine_distance graph n coords_map danger_scores
    c fuel :
  nodes graph = [n] -> coords_map !! n = Some c ->
  a_star_search haversine_distance graph n n coords_map danger_scores (S fuel)
    = Return (Some [n]) /\
  path_cost danger_scores [n] = 0.
Proof.
  intros Hn Hc. split; [|reflexivity].
  unfold a_star_search, getitem. rewrite Hc. simpl.
  rewrite String.eqb_refl. unfold reconstruct.
  destruct fuel; simpl; rewrite lookup_empty; reflexivity.
Qed.

Lemma heappop_two (x y : entry) :
  entry_ltb x y = true -> entry_ltb y x = false ->
  heappop [x; y] = Some (x, [y]) /\ heappop [y; x] = Some (x, [y]).
Proof. intros H1 H2. simpl. rewrite H1, H2. split; reflexivity. Qed.

Lemma entry_ltb_f (f1 g1 f2 g2 : Q) (n1 n2 : string) :
  f1 < f2 ->
  entry_ltb (f1, g1, n1) (f2, g2, n2) = true /\
  entry_ltb (f2, g2, n2) (f1, g1, n1) = false.
Proof.
  intros H. unfold entry_ltb, entry_compare. simpl.
  rewrite (proj1 (Qlt_alt f1 f2) H), (proj1 (Qgt_alt f2 f1) H). split; reflexivity.
Qed.

Section Relax.

Variable haversine_distance : coord -> coord -> Q.
Variable graph : graph.
Variables start_node end_node : string.
Variable coords_map : gmap string coord.
Variable danger_scores : gmap string Q.

Lemma relax_improves current_g current_node st neighbor d g cn ce :
  danger_scores !! neighbor = Some d ->
  g_score st !! neighbor = Some g ->
  lt_ext (current_g + d) g = true ->
  coords_map !! neighbor = Some cn ->
  coords_map !! end_node = Some ce ->
  relax haversine_distance end_node coords_map danger_scores
    current_g current_node st neighbor =
  Return {| open_set := (current_g + d + haversine_distance cn ce, current_g + d, neighbor)
                          :: open_set st;
            came_from := <[neighbor := current_node]> (came_from st);
            g_score := <[neighbor := Finite (current_g + d)]> (g_score st);
            f_score := <[neighbor := Finite (current_g + d + haversine_distance cn ce)]>
                         (f_score st) |}.
Proof.
  intros Hd Hg Hlt Hcn Hce. unfold relax, getitem.
  rewrite Hd. simpl. rewrite Hg. simpl. rewrite Hlt, Hcn. simpl. rewrite Hce. reflexivity.
Qed.

Lemma relax_keeps current_g current_node st neighbor d g :
  danger_scores !! neighbor = Some d ->
  g_score st !! neighbor = Some g ->
  lt_ext (current_g + d) g = false ->
  relax haversine_distance end_node coords_map danger_scores
    current_g current_node st neighbor = Return st.
Proof.
  intros Hd Hg Hlt. unfold relax, getitem.
  rewrite Hd. simpl. rewrite Hg. simpl. rewrite Hlt. reflexivity.
Qed.

End Relax.

Section Steps.

Variable haversine_distance : coord -> coord -> Q.
Variable graph : graph.
Variables start_node end_node : string.
Variable coords_map : gmap string coord.
Variable danger_scores : gmap string Q.

Definition popped (st : search_state) (rest : list entry) : search_state :=
  {| open_set := rest; came_from := came_from st;
     g_score := g_score st; f_score := f_score st |}.

Lemma search_loop_expand rfuel fuel st f g cur rest nbrs :
  heappop (open_set st) = Some ((f, g, cur), rest) ->
  cur <> end_node ->
  neighbors graph cur = Some nbrs ->
  search_loop haversine_distance graph start_node end_node coords_map danger_scores
    rfuel (S fuel) st =
  (st' ← relax_all haversine_distance end_node coords_map danger_scores
          g cur (popped st rest) nbrs;
   search_loop haversine_distance graph start_node end_node coords_map danger_scores
     rfuel fuel st').
Proof.
  intros Hpop Hne Hn. cbn [search_loop]. rewrite Hpop.
  apply String.eqb_neq in Hne. rewrite Hne, Hn. reflexivity.
Qed.

Lemma search_loop_found rfuel fuel st f g rest :
  heappop (open_set st) = Some ((f, g, end_node), rest) ->
  search_loop haversine_distance graph start_node end_node coords_map danger_scores
    rfuel (S fuel) st =
  (path ← reconstruct start_node rfuel (came_from st) end_node; Return (Some path)).
Proof.
  intros Hpop. cbn [search_loop]. rewrite Hpop, String.eqb_refl. reflexivity.
Qed.

End Steps.

Lemma path_cost_last (dm : gmap string Q) : forall (tl : list string) c d,
  (forall n, n ∈ tl -> 0 <= default 0 (dm !! n)) ->
  last tl = Some c -> dm !! c = Some d ->
  d <= foldr Qplus 0 (map (fun n => default 0 (dm !! n)) tl).
Proof.
  induction tl as [|x tl IH]; intros c d Hpos Hlast Hd; [discriminate|].
  assert (Hx : 0 <= default 0 (dm !! x)) by (apply Hpos; left).
  cbn [map foldr]. destruct tl as [|y tl].
  - simpl in Hlast. injection Hlast as ->. rewrite Hd in *. cbn [map foldr default].
    simpl. lra.
  - assert (H : d <= foldr Qplus 0 (map (fun n => default 0 (dm !! n)) (y :: tl))).
    { apply (IH c d); [|exact Hlast|exact Hd].
      intros n Hn. apply Hpos. right. exact Hn. }
    set (s := foldr Qplus 0 (map (fun n => default 0 (dm !! n)) (y :: tl))) in *.
    set (dx := default 0 (dm !! x)) in *. lra.
Qed.

Lemma perm_two (l : list string) b c :
  l ≡ₚ [b; c] -> l = [b; c] \/ l = [c; b].
Proof.
  intros H. pose proof (Permutation_length H) as Hlen.
  destruct l as [|x [|y [|z l]]]; try discriminate.
  assert (Hx : x ∈ [b; c]) by (rewrite <- H; left).
  assert (Hy : y ∈ [b; c]) by (rewrite <- H; right; left).
  assert (Hb : b ∈ [x; y]) by (rewrite H; left).
  assert (Hc : c ∈ [x; y]) by (rewrite H; right; left).
  rewrite !elem_of_cons, elem_of_nil in Hx, Hy, Hb, Hc.
  destruct Hx as [->|[->|[]]], Hy as [->|[->|[]]]; auto.
  - destruct Hc as [->|[->|[]]]; auto.
  - destruct Hb as [->|[->|[]]]; auto.
Qed.

(** *** Sums over the node list, used as termination measures *)

Lemma sum_list_with_le {A} (f g : A -> nat) l :
  (forall x, x ∈ l -> (f x <= g x)%nat) -> (sum_list_with f l <= sum_list_with g l)%nat.
Proof.
  induction l as [|y l IH]; intros H; simpl; [lia|].
  assert (f y <= g y)%nat by (apply H; left).
  assert (sum_list_with f l <= sum_list_with g l)%nat
    by (apply IH; intros x Hx; apply H; right; exact Hx).
  lia.
Qed.

Lemma sum_list_with_lt {A} (f g : A -> nat) l y :
  (forall x, x ∈ l -> (f x <= g x)%nat) -> y ∈ l -> (f y < g y)%nat ->
  (sum_list_with f l < sum_list_with g l)%nat.
Proof.
  induction l as [|z l IH]; intros H Hy Hlt; [inversion Hy|].
  simpl. assert (f z <= g z)%nat by (apply H; left).
  assert (Hl : forall x, x ∈ l -> (f x <= g x)%nat) by (intros x Hx; apply H; right; exact Hx).
  apply elem_of_cons in Hy as [<-|Hy].
  - pose proof (sum_list_with_le f g l Hl). lia.
  - pose proof (IH Hl Hy Hlt). lia.
Qed.

Lemma sum_list_with_eq {A} (f g : A -> nat) l :
  (forall x, x ∈ l -> f x = g x) -> sum_list_with f l = sum_list_with g l.
Proof.
  induction l as [|y l IH]; intros H; simpl; [reflexivity|].
  rewrite (H y) by left. rewrite IH; [reflexivity|].
  intros x Hx. apply H. right. exact Hx.
Qed.

(** *** Costs as multiples of a common unit *)

Section Units.

Variable graph : graph.
Variable danger_scores : gmap string Q.

(** The product of the denominators of the danger scores of the nodes. *)
Definition unit_den : positive :=
  foldr (fun n acc => (Qden (default 1%Q (danger_scores !! n)) * acc)%positive)
        1%positive (nodes graph).

(** [g] is a non-negative whole number of units [1 / unit_den]. *)
Definition scaled (g : Q) : Prop :=
  exists k : Z, (0 <= k)%Z /\ g == k # unit_den.

Definition rank (g : Q) : nat :=
  Z.to_nat (Qfloor (g * inject_Z (Zpos unit_den))).

Lemma scaled_zero : scaled 0.
Proof. exists 0%Z. split; [lia|]. unfold Qeq. simpl. reflexivity. Qed.

Lemma scaled_plus a b : scaled a -> scaled b -> scaled (a + b).
Proof.
  intros (ka & Ha & Ea) (kb & Hb & Eb). exists (ka + kb)%Z. split; [lia|].
  rewrite Ea, Eb. unfold Qeq, Qplus. simpl. rewrite Pos2Z.inj_mul. ring.
Qed.

Lemma scaled_nonneg a : scaled a -> 0 <= a.
Proof.
  intros (k & Hk & E). rewrite E. unfold Qle. simpl. lia.
Qed.

Lemma scaled_danger n d :
  n ∈ nodes graph -> danger_scores !! n = Some d -> 0 < d -> scaled d.
Proof.
  intros Hin Hd Hpos. unfold scaled, unit_den.
  assert (Hdiv : exists m : positive,
             foldr (fun n acc => (Qden (default 1%Q (danger_scores !! n)) * acc)%positive)
                   1%positive (nodes graph) = (Qden d * m)%positive).
  { induction (nodes graph) as [|x l IH]; [inversion Hin|].
    simpl. apply elem_of_cons in Hin as [<-|Hin].
    - rewrite Hd. simpl. eexists. reflexivity.
    - destruct (IH Hin) as [m ->].
      exists (Qden (default 1%Q (danger_scores !! x)) * m)%positive. lia. }
  destruct Hdiv as [m ->].
  exists (Qnum d * Zpos m)%Z. split.
  - unfold Qlt in Hpos. simpl in Hpos. nia.
  - unfold Qeq. simpl. rewrite Pos2Z.inj_mul. ring.
Qed.

Lemma scaled_floor a k : a == k # unit_den -> Qfloor (a * inject_Z (Zpos unit_den)) = k.
Proof.
  intros E. rewrite <- (Qfloor_Z k). apply Qfloor_comp. rewrite E.
  unfold Qeq, Qmult, inject_Z. simpl. rewrite Pos.mul_1_r. ring.
Qed.

Lemma rank_lt a b : scaled a -> scaled b -> a < b -> (rank a < rank b)%nat.
Proof.
  intros (ka & Ha & Ea) (kb & Hb & Eb) Hlt. unfold rank.
  rewrite (scaled_floor a ka Ea), (scaled_floor b kb Eb).
  rewrite Ea, Eb in Hlt. unfold Qlt in Hlt. simpl in Hlt.
  assert (ka < kb)%Z by nia. lia.
Qed.

End Units.

Section Complete.

Variable haversine_distance : coord -> coord -> Q.
Variable G : graph.
Variables start_node end_node : string.
Variable coords_map : gmap string coord.
Variable danger_scores : gmap string Q.

Hypothesis Hcomplete : complete_graph G.
Hypothesis Hstart : start_node ∈ nodes G.
Hypothesis Hend : end_node ∈ nodes G.
Hypothesis Hcoords : forall n, n ∈ nodes G -> is_Some (coords_map !! n).
Hypothesis Hdanger : forall n, n ∈ nodes G ->
  exists d, danger_scores !! n = Some d /\ 0 < d.

Local Notation scaled := (scaled G danger_scores).
Local Notation rank := (rank G danger_scores).

(** A heap item [(_, g, n)] is backed by the tables. *)
Definition tracked (st : search_state) (g : Q) (n : string) : Prop :=
  n ∈ nodes G /\ scaled g /\
  (n = start_node \/ is_Some (came_from st !! n)) /\
  exists g', g_score st !! n = Some (Finite g') /\ g' <= g.

Record search_inv (st : search_state) : Prop := {
  inv_open : forall f g n, (f, g, n) ∈ open_set st -> tracked st g n;
  inv_score : forall n, n ∈ nodes G ->
    exists x, g_score st !! n = Some x /\ forall g, x = Finite g -> scaled g;
  inv_start : g_score st !! start_node = Some (Finite 0) /\
              came_from st !! start_node = None;
  inv_from : forall n c, came_from st !! n = Some c ->
    n ∈ nodes G /\ c ∈ nodes G /\ (exists l, neighbors G c = Some l /\ n ∈ l) /\
    exists gn gc, g_score st !! n = Some (Finite gn) /\
                  g_score st !! c = Some (Finite gc) /\ gc < gn /\
                  (c = start_node \/ is_Some (came_from st !! c))
}.

Definition inf_count (st : search_state) : nat :=
  sum_list_with (fun n => match g_score st !! n with
                          | Some Infinity => 1%nat
                          | _ => 0%nat
                          end) (nodes G).

Definition rank_sum (st : search_state) : nat :=
  sum_list_with (fun n => match g_score st !! n with
                          | Some (Finite g) => rank g
                          | _ => 0%nat
                          end) (nodes G).

(** One relaxation does not increase the measure; when it changes the
    tables, it decreases it. *)
Definition measure_le (st st' : search_state) : Prop :=
  (inf_count st' < inf_count st)%nat \/
  (inf_count st' = inf_count st /\ rank_sum st' < rank_sum st)%nat \/
  (inf_count st' = inf_count st /\ rank_sum st' = rank_sum st /\
   length (open_set st') = length (open_set st)).

Lemma measure_le_refl st : measure_le st st.
Proof. right. right. repeat split. Qed.

Lemma measure_le_trans st1 st2 st3 :
  measure_le st1 st2 -> measure_le st2 st3 -> measure_le st1 st3.
Proof. unfold measure_le. lia. Qed.

Lemma lt_ext_true q e :
  lt_ext q e = true <-> e = Infinity \/ exists g, e = Finite g /\ q < g.
Proof.
  destruct e as [g|]; simpl.
  - destruct (Qcompare_spec q g) as [E|E|E].
    + split; [discriminate|]. intros [?|(g' & [= <-] & H)]; [discriminate | lra].
    + split; [|reflexivity]. intros _. right. exists g. split; [reflexivity | exact E].
    + split; [discriminate|]. intros [?|(g' & [= <-] & H)]; [discriminate | lra].
  - split; [intros _; left; reflexivity | reflexivity].
Qed.

Lemma relax_inv st g c nb :
  search_inv st -> tracked st g c ->
  nb ∈ nodes G -> nb <> c -> (exists l, neighbors G c = Some l /\ nb ∈ l) ->
  exists st',
    relax haversine_distance end_node coords_map danger_scores g c st nb = Return st' /\
    search_inv st' /\ tracked st' g c /\ measure_le st st' /\
    (forall e, e ∈ open_set st -> e ∈ open_set st') /\
    (g_score st !! nb = Some Infinity -> exists f g', (f, g', nb) ∈ open_set st') /\
    (forall n, n <> nb -> g_score st' !! n = g_score st !! n).
Proof.
  intros Hinv Hcur Hnb Hne Hadj.
  destruct (Hdanger nb Hnb) as (d & Hd & Hdpos).
  destruct (inv_score st Hinv nb Hnb) as (x & Hx & Hxs).
  destruct (lt_ext (g + d) x) eqn:Hlt.
  2:{ exists st. rewrite (relax_keeps _ _ _ _ _ _ _ _ d x Hd Hx Hlt).
      split; [reflexivity|]. split; [exact Hinv|]. split; [exact Hcur|].
      split; [apply measure_le_refl|]. split; [auto|]. split; [|auto].
      intros E. rewrite E in Hx. injection Hx as <-. discriminate. }
  destruct (Hcoords nb Hnb) as [cn Hcn]. destruct (Hcoords end_node Hend) as [ce Hce].
  rewrite (relax_improves _ _ _ _ _ _ _ _ d x cn ce Hd Hx Hlt Hcn Hce).
  set (t := g + d). set (f := t + haversine_distance cn ce).
  eexists. split; [reflexivity|].
  destruct Hcur as (Hc & Hsg & Hcf & gc & Hgc & Hgcle).
  assert (Hst : scaled t) by (apply scaled_plus; [exact Hsg | eapply scaled_danger; eauto]).
  assert (Hgpos : 0 <= g) by (eapply scaled_nonneg; exact Hsg).
  assert (Hnbs : nb <> start_node).
  { intros ->. destruct (inv_start st Hinv) as [E _]. rewrite E in Hx. injection Hx as <-.
    simpl in Hlt. unfold t in *.
    destruct (Qcompare_spec (g + d) 0); try discriminate. lra. }
  apply lt_ext_true in Hlt.
  assert (Hold : forall gold, x = Finite gold -> t < gold).
  { intros gold ->. destruct Hlt as [?|(g' & [= <-] & H)]; [discriminate | exact H]. }
  split; [|split; [|split; [|split; [|split]]]].
  - (* invariant *)
    split; unfold tracked; cbn [open_set came_from g_score f_score].
    + intros f' g' n Hin. apply elem_of_cons in Hin as [[= -> -> ->]|Hin].
      * split; [exact Hnb|]. split; [exact Hst|].
        split; [right; rewrite lookup_insert_eq; eexists; reflexivity|].
        exists t. rewrite lookup_insert_eq. split; [reflexivity | lra].
      * destruct (inv_open st Hinv f' g' n Hin) as (Hn & Hs & Hf & g'' & Hg'' & Hle).
        split; [exact Hn|]. split; [exact Hs|]. split.
        -- destruct Hf as [->|Hf]; [left; reflexivity|]. right.
           destruct (decide (n = nb)) as [->|Hnn].
           ++ rewrite lookup_insert_eq. eexists; reflexivity.
           ++ rewrite lookup_insert_ne by congruence. exact Hf.
        -- destruct (decide (n = nb)) as [->|Hnn].
           ++ exists t. rewrite lookup_insert_eq. split; [reflexivity|].
              rewrite Hx in Hg''. injection Hg'' as ->.
              pose proof (Hold g'' eq_refl). lra.
           ++ exists g''. rewrite lookup_insert_ne by congruence. split; assumption.
    + intros n Hn. destruct (decide (n = nb)) as [->|Hnn].
      * exists (Finite t). rewrite lookup_insert_eq. split; [reflexivity|].
        intros g' [= <-]. exact Hst.
      * rewrite lookup_insert_ne by congruence. apply (inv_score st Hinv n Hn).
    + rewrite !lookup_insert_ne by congruence. apply (inv_start st Hinv).
    + intros n c' Hcf'.
      destruct (decide (n = nb)) as [->|Hnn].
      * rewrite lookup_insert_eq in Hcf'. injection Hcf' as <-.
        split; [exact Hnb|]. split; [exact Hc|]. split; [exact Hadj|].
        exists t, gc. rewrite lookup_insert_eq.
        rewrite !lookup_insert_ne by congruence.
        split; [reflexivity|]. split; [exact Hgc|]. split; [unfold t; lra|].
        destruct Hcf as [->|Hcf]; [left; reflexivity | right; exact Hcf].
      * rewrite lookup_insert_ne in Hcf' by congruence.
        destruct (inv_from st Hinv n c' Hcf') as (Hn & Hc' & Hl & gn & gc' & Hgn & Hgc' & Hltg & Hf).
        split; [exact Hn|]. split; [exact Hc'|]. split; [exact Hl|].
        rewrite (lookup_insert_ne _ nb n) by congruence.
        destruct (decide (c' = nb)) as [->|Hcnb].
        -- exists gn, t. rewrite !lookup_insert_eq.
           split; [exact Hgn|]. split; [reflexivity|].
           rewrite Hx in Hgc'. injection Hgc' as ->.
           pose proof (Hold gc' eq_refl). split; [lra|].
           right. eexists; reflexivity.
        -- exists gn, gc'. rewrite !lookup_insert_ne by congruence.
           split; [exact Hgn|]. split; [exact Hgc'|]. split; [exact Hltg|].
           exact Hf.
  - (* the expanded node is still tracked *)
    unfold tracked. cbn [came_from g_score].
    split; [exact Hc|]. split; [exact Hsg|]. split.
    + destruct Hcf as [->|Hcf]; [left; reflexivity|]. right.
      rewrite lookup_insert_ne by congruence. exact Hcf.
    + exists gc. rewrite lookup_insert_ne by congruence. split; assumption.
  - (* measure *)
    unfold measure_le, inf_count, rank_sum. cbn [g_score open_set].
    destruct x as [gold|].
    + right. left. split.
      * apply sum_list_with_eq. intros n Hn.
        destruct (decide (n = nb)) as [->|Hnn].
        -- rewrite lookup_insert_eq, Hx. reflexivity.
        -- rewrite lookup_insert_ne by congruence. reflexivity.
      * apply (sum_list_with_lt _ _ _ nb); [|exact Hnb|].
        -- intros n Hn. destruct (decide (n = nb)) as [->|Hnn].
           ++ rewrite lookup_insert_eq, Hx.
              apply Nat.lt_le_incl. apply rank_lt; [exact Hst | apply Hxs; reflexivity | apply Hold; reflexivity].
           ++ rewrite lookup_insert_ne by congruence. lia.
        -- rewrite lookup_insert_eq, Hx.
           apply rank_lt; [exact Hst | apply Hxs; reflexivity | apply Hold; reflexivity].
    + left. apply (sum_list_with_lt _ _ _ nb); [|exact Hnb|].
      * intros n Hn. destruct (decide (n = nb)) as [->|Hnn].
        -- rewrite lookup_insert_eq, Hx. lia.
        -- rewrite lookup_insert_ne by congruence. lia.
      * rewrite lookup_insert_eq, Hx. lia.
  - intros e He. cbn [open_set]. right. exact He.
  - intros _. exists f, t. cbn [open_set]. left.
  - intros n Hn. cbn [g_score]. rewrite lookup_insert_ne by congruence. reflexivity.
Qed.

Lemma relax_all_inv g c nbrs : forall st,
  search_inv st -> tracked st g c ->
  (forall nb, nb ∈ nbrs ->
     nb ∈ nodes G /\ nb <> c /\ exists l, neighbors G c = Some l /\ nb ∈ l) ->
  exists st',
    relax_all haversine_distance end_node coords_map danger_scores g c st nbrs
      = Return st' /\
    search_inv st' /\ measure_le st st' /\
    (forall e, e ∈ open_set st -> e ∈ open_set st') /\
    (g_score st !! end_node = Some Infinity -> end_node ∈ nbrs ->
     exists f g', (f, g', end_node) ∈ open_set st').
Proof.
  induction nbrs as [|nb rest IH]; intros st Hinv Hcur Hnbrs.
  - exists st. split; [reflexivity|]. split; [exact Hinv|].
    split; [apply measure_le_refl|]. split; [auto|].
    intros _ Hin. inversion Hin.
  - destruct (Hnbrs nb) as (Hnb & Hne & Hadj); [left|].
    destruct (relax_inv st g c nb Hinv Hcur Hnb Hne Hadj)
      as (st1 & Hrel & Hinv1 & Hcur1 & Hm1 & Hopen1 & Hpush1 & Hsame1).
    destruct (IH st1 Hinv1 Hcur1) as (st2 & Hall & Hinv2 & Hm2 & Hopen2 & Hpush2).
    { intros x Hx. apply Hnbrs. right. exact Hx. }
    exists st2. cbn [relax_all]. rewrite Hrel. cbn [mbind outcome_bind].
    split; [exact Hall|]. split; [exact Hinv2|].
    split; [eapply measure_le_trans; eauto|].
    split; [intros e He; apply Hopen2, Hopen1, He|].
    intros Hinf Hin. destruct (decide (end_node = nb)) as [E|E].
    + subst nb. destruct (Hpush1 Hinf) as (f & g' & He).
      exists f, g'. apply Hopen2. exact He.
    + apply elem_of_cons in Hin as [?|Hin]; [contradiction|].
      apply Hpush2; [|exact Hin]. rewrite Hsame1 by exact E. exact Hinf.
Qed.

(** The end node is in the frontier, or will enter it at the next expansion. *)
Definition reach (st : search_state) : Prop :=
  (exists f g, (f, g, end_node) ∈ open_set st) \/
  (g_score st !! end_node = Some Infinity /\ open_set st <> []).

Definition lex_lt (st' st : search_state) : Prop :=
  (inf_count st' < inf_count st)%nat \/
  (inf_count st' = inf_count st /\ rank_sum st' < rank_sum st)%nat \/
  (inf_count st' = inf_count st /\ rank_sum st' = rank_sum st /\
   length (open_set st') < length (open_set st))%nat.

Lemma expand_inv st f g c rest :
  search_inv st -> reach st ->
  heappop (open_set st) = Some ((f, g, c), rest) -> c <> end_node ->
  exists nbrs st',
    neighbors G c = Some nbrs /\
    relax_all haversine_distance end_node coords_map danger_scores
      g c (popped st rest) nbrs = Return st' /\
    search_inv st' /\ reach st' /\ lex_lt st' st.
Proof.
  intros Hinv Hreach Hpop Hne.
  assert (Hin : (f, g, c) ∈ open_set st)
    by (apply (heappop_elem _ _ _ _ Hpop); left; reflexivity).
  pose proof (inv_open st Hinv f g c Hin) as Hcur.
  assert (Hinvp : search_inv (popped st rest)).
  { split; unfold tracked, popped; cbn [open_set came_from g_score f_score].
    - intros f' g' n Hn. apply (inv_open st Hinv f' g' n).
      apply (heappop_elem _ _ _ _ Hpop). right. exact Hn.
    - apply (inv_score st Hinv).
    - apply (inv_start st Hinv).
    - apply (inv_from st Hinv). }
  destruct Hcomplete as [_ Hadj].
  destruct (Hadj c) as (l & Hl & _ & Hmem); [apply Hcur|].
  destruct (relax_all_inv g c l (popped st rest) Hinvp Hcur)
    as (st' & Hall & Hinv' & Hm & Hopen & Hpush).
  { intros nb Hnb. apply Hmem in Hnb as [H1 H2].
    split; [exact H1|]. split; [exact H2|]. exists l. split; [exact Hl|].
    apply Hmem. split; assumption. }
  exists l, st'. split; [exact Hl|]. split; [exact Hall|]. split; [exact Hinv'|].
  split.
  - left. destruct Hreach as [(f' & g' & He)|[Hinf _]].
    + exists f', g'. apply Hopen. unfold popped. cbn [open_set].
      apply (heappop_elem _ _ _ _ Hpop) in He as [[= _ _ E]|He]; [|exact He].
      congruence.
    + apply Hpush; [exact Hinf|]. apply Hmem. split; [exact Hend | congruence].
  - pose proof (heappop_length _ _ _ Hpop) as Hlen.
    unfold measure_le in Hm. unfold lex_lt.
    change (inf_count (popped st rest)) with (inf_count st) in Hm.
    change (rank_sum (popped st rest)) with (rank_sum st) in Hm.
    change (length (open_set (popped st rest))) with (length rest) in Hm.
    lia.
Qed.

(** *** Walking the predecessor links *)

Definition good_path (p : list string) (last_node : string) : Prop :=
  head p = Some start_node /\ last p = Some last_node /\ is_path G p.

Lemma is_path_snoc p a b :
  is_path G p -> last p = Some a -> (exists l, neighbors G a = Some l /\ b ∈ l) ->
  is_path G (p ++ [b]).
Proof.
  induction p as [|x p IH]; intros Hp Hlast Hadj; [discriminate|].
  destruct p as [|y p].
  - simpl in Hlast. injection Hlast as ->. simpl. split; [exact Hadj | exact I].
  - cbn [app is_path] in *. destruct Hp as [Hxy Hp].
    split; [exact Hxy|]. apply IH; [exact Hp | exact Hlast | exact Hadj].
Qed.

Lemma walk_back_inv st : search_inv st ->
  forall k cur path,
    cur ∈ nodes G ->
    (cur = start_node \/ is_Some (came_from st !! cur)) ->
    (forall g, g_score st !! cur = Some (Finite g) -> (rank g <= k)%nat) ->
    exists rfuel chain,
      walk_back rfuel (came_from st) cur path = Return (path ++ chain) /\
      good_path (rev (chain ++ [start_node])) cur.
Proof.
  intros Hinv. induction k as [k IH] using lt_wf_ind.
  intros cur path Hcur Hlink Hrank.
  destruct (came_from st !! cur) as [prev|] eqn:Hcf.
  - destruct (inv_from st Hinv cur prev Hcf)
      as (_ & Hprev & Hadj & gn & gc & Hgn & Hgc & Hlt & Hlink').
    destruct (inv_score st Hinv cur Hcur) as (x & Hx & Hxs).
    destruct (inv_score st Hinv prev Hprev) as (y & Hy & Hys).
    rewrite Hgn in Hx. injection Hx as <-. rewrite Hgc in Hy. injection Hy as <-.
    pose proof (rank_lt G danger_scores gc gn (Hys gc eq_refl) (Hxs gn eq_refl) Hlt) as Hr.
    pose proof (Hrank gn Hgn) as Hk.
    destruct (IH (rank gc)) with (cur := prev) (path := path ++ [cur])
      as (rfuel & chain & Hwalk & Hgood); [lia | exact Hprev | exact Hlink' | |].
    { intros g' Hg'. rewrite Hgc in Hg'. injection Hg' as <-. lia. }
    exists (S rfuel), (cur :: chain). cbn [walk_back]. rewrite Hcf.
    rewrite Hwalk, <- app_assoc. split; [reflexivity|].
    destruct Hgood as (Hhead & Hlast & Hpath).
    cbn [app rev]. set (p := rev (chain ++ [start_node])) in *.
    split; [|split].
    + destruct p; [discriminate | exact Hhead].
    + apply last_snoc.
    + apply (is_path_snoc p prev cur); assumption.
  - destruct Hlink as [->|[? ?]]; [|discriminate].
    exists 0%nat, []. destruct (inv_start st Hinv) as [_ Hs].
    simpl. rewrite Hs, app_nil_r. split; [reflexivity|].
    repeat split.
Qed.

Lemma reconstruct_inv st g :
  search_inv st -> tracked st g end_node ->
  exists rfuel path,
    reconstruct start_node rfuel (came_from st) end_node = Return path /\
    good_path path end_node.
Proof.
  intros Hinv (Hn & _ & Hlink & g' & Hg' & _).
  destruct (walk_back_inv st Hinv (rank g') end_node [] Hn Hlink)
    as (rfuel & chain & Hwalk & Hgood).
  { intros g0 Hg0. rewrite Hg' in Hg0. injection Hg0 as <-. lia. }
  exists rfuel, (rev (chain ++ [start_node])). unfold reconstruct.
  rewrite Hwalk. split; [reflexivity | exact Hgood].
Qed.

(** *** Termination *)

Lemma search_loop_terminates : forall a b c st,
  inf_count st = a -> rank_sum st = b -> length (open_set st) = c ->
  search_inv st -> reach st ->
  exists fuel rfuel path,
    search_loop haversine_distance G start_node end_node coords_map danger_scores
      rfuel fuel st = Return (Some path) /\
    good_path path end_node.
Proof.
  intros a. induction a as [a IHa] using lt_wf_ind.
  intros b. induction b as [b IHb] using lt_wf_ind.
  intros c. induction c as [c IHc] using lt_wf_ind.
  intros st Ha Hb Hc Hinv Hreach.
  destruct (heappop (open_set st)) as [[[[f g] cur] rest]|] eqn:Hpop.
  2:{ apply heappop_nil in Hpop. destruct Hreach as [(f & g & He)|[_ Hne]].
      - rewrite Hpop in He. inversion He.
      - contradiction. }
  destruct (decide (cur = end_node)) as [->|Hne].
  - assert (Hin : (f, g, end_node) ∈ open_set st)
      by (apply (heappop_elem _ _ _ _ Hpop); left; reflexivity).
    destruct (reconstruct_inv st g Hinv (inv_open st Hinv f g end_node Hin))
      as (rfuel & path & Hrec & Hgood).
    exists 1%nat, rfuel, path. split; [|exact Hgood].
    erewrite search_loop_found; [|exact Hpop]. rewrite Hrec. reflexivity.
  - destruct (expand_inv st f g cur rest Hinv Hreach Hpop Hne)
      as (nbrs & st' & Hn & Hall & Hinv' & Hreach' & Hlex).
    assert (Hrec : exists fuel rfuel path,
               search_loop haversine_distance G start_node end_node coords_map
                 danger_scores rfuel fuel st' = Return (Some path) /\
               good_path path end_node).
    { destruct Hlex as [H|[[H1 H2]|(H1 & H2 & H3)]].
      - apply (IHa (inf_count st')) with (b := rank_sum st')
          (c := length (open_set st')); auto. lia.
      - apply (IHb (rank_sum st')) with (c := length (open_set st')); auto; lia.
      - apply (IHc (length (open_set st'))); auto; lia. }
    destruct Hrec as (fuel & rfuel & path & Hloop & Hgood).
    exists (S fuel), rfuel, path. split; [|exact Hgood].
    rewrite (search_loop_expand _ _ _ _ _ _ _ _ _ f g cur rest nbrs Hpop Hne Hn).
    rewrite Hall. exact Hloop.
Qed.

Lemma initial_inv cs ce :
  let st0 := {| open_set := heappush [] (0, 0, start_node);
                came_from := ∅;
                g_score := <[start_node := Finite 0]> (all_infinite (nodes G));
                f_score := <[start_node := Finite (haversine_distance cs ce)]>
                             (all_infinite (nodes G)) |} in
  search_inv st0 /\ reach st0.
Proof.
  intros st0. split.
  - split; unfold tracked, st0; cbn [open_set came_from g_score f_score heappush].
    + intros f g n Hin. apply list_elem_of_singleton in Hin. injection Hin as -> -> ->.
      split; [exact Hstart|]. split; [apply scaled_zero|].
      split; [left; reflexivity|].
      exists 0. rewrite lookup_insert_eq. split; [reflexivity | lra].
    + intros n Hn. destruct (decide (n = start_node)) as [->|Hne].
      * exists (Finite 0). rewrite lookup_insert_eq. split; [reflexivity|].
        intros g [= <-]. apply scaled_zero.
      * exists Infinity. rewrite lookup_insert_ne, all_infinite_lookup by congruence.
        rewrite bool_decide_eq_true_2 by exact Hn. split; [reflexivity | discriminate].
    + rewrite lookup_insert_eq, lookup_empty. split; reflexivity.
    + intros n c Hc. rewrite lookup_empty in Hc. discriminate.
  - unfold reach, st0. cbn [open_set g_score heappush].
    destruct (decide (start_node = end_node)) as [E|E].
    + left. exists 0, 0. rewrite E. left.
    + right. split; [|discriminate].
      rewrite lookup_insert_ne, all_infinite_lookup by exact E.
      rewrite bool_decide_eq_true_2 by exact Hend. reflexivity.
Qed.

End Complete.

(** *** [heappop] returns a smallest item *)

(** A three-way comparison that orders its arguments. *)
Record ordering {A} (cmp : A -> A -> comparison) : Prop := {
  ord_antisym : forall a b, cmp a b = CompOpp (cmp b a);
  ord_trans : forall a b c, cmp a b = Lt -> cmp b c = Lt -> cmp a c = Lt;
  ord_eq : forall a b c, cmp a b = Eq -> cmp a c = cmp b c
}.

Definition lexicographic {A} (c1 c2 : A -> A -> comparison) (a b : A) : comparison :=
  match c1 a b with Eq => c2 a b | c => c end.

Lemma ord_gt {A} (cmp : A -> A -> comparison) (H : ordering cmp) a b :
  cmp a b = Gt <-> cmp b a = Lt.
Proof.
  rewrite (ord_antisym cmp H a b). destruct (cmp b a); simpl; split; congruence.
Qed.

Lemma ord_eq_sym {A} (cmp : A -> A -> comparison) (H : ordering cmp) a b :
  cmp a b = Eq -> cmp b a = Eq.
Proof.
  rewrite (ord_antisym cmp H a b). destruct (cmp b a); simpl; congruence.
Qed.

Lemma ord_eq_r {A} (cmp : A -> A -> comparison) (H : ordering cmp) a b c :
  cmp a b = Eq -> cmp c a = cmp c b.
Proof.
  intros E. rewrite (ord_antisym cmp H c a), (ord_antisym cmp H c b).
  rewrite (ord_eq cmp H a b c E). reflexivity.
Qed.

Lemma lexicographic_ordering {A} (c1 c2 : A -> A -> comparison) :
  ordering c1 -> ordering c2 -> ordering (lexicographic c1 c2).
Proof.
  intros H1 H2. split; unfold lexicographic.
  - intros a b. rewrite (ord_antisym c1 H1 a b).
    destruct (c1 b a); simpl; [apply (ord_antisym c2 H2) | reflexivity | reflexivity].
  - intros a b c.
    destruct (c1 a b) eqn:Eab; try discriminate;
      destruct (c1 b c) eqn:Ebc; try discriminate; intros Hab Hbc.
    + rewrite (ord_eq c1 H1 a b c Eab), Ebc. eapply (ord_trans c2 H2); eauto.
    + rewrite (ord_eq c1 H1 a b c Eab), Ebc. reflexivity.
    + rewrite <- (ord_eq_r c1 H1 b c a Ebc), Eab. reflexivity.
    + rewrite (ord_trans c1 H1 a b c Eab Ebc). reflexivity.
  - intros a b c. destruct (c1 a b) eqn:Eab; try discriminate.
    intros E. rewrite (ord_eq c1 H1 a b c Eab).
    destruct (c1 b c); [apply (ord_eq c2 H2); exact E | reflexivity | reflexivity].
Qed.

Lemma Qcompare_ordering {A} (f : A -> Q) : ordering (fun a b => Qcompare (f a) (f b)).
Proof.
  split.
  - intros a b. symmetry. apply Qcompare_antisym.
  - intros a b c. rewrite <- !Qlt_alt. apply Qlt_trans.
  - intros a b c E. apply Qeq_alt in E. rewrite E. reflexivity.
Qed.

Lemma string_compare_ordering {A} (f : A -> string) :
  ordering (fun a b => String.compare (f a) (f b)).
Proof.
  split.
  - intros a b. apply String.compare_antisym.
  - intros a b c. apply ScoresFacts.string_compare_trans.
  - intros a b c E. apply String.compare_eq_iff in E. rewrite E. reflexivity.
Qed.

Lemma entry_compare_ordering : ordering entry_compare.
Proof.
  change entry_compare with
    (lexicographic (fun a b : entry => Qcompare a.1.1 b.1.1)
       (lexicographic (fun a b : entry => Qcompare a.1.2 b.1.2)
          (fun a b : entry => String.compare a.2 b.2))).
  repeat apply lexicographic_ordering.
  - apply (Qcompare_ordering (fun a : entry => a.1.1)).
  - apply (Qcompare_ordering (fun a : entry => a.1.2)).
  - apply (string_compare_ordering (fun a : entry => a.2)).
Qed.

Lemma entry_ltb_asym a b : entry_ltb a b = true -> entry_ltb b a = false.
Proof.
  unfold entry_ltb. rewrite (ord_antisym _ entry_compare_ordering b a).
  destruct (entry_compare a b); simpl; congruence.
Qed.

Lemma entry_ltb_chain z x y :
  entry_ltb z x = true -> entry_ltb y x = false -> entry_ltb z y = true.
Proof.
  unfold entry_ltb. intros Hzx Hyx.
  destruct (entry_compare z x) eqn:Ezx; try discriminate.
  destruct (entry_compare y x) eqn:Eyx; try discriminate.
  - rewrite (ord_eq_r _ entry_compare_ordering y x z Eyx), Ezx. reflexivity.
  - apply (ord_gt _ entry_compare_ordering) in Eyx.
    rewrite (ord_trans _ entry_compare_ordering z x y Ezx Eyx). reflexivity.
Qed.

(** No item left in the heap is smaller than the popped one. *)
Lemma heappop_min h : forall x rest,
  heappop h = Some (x, rest) -> forall y, y ∈ rest -> entry_ltb y x = false.
Proof.
  induction h as [|a h IH]; intros x rest H y Hy; [discriminate|].
  simpl in H. destruct (heappop h) as [[m r]|] eqn:E.
  - destruct (entry_ltb m a) eqn:Hma.
    + injection H as <- <-. apply elem_of_cons in Hy as [->|Hy].
      * apply entry_ltb_asym. exact Hma.
      * apply (IH m r eq_refl). exact Hy.
    + injection H as <- <-.
      apply (heappop_elem _ _ _ y E) in Hy as [->|Hy]; [exact Hma|].
      destruct (entry_ltb y a) eqn:Hya; [|reflexivity].
      pose proof (entry_ltb_chain y a m Hya Hma) as Hlt.
      pose proof (IH m r eq_refl y Hy) as Hge. congruence.
  - injection H as <- <-. inversion Hy.
Qed.

End AStarFacts.

(** ** Facts about the application *)

Module MainFacts.
Import Scores ScoresFacts Graphs GraphsFacts AStar Main.

(** [a_star_search] has no guard of its own: called with a start area that
    has no coordinates, it raises [KeyError] at its first lookup. *)
Remark a_star_search_unguarded haversine_distance G start_node end_node
    coords_map danger_scores fuel :
  coords_map !! start_node = None ->
  a_star_search haversine_distance G start_node end_node coords_map danger_scores fuel
    = Raise (KeyError start_node).
Proof. intros H. unfold a_star_search, getitem. rewrite H. reflexivity. Qed.

(** C2.  A query whose start area or end area is not a node of the
    requested city's graph is rejected before the search is attempted: the
    guard of [run_application] answers "Invalid start or end area", an
    outcome of its own, which is neither an exception nor the no-path
    answer. *)
Theorem missing_area_rejected haversine_distance t city G start_area end_area fuel :
  city_graphs t !! city = Some G ->
  (start_area ∉ nodes G) \/ (end_area ∉ nodes G) ->
  user_interaction haversine_distance t city start_area end_area fuel
    = Return InvalidArea /\
  InvalidArea <> NoPathFound /\
  forall path, InvalidArea <> PathFound path.
Proof.
  intros HG Hmiss. unfold user_interaction. rewrite HG.
  split; [|split; [discriminate | intros path; discriminate]].
  destruct Hmiss as [H|H].
  - rewrite (bool_decide_eq_false_2 _ H). reflexivity.
  - rewrite (bool_decide_eq_false_2 _ H), orb_true_r. reflexivity.
Qed.

(** The graph the builder makes over distinct names is complete in the sense
    the pathfinder needs. *)
Lemma complete_on_complete ns : NoDup ns -> complete_graph (complete_on ns).
Proof.
  intros Hnd. destruct (complete_on_spec ns Hnd) as [E1 E2].
  unfold complete_graph, nodes, neighbors. rewrite E1. split; [exact Hnd|].
  intros n Hn. exists (others n ns).
  rewrite E2, bool_decide_eq_true_2 by exact Hn.
  split; [reflexivity|]. split; [apply NoDup_others; exact Hnd|].
  intros m. apply elem_of_others.
Qed.

(** *** From the score frame to the graphs *)

Lemma geocoded_names_elem geocode c rows a :
  a ∈ area_names c (geocode_areas geocode rows) ->
  (c, a) ∈ map (fun r => (city r, area_name r)) rows.
Proof.
  unfold area_names, city_rows, geocode_areas.
  induction rows as [|r rows IH]; intros Hin; [inversion Hin|].
  cbn [omap list_omap map] in *.
  destruct (geocode (city r) (area_name r)) as [cd|]; cbn [mbind option_bind] in Hin.
  - cbn [List.filter profile] in Hin.
    destruct (String.eqb_spec (city r) c) as [E|E].
    + cbn [map profile] in Hin. apply elem_of_cons in Hin as [->|Hin].
      * rewrite <- E. left.
      * right. apply IH. exact Hin.
    + right. apply IH. exact Hin.
  - right. apply IH. exact Hin.
Qed.

Lemma geocoded_names_NoDup geocode c rows :
  NoDup (map (fun r => (city r, area_name r)) rows) ->
  NoDup (area_names c (geocode_areas geocode rows)).
Proof.
  induction rows as [|r rows IH]; intros Hnd; [constructor|].
  cbn [map] in Hnd. apply NoDup_cons in Hnd as [Hr Hnd].
  specialize (IH Hnd). revert IH.
  unfold area_names, city_rows, geocode_areas. cbn [omap list_omap].
  destruct (geocode (city r) (area_name r)) as [cd|]; cbn [mbind option_bind]; [|auto].
  cbn [List.filter profile].
  destruct (String.eqb_spec (city r) c) as [E|E]; [|auto].
  intros IH. cbn [map profile]. apply NoDup_cons. split; [|exact IH].
  intros Hin. apply Hr. rewrite E. apply (geocoded_names_elem geocode c rows). exact Hin.
Qed.

(** In the application, the areas of one city that reach the builder have
    distinct names. *)
Lemma pipeline_names_NoDup geocode data_df rows c :
  calculate_danger_scores data_df = Some rows ->
  NoDup (area_names c (geocode_areas geocode rows)).
Proof.
  intros H. apply geocoded_names_NoDup.
  rewrite (calculate_keys _ _ H). apply group_keys_NoDup.
Qed.

End MainFacts.

(** ** Concrete runs *)

Module Examples.
Import Scores ScoresFacts Graphs GraphsFacts AStar AStarFacts Main MainFacts.

Ltac by_compute :=
  match goal with
  | |- ?P => apply (@bool_decide_eq_true_1 P _); vm_compute; reflexivity
  end.

Definition ob (c a : string) (l u : Q) : observation :=
  {| o_city := c; o_area_name := a; o_lighting_quality_score := l; o_uptime_ratio := u |}.

(** Delhi: two areas with composites 0 and 1; Mumbai: two areas with
    composites 3/10 and 7/10; Kochi: a single area, with composite 3/10. *)
Definition three_cities : list observation :=
  [ ob "Delhi" "Saket" 5 1; ob "Delhi" "Rohini" 1 1; ob "Delhi" "Rohini" 1 1;
    ob "Mumbai" "Bandra" 2 1; ob "Mumbai" "Dadar" 4 1; ob "Mumbai" "Dadar" 4 1;
    ob "Kochi" "Edappally" 3 1 ].

(** The same records with other uptime ratios. *)
Definition three_cities_uptime : list observation :=
  [ ob "Delhi" "Saket" 5 0; ob "Delhi" "Rohini" 1 (1 # 2); ob "Delhi" "Rohini" 1 7;
    ob "Mumbai" "Bandra" 2 3; ob "Mumbai" "Dadar" 4 (9 # 10); ob "Mumbai" "Dadar" 4 0;
    ob "Kochi" "Edappally" 3 (1 # 3) ].

Example three_cities_scores :
  (map (fun r => (city r, area_name r, Qred (danger_score r))))
    <$> calculate_danger_scores three_cities =
  Some [ ("Delhi", "Rohini", 10); ("Delhi", "Saket", 1);
         ("Kochi", "Edappally", 37 # 10);
         ("Mumbai", "Bandra", 37 # 10); ("Mumbai", "Dadar", 73 # 10) ]%string.
Proof. vm_compute. reflexivity. Qed.

(** The claim C1 as the specification words it: scores in [1,10], the
    extremes 1 and 10 reached inside every city whose areas have different
    composites, and score 1 for the area of a single-area city. *)
Definition per_city_normalized (rows : list area_profile) : Prop :=
  (forall r, In r rows -> 1 <= danger_score r <= 10) /\
  (forall r1 r2, In r1 rows -> In r2 rows -> city r1 = city r2 ->
     ~ composite_of r1 == composite_of r2 ->
     (exists r, In r rows /\ city r = city r1 /\ danger_score r == 1) /\
     (exists r, In r rows /\ city r = city r1 /\ danger_score r == 10)) /\
  (forall r, In r rows -> (forall r', In r' rows -> city r' = city r -> r' = r) ->
     danger_score r == 1).

(** Counterexample to C1 as stated, on [three_cities]: Kochi has a single
    area, Edappally, and its danger score is 37/10, not 1; Mumbai has two
    areas with different composites, and their danger scores are 37/10 and
    73/10, so neither 1 nor 10 is reached inside Mumbai. *)
Lemma per_city_normalized_counterexample :
  exists rows, calculate_danger_scores three_cities = Some rows /\
    ~ per_city_normalized rows /\
    (exists r, In r rows /\ city r = "Kochi"%string /\
       (forall r', In r' rows -> city r' = city r -> r' = r) /\
       ~ danger_score r == 1) /\
    (exists r1 r2, In r1 rows /\ In r2 rows /\
       city r1 = "Mumbai"%string /\ city r2 = "Mumbai"%string /\
       ~ composite_of r1 == composite_of r2 /\
       forall r, In r rows -> city r = "Mumbai"%string ->
         ~ danger_score r == 1 /\ ~ danger_score r == 10).
Proof.
  eexists. split; [vm_compute; reflexivity|].
  match goal with
  | |- ~ per_city_normalized [?d1; ?d2; ?k; ?m1; ?m2] /\ _ =>
      assert (Hk : (forall r', In r' [d1; d2; k; m1; m2] -> city r' = city k -> r' = k)
                   /\ ~ danger_score k == 1);
      [| assert (Hm : (~ composite_of m1 == composite_of m2) /\
                      forall r, In r [d1; d2; k; m1; m2] -> city r = "Mumbai"%string ->
                        ~ danger_score r == 1 /\ ~ danger_score r == 10);
         [| split; [|split; [exists k | exists m1, m2]] ] ]
  end.
  - split.
    + intros r' Hin Hcity. simpl in Hin.
      destruct Hin as [<-|[<-|[<-|[<-|[<-|[]]]]]]; try reflexivity;
        vm_compute in Hcity; discriminate.
    + vm_compute. discriminate.
  - split.
    + vm_compute. discriminate.
    + intros r Hin Hcity. simpl in Hin.
      destruct Hin as [<-|[<-|[<-|[<-|[<-|[]]]]]];
        try (vm_compute in Hcity; discriminate);
        split; vm_compute; discriminate.
  - intros (_ & _ & Hsingle). destruct Hk as [Huniq Hbad].
    apply Hbad. apply Hsingle; [simpl; tauto | exact Huniq].
  - split; [simpl; tauto|]. split; [reflexivity|]. exact Hk.
  - split; [simpl; tauto|]. split; [simpl; tauto|].
    split; [reflexivity|]. split; [reflexivity|]. exact Hm.
Qed.

Lemma danger_score_ignores_uptime_witness :
  map without_uptime three_cities = map without_uptime three_cities_uptime /\
  (map (fun r => (city r, area_name r, danger_score r)))
    <$> calculate_danger_scores three_cities =
  (map (fun r => (city r, area_name r, danger_score r)))
    <$> calculate_danger_scores three_cities_uptime.
Proof.
  split; [reflexivity|].
  apply (danger_score_ignores_uptime three_cities three_cities_uptime). reflexivity.
Defined.

Definition geo (c a : string) (d lat lon : Q) : geocoded_area :=
  {| profile := {| city := c; area_name := a; crime_count := 1;
                   lighting_quality_score := 0; uptime_ratio := 0;
                   crime_norm := 0; lighting_inverted_norm := 0; danger_score := d |};
     coords := (lat, lon) |}.

Definition two_cities : list geocoded_area :=
  [ geo "Delhi" "Saket" 1 (2852 # 100) (7721 # 100);
    geo "Kochi" "Edappally" 1 (1002 # 100) (7630 # 100);
    geo "Delhi" "Rohini" 10 (2873 # 100) (7711 # 100);
    geo "Delhi" "Dwarka" 4 (2859 # 100) (7704 # 100) ].

Example two_cities_delhi :
  (fun G => (nodes G, edges G)) <$> city_graphs (build_city_graphs two_cities) !! "Delhi"%string =
  Some (["Saket"; "Rohini"; "Dwarka"],
        [("Saket", "Rohini"); ("Saket", "Dwarka"); ("Rohini", "Dwarka")])%string.
Proof. vm_compute. reflexivity. Qed.

Lemma build_city_graphs_complete_witness :
  NoDup (area_names "Delhi" two_cities) /\
  (1 <= length (area_names "Delhi" two_cities))%nat /\
  exists G, city_graphs (build_city_graphs two_cities) !! "Delhi"%string = Some G /\
    nodes G = area_names "Delhi" two_cities /\
    number_of_edges G = 3%nat.
Proof.
  assert (H1 : NoDup (area_names "Delhi" two_cities)) by by_compute.
  assert (H2 : (1 <= length (area_names "Delhi" two_cities))%nat) by (vm_compute; lia).
  split; [exact H1|]. split; [exact H2|].
  destruct (build_city_graphs_complete two_cities "Delhi" H1 H2)
    as (G & HG & Hn & He & _).
  exists G. split; [exact HG|]. split; [exact Hn | exact He].
Defined.

Lemma build_city_graphs_keys_witness :
  city_graphs (build_city_graphs two_cities) !! "Kochi"%string
    = Some (complete_on ["Edappally"%string]) /\
  exists cm dm,
    city_coords (build_city_graphs two_cities) !! "Kochi"%string = Some cm /\
    city_danger_scores (build_city_graphs two_cities) !! "Kochi"%string = Some dm /\
    forall n, (n ∈ nodes (complete_on ["Edappally"%string]) <-> is_Some (cm !! n)) /\
              (n ∈ nodes (complete_on ["Edappally"%string]) <-> is_Some (dm !! n)).
Proof.
  assert (H : city_graphs (build_city_graphs two_cities) !! "Kochi"%string
              = Some (complete_on ["Edappally"%string])) by (vm_compute; reflexivity).
  split; [exact H|].
  exact (build_city_graphs_keys two_cities "Kochi" _ H).
Defined.

(** The toy graph of the specification. *)
Definition toy : graph := complete_on ["A"; "B"; "C"]%string.

Definition toy_coords : gmap string coord :=
  <["A"%string := (0, 0)]> (<["B"%string := (1, 1)]> (<["C"%string := (2, 0)]> ∅)).

Definition toy_scores : gmap string Q :=
  <["A"%string := 1]> (<["B"%string := 5]> (<["C"%string := 2]> ∅)).

(** A stand-in for the haversine distance on small examples: the squared
    straight-line distance, which is never negative and is 0 from a point to
    itself. *)
Definition flat_distance (a b : coord) : Q :=
  (a.1 - b.1) * (a.1 - b.1) + (a.2 - b.2) * (a.2 - b.2).

Lemma Qsquare_nonneg (z : Q) : 0 <= z * z.
Proof. unfold Qle, Qmult. simpl. nia. Qed.

Lemma flat_distance_nonneg a b : 0 <= flat_distance a b.
Proof.
  unfold flat_distance.
  pose proof (Qsquare_nonneg (a.1 - b.1)). pose proof (Qsquare_nonneg (a.2 - b.2)). lra.
Qed.

Lemma flat_distance_self a : flat_distance a a == 0.
Proof. unfold flat_distance. ring. Qed.

Lemma toy_complete : complete_graph toy.
Proof. apply complete_on_complete. by_compute. Qed.

Lemma toy_nodes : nodes toy = ["A"; "B"; "C"]%string.
Proof. vm_compute. reflexivity. Qed.

Lemma toy_has_coords : forall n, n ∈ nodes toy -> is_Some (toy_coords !! n).
Proof.
  intros n Hn. rewrite toy_nodes in Hn.
  repeat (apply elem_of_cons in Hn as [->|Hn]); try (vm_compute; eauto).
  inversion Hn.
Qed.

Lemma toy_has_scores :
  forall n, n ∈ nodes toy -> exists d, toy_scores !! n = Some d /\ 0 < d.
Proof.
  intros n Hn. rewrite toy_nodes in Hn.
  repeat (apply elem_of_cons in Hn as [->|Hn]);
    try (eexists; split; [vm_compute; reflexivity | reflexivity]).
  inversion Hn.
Qed.

Example toy_run :
  a_star_search flat_distance toy "A" "C" toy_coords toy_scores 5 = Return (Some ["A"; "C"]%string).
Proof. vm_compute. reflexivity. Qed.

(** A city with a single area. *)
Definition lone : graph := complete_on ["Edappally"%string].

Definition lone_coords : gmap string coord :=
  <["Edappally"%string := (1002 # 100, 7630 # 100)]> ∅.

Definition lone_scores : gmap string Q := <["Edappally"%string := 1]> ∅.

Lemma a_star_search_single_node_witness :
  nodes lone = ["Edappally"%string] /\
  lone_coords !! "Edappally"%string = Some (1002 # 100, 7630 # 100) /\
  a_star_search flat_distance lone "Edappally" "Edappally" lone_coords lone_scores 1
    = Return (Some ["Edappally"%string]) /\
  path_cost lone_scores ["Edappally"%string] = 0.
Proof.
  split; [reflexivity|]. split; [reflexivity|].
  apply (a_star_search_single_node flat_distance lone "Edappally" lone_coords
           lone_scores (1002 # 100, 7630 # 100) 0); reflexivity.
Defined.

Lemma missing_area_rejected_witness :
  city_graphs (build_city_graphs two_cities) !! "Delhi"%string
    = Some (complete_on ["Saket"; "Rohini"; "Dwarka"]%string) /\
  ("Saket"%string ∉ nodes (complete_on ["Saket"; "Rohini"; "Dwarka"]%string) \/
   "Edappally"%string ∉ nodes (complete_on ["Saket"; "Rohini"; "Dwarka"]%string)) /\
  user_interaction flat_distance (build_city_graphs two_cities)
    "Delhi" "Saket" "Edappally" 10 = Return InvalidArea.
Proof.
  assert (H1 : city_graphs (build_city_graphs two_cities) !! "Delhi"%string
               = Some (complete_on ["Saket"; "Rohini"; "Dwarka"]%string))
    by (vm_compute; reflexivity).
  assert (H2 : "Saket"%string ∉ nodes (complete_on ["Saket"; "Rohini"; "Dwarka"]%string) \/
               "Edappally"%string ∉ nodes (complete_on ["Saket"; "Rohini"; "Dwarka"]%string))
    by (right; by_compute).
  split; [exact H1|]. split; [exact H2|].
  exact (proj1 (missing_area_rejected flat_distance (build_city_graphs two_cities)
                  "Delhi" _ "Saket" "Edappally" 10 H1 H2)).
Defined.

Example application_run :
  run_application flat_distance (fun _ _ => Some (0, 0)) (Some three_cities)
    "Delhi" "Saket" "Rohini" 10 = Return (PathFound ["Saket"; "Rohini"]%string).
Proof. vm_compute. reflexivity. Qed.

Example application_rejects :
  run_application flat_distance (fun _ _ => Some (0, 0)) (Some three_cities)
    "Delhi" "Saket" "Bandra" 10 = Return InvalidArea.
Proof. vm_compute. reflexivity. Qed.

Example pathfinder_alone_raises :
  a_star_search flat_distance toy "D" "A" toy_coords toy_scores 10
    = Raise (KeyError "D").
Proof. vm_compute. reflexivity. Qed.

End Examples.

(** ** The pathfinder on arbitrary graphs *)

Module SearchFacts.
Import Graphs AStar AStarFacts.

(** The shape of a [networkx] graph: the nodes are the keys of the
    adjacency, and every neighbour is a node. *)
Definition well_formed (G : graph) : Prop :=
  (forall n, n ∈ nodes G <-> is_Some (neighbors G n)) /\
  (forall n l m, neighbors G n = Some l -> m ∈ l -> m ∈ nodes G).

(** There is a path from [a] to [b] along edges of the graph. *)
Definition connected (G : graph) (a b : string) : Prop :=
  exists p, head p = Some a /\ last p = Some b /\ is_path G p.

Section Relax.

Variable haversine_distance : coord -> coord -> Q.
Variable end_node : string.
Variable coords_map : gmap string coord.
Variable danger_scores : gmap string Q.

(** What one relaxation can do: nothing, or one push with the three
    updates of the tables. *)
Lemma relax_cases g c st nb st' :
  relax haversine_distance end_node coords_map danger_scores g c st nb = Return st' ->
  exists d x, danger_scores !! nb = Some d /\ g_score st !! nb = Some x /\
    ((lt_ext (g + d) x = false /\ st' = st) \/
     (lt_ext (g + d) x = true /\ exists f,
        st' = {| open_set := (f, g + d, nb) :: open_set st;
                 came_from := <[nb := c]> (came_from st);
                 g_score := <[nb := Finite (g + d)]> (g_score st);
                 f_score := <[nb := Finite f]> (f_score st) |})).
Proof.
  unfold relax, getitem. intros H.
  destruct (danger_scores !! nb) as [d|]; [|discriminate]. cbn [mbind outcome_bind] in H.
  destruct (g_score st !! nb) as [x|]; [|discriminate]. cbn [mbind outcome_bind] in H.
  exists d, x. split; [reflexivity|]. split; [reflexivity|].
  destruct (lt_ext (g + d) x).
  - right. split; [reflexivity|].
    destruct (coords_map !! nb) as [cn|]; [|discriminate]. cbn [mbind outcome_bind] in H.
    destruct (coords_map !! end_node) as [ce|]; [|discriminate].
    cbn [mbind outcome_bind heappush] in H. injection H as <-.
    eexists. reflexivity.
  - left. split; [reflexivity|]. injection H as <-. reflexivity.
Qed.

End Relax.

Section General.

Variable haversine_distance : coord -> coord -> Q.
Variable G : graph.
Variables start_node end_node : string.
Variable coords_map : gmap string coord.
Variable danger_scores : gmap string Q.

Hypothesis Hwf : well_formed G.
Hypothesis Hstart : start_node ∈ nodes G.
Hypothesis Hend : end_node ∈ nodes G.
Hypothesis Hcoords : forall n, n ∈ nodes G -> is_Some (coords_map !! n).
Hypothesis Hdanger : forall n, n ∈ nodes G ->
  exists d, danger_scores !! n = Some d /\ 0 < d.

Local Notation search_inv := (search_inv G start_node danger_scores).
Local Notation tracked := (tracked G start_node danger_scores).
Local Notation measure_le := (measure_le G danger_scores).
Local Notation lex_lt := (lex_lt G danger_scores).
Local Notation relax := (relax haversine_distance end_node coords_map danger_scores).
Local Notation relax_all :=
  (relax_all haversine_distance end_node coords_map danger_scores).

(** The node has been reached: its best known cost is a number. *)
Definition discovered (st : search_state) (n : string) : Prop :=
  exists g, g_score st !! n = Some (Finite g).

Definition in_frontier (st : search_state) (n : string) : Prop :=
  exists f g, (f, g, n) ∈ open_set st.

(** From [st] to [st']: the frontier only gains items, discovered nodes stay
    discovered, and a node discovered in between is in the frontier. *)
Definition grows (st st' : search_state) : Prop :=
  (forall e, e ∈ open_set st -> e ∈ open_set st') /\
  (forall n, discovered st n -> discovered st' n) /\
  (forall n, discovered st' n -> discovered st n \/ in_frontier st' n).

Lemma grows_refl st : grows st st.
Proof. repeat split; auto. Qed.

Lemma grows_trans st1 st2 st3 : grows st1 st2 -> grows st2 st3 -> grows st1 st3.
Proof.
  intros (A1 & A2 & A3) (B1 & B2 & B3). repeat split; auto.
  intros n H. destruct (B3 n H) as [H2|H2]; [|right; exact H2].
  destruct (A3 n H2) as [H1|(f & g & He)]; [left; exact H1|].
  right. exists f, g. auto.
Qed.

(** A self-loop never improves the node it leaves. *)
Lemma relax_self st g c :
  search_inv st -> tracked st g c -> relax g c st c = Return st.
Proof.
  intros Hinv (Hc & Hs & _ & gc & Hgc & Hle).
  destruct (Hdanger c Hc) as (d & Hd & Hpos).
  apply (relax_keeps _ _ _ _ _ _ _ _ d (Finite gc) Hd Hgc).
  simpl. destruct (Qcompare_spec (g + d) gc); try reflexivity. lra.
Qed.

Lemma relax_gen st g c nb :
  search_inv st -> tracked st g c ->
  nb ∈ nodes G -> (exists l, neighbors G c = Some l /\ nb ∈ l) ->
  exists st',
    relax g c st nb = Return st' /\
    search_inv st' /\ tracked st' g c /\ measure_le st st' /\
    grows st st' /\ discovered st' nb.
Proof.
  intros Hinv Hcur Hnb Hadj.
  assert (Hstep : exists st', relax g c st nb = Return st' /\
            search_inv st' /\ tracked st' g c /\ measure_le st st').
  { destruct (decide (nb = c)) as [->|Hne].
    - exists st. split; [apply relax_self; assumption|].
      split; [exact Hinv|]. split; [exact Hcur | apply measure_le_refl].
    - destruct (relax_inv haversine_distance G start_node end_node coords_map
                  danger_scores Hend Hcoords Hdanger st g c nb Hinv Hcur Hnb Hne Hadj)
        as (st' & H1 & H2 & H3 & H4 & _).
      exists st'. auto. }
  destruct Hstep as (st' & Hrel & Hinv' & Hcur' & Hm).
  exists st'. split; [exact Hrel|]. split; [exact Hinv'|]. split; [exact Hcur'|].
  split; [exact Hm|].
  destruct (relax_cases _ _ _ _ _ _ _ _ _ Hrel) as (d & x & Hd & Hx & Hcase).
  destruct Hcase as [[Hlt ->]|[Hlt (f & ->)]].
  - split; [apply grows_refl|].
    destruct x as [gx|]; [exists gx; exact Hx | discriminate].
  - split.
    + split; [|split]; unfold discovered, in_frontier; cbn [open_set g_score].
      * intros e He. right. exact He.
      * intros n (gn & Hgn). destruct (decide (n = nb)) as [->|Hn].
        -- eexists. apply lookup_insert_eq.
        -- exists gn. rewrite lookup_insert_ne by congruence. exact Hgn.
      * intros n (gn & Hgn). destruct (decide (n = nb)) as [->|Hn].
        -- right. exists f, (g + d). left.
        -- left. exists gn.
           rewrite lookup_insert_ne in Hgn by congruence. exact Hgn.
    + eexists. unfold discovered. cbn [g_score]. apply lookup_insert_eq.
Qed.

Lemma relax_all_gen g c nbrs : forall st,
  search_inv st -> tracked st g c ->
  (forall nb, nb ∈ nbrs -> nb ∈ nodes G /\ exists l, neighbors G c = Some l /\ nb ∈ l) ->
  exists st',
    relax_all g c st nbrs = Return st' /\
    search_inv st' /\ measure_le st st' /\ grows st st' /\
    forall nb, nb ∈ nbrs -> discovered st' nb.
Proof.
  induction nbrs as [|nb rest IH]; intros st Hinv Hcur Hnbrs.
  - exists st. split; [reflexivity|]. split; [exact Hinv|].
    split; [apply measure_le_refl|]. split; [apply grows_refl|].
    intros nb Hnb. inversion Hnb.
  - destruct (Hnbrs nb) as (Hnb & Hadj); [left|].
    destruct (relax_gen st g c nb Hinv Hcur Hnb Hadj)
      as (st1 & Hrel & Hinv1 & Hcur1 & Hm1 & Hg1 & Hd1).
    destruct (IH st1 Hinv1 Hcur1) as (st2 & Hall & Hinv2 & Hm2 & Hg2 & Hd2).
    { intros x Hx. apply Hnbrs. right. exact Hx. }
    exists st2. cbn [AStar.relax_all]. rewrite Hrel. cbn [mbind outcome_bind].
    split; [exact Hall|]. split; [exact Hinv2|].
    split; [eapply measure_le_trans; eauto|].
    split; [eapply grows_trans; eauto|].
    intros x Hx. apply elem_of_cons in Hx as [->|Hx]; [|apply Hd2; exact Hx].
    destruct Hg2 as (_ & Hkeep & _). apply Hkeep. exact Hd1.
Qed.

(** Every discovered node is waiting in the frontier, or has been expanded,
    so that all its neighbours are discovered. *)
Definition closed_inv (st : search_state) : Prop :=
  forall n, discovered st n ->
    in_frontier st n \/
    forall l m, neighbors G n = Some l -> m ∈ l -> discovered st m.

(** The end node stays in the frontier from its discovery on. *)
Definition end_inv (st : search_state) : Prop :=
  discovered st end_node -> in_frontier st end_node.

Lemma expand_gen st f g c rest :
  search_inv st -> closed_inv st -> end_inv st ->
  heappop (open_set st) = Some ((f, g, c), rest) -> c <> end_node ->
  exists nbrs st',
    neighbors G c = Some nbrs /\
    relax_all g c (popped st rest) nbrs = Return st' /\
    search_inv st' /\ closed_inv st' /\ end_inv st' /\ lex_lt st' st.
Proof.
  intros Hinv Hclosed Hendinv Hpop Hne.
  assert (Hin : (f, g, c) ∈ open_set st)
    by (apply (heappop_elem _ _ _ _ Hpop); left; reflexivity).
  pose proof (inv_open _ _ _ st Hinv f g c Hin) as Hcur.
  assert (Hinvp : search_inv (popped st rest)).
  { split; unfold AStarFacts.tracked, popped; cbn [open_set came_from g_score f_score].
    - intros f' g' n Hn. apply (inv_open _ _ _ st Hinv f' g' n).
      apply (heappop_elem _ _ _ _ Hpop). right. exact Hn.
    - apply (inv_score _ _ _ st Hinv).
    - apply (inv_start _ _ _ st Hinv).
    - apply (inv_from _ _ _ st Hinv). }
  destruct Hwf as [Hkeys Hnbr].
  assert (Hc : c ∈ nodes G) by apply Hcur.
  destruct (proj1 (Hkeys c) Hc) as [l Hl].
  destruct (relax_all_gen g c l (popped st rest) Hinvp Hcur)
    as (st' & Hall & Hinv' & Hm & (Hopen & Hkeep & Hnew) & Hdisc).
  { intros nb Hnb. split; [eapply Hnbr; eauto|]. exists l. auto. }
  exists l, st'. split; [exact Hl|]. split; [exact Hall|]. split; [exact Hinv'|].
  assert (Hrest : forall n, n <> c -> in_frontier st n -> in_frontier st' n).
  { intros n Hn (f' & g' & He). exists f', g'. apply Hopen. unfold popped. cbn [open_set].
    apply (heappop_elem _ _ _ _ Hpop) in He as [[= _ _ E]|He]; [congruence | exact He]. }
  split; [|split].
  - intros n Hn. destruct (Hnew n Hn) as [Hold|Hfr]; [|left; exact Hfr].
    destruct (decide (n = c)) as [->|Hnc].
    + right. intros l' m Hl' Hm'. rewrite Hl in Hl'. injection Hl' as <-.
      apply Hdisc. exact Hm'.
    + destruct (Hclosed n Hold) as [Hfr|Hexp].
      * left. apply Hrest; assumption.
      * right. intros l' m Hl' Hm'. apply Hkeep. unfold popped, discovered. cbn [g_score].
        apply (Hexp l' m Hl' Hm').
  - intros Hd. destruct (Hnew _ Hd) as [Hold|Hfr]; [|exact Hfr].
    apply Hrest; [congruence|]. apply Hendinv. exact Hold.
  - pose proof (heappop_length _ _ _ Hpop) as Hlen.
    unfold AStarFacts.measure_le in Hm. unfold AStarFacts.lex_lt.
    change (inf_count G (popped st rest)) with (inf_count G st) in Hm.
    change (rank_sum G danger_scores (popped st rest))
      with (rank_sum G danger_scores st) in Hm.
    change (length (open_set (popped st rest))) with (length rest) in Hm.
    lia.
Qed.

(** *** The walk along the predecessor links visits no node twice *)

Lemma walk_back_simple st : search_inv st ->
  forall fuel cur path r,
    cur ∈ nodes G ->
    walk_back fuel (came_from st) cur path = Return r ->
    exists chain, r = path ++ chain /\ NoDup chain /\
      forall x, x ∈ chain ->
        is_Some (came_from st !! x) /\
        exists gx gc, g_score st !! x = Some (Finite gx) /\
                      g_score st !! cur = Some (Finite gc) /\ gx <= gc.
Proof.
  intros Hinv. induction fuel as [|fuel IH]; intros cur path r Hcur Hwalk.
  - simpl in Hwalk. destruct (came_from st !! cur); [discriminate|].
    injection Hwalk as <-. exists []. rewrite app_nil_r.
    split; [reflexivity|]. split; [constructor|]. intros x Hx. inversion Hx.
  - simpl in Hwalk. destruct (came_from st !! cur) as [prev|] eqn:Hcf.
    2:{ injection Hwalk as <-. exists []. rewrite app_nil_r.
        split; [reflexivity|]. split; [constructor|]. intros x Hx. inversion Hx. }
    destruct (inv_from _ _ _ st Hinv cur prev Hcf)
      as (_ & Hprev & _ & gn & gc & Hgn & Hgc & Hlt & _).
    destruct (IH prev (path ++ [cur]) r Hprev Hwalk) as (chain & -> & Hnd & Hall).
    exists (cur :: chain). rewrite <- app_assoc. split; [reflexivity|]. split.
    + apply NoDup_cons. split; [|exact Hnd].
      intros Hin. destruct (Hall cur Hin) as (_ & gx & gc' & Hgx & Hgc' & Hle).
      rewrite Hgn in Hgx. injection Hgx as <-.
      rewrite Hgc in Hgc'. injection Hgc' as <-. lra.
    + intros x Hx. apply elem_of_cons in Hx as [->|Hx].
      * split; [rewrite Hcf; eexists; reflexivity|].
        exists gn, gn. split; [exact Hgn|]. split; [exact Hgn | lra].
      * destruct (Hall x Hx) as (Hsome & gx & gc' & Hgx & Hgc' & Hle).
        split; [exact Hsome|]. rewrite Hgc in Hgc'. injection Hgc' as <-.
        exists gx, gn. split; [exact Hgx|]. split; [exact Hgn | lra].
Qed.

Lemma reconstruct_simple st rfuel path :
  search_inv st ->
  reconstruct start_node rfuel (came_from st) end_node = Return path ->
  NoDup path.
Proof.
  intros Hinv Hrec. unfold reconstruct in Hrec.
  destruct (walk_back rfuel (came_from st) end_node []) as [r| |] eqn:Hwalk;
    try discriminate.
  cbn [mbind outcome_bind] in Hrec. injection Hrec as <-.
  destruct (walk_back_simple st Hinv rfuel end_node [] r Hend Hwalk)
    as (chain & -> & Hnd & Hall).
  cbn [app]. apply NoDup_ListNoDup, List.NoDup_rev, NoDup_ListNoDup. apply NoDup_app. split; [exact Hnd|].
  split; [|apply NoDup_singleton].
  intros x Hx Hs. apply list_elem_of_singleton in Hs. subst x.
  destruct (Hall _ Hx) as [[v Hv] _].
  destruct (inv_start _ _ _ st Hinv) as [_ Hnone]. congruence.
Qed.

(** *** Termination, soundness and completeness of the loop *)

Lemma exhausted_unreachable st :
  search_inv st -> closed_inv st -> end_inv st -> open_set st = [] ->
  ~ connected G start_node end_node.
Proof.
  intros Hinv Hclosed Hendinv Hempty (p & Hhead & Hlast & Hpath).
  assert (Hnofr : forall n, ~ in_frontier st n).
  { intros n (f & g & He). rewrite Hempty in He. inversion He. }
  assert (Hall : forall q a, head q = Some a -> discovered st a -> is_path G q ->
                   forall x, x ∈ q -> discovered st x).
  { induction q as [|y q IH]; intros a Hh Ha Hp x Hx; [inversion Hx|].
    simpl in Hh. injection Hh as ->.
    apply elem_of_cons in Hx as [->|Hx]; [exact Ha|].
    destruct q as [|z q]; [inversion Hx|].
    cbn [is_path] in Hp. destruct Hp as [(l & Hl & Hz) Hp].
    apply (IH z eq_refl); [|exact Hp|exact Hx].
    destruct (Hclosed a Ha) as [Hfr|Hexp]; [destruct (Hnofr _ Hfr)|].
    apply (Hexp l z Hl Hz). }
  apply (Hnofr end_node). apply Hendinv.
  apply (Hall p start_node Hhead); [|exact Hpath|].
  - exists 0. apply (inv_start _ _ _ st Hinv).
  - destruct p as [|y p]; [discriminate|].
    apply (last_Some_elem_of _ _ Hlast).
Qed.

Lemma search_loop_total : forall a b c st,
  inf_count G st = a -> rank_sum G danger_scores st = b ->
  length (open_set st) = c ->
  search_inv st -> closed_inv st -> end_inv st ->
  exists fuel rfuel r,
    search_loop haversine_distance G start_node end_node coords_map danger_scores
      rfuel fuel st = Return r /\
    (forall p, r = Some p -> good_path G start_node p end_node /\ NoDup p) /\
    (r = None -> ~ connected G start_node end_node).
Proof.
  intros a. induction a as [a IHa] using lt_wf_ind.
  intros b. induction b as [b IHb] using lt_wf_ind.
  intros c. induction c as [c IHc] using lt_wf_ind.
  intros st Ha Hb Hc Hinv Hclosed Hendinv.
  destruct (heappop (open_set st)) as [[[[f g] cur] rest]|] eqn:Hpop.
  2:{ apply heappop_nil in Hpop. exists 1%nat, 0%nat, None.
      split; [simpl; rewrite Hpop; reflexivity|].
      split; [intros p Hp; discriminate|].
      intros _. apply (exhausted_unreachable st); assumption. }
  destruct (decide (cur = end_node)) as [->|Hne].
  - assert (Hin : (f, g, end_node) ∈ open_set st)
      by (apply (heappop_elem _ _ _ _ Hpop); left; reflexivity).
    destruct (reconstruct_inv G start_node end_node danger_scores st g Hinv
                (inv_open _ _ _ st Hinv f g end_node Hin))
      as (rfuel & path & Hrec & Hgood).
    exists 1%nat, rfuel, (Some path). split; [|split].
    + erewrite search_loop_found; [|exact Hpop]. rewrite Hrec. reflexivity.
    + intros p [= <-]. split; [exact Hgood|].
      apply (reconstruct_simple st rfuel path Hinv Hrec).
    + discriminate.
  - destruct (expand_gen st f g cur rest Hinv Hclosed Hendinv Hpop Hne)
      as (nbrs & st' & Hn & Hall & Hinv' & Hclosed' & Hendinv' & Hlex).
    assert (Hrec : exists fuel rfuel r,
               search_loop haversine_distance G start_node end_node coords_map
                 danger_scores rfuel fuel st' = Return r /\
               (forall p, r = Some p -> good_path G start_node p end_node /\ NoDup p) /\
               (r = None -> ~ connected G start_node end_node)).
    { destruct Hlex as [H|[[H1 H2]|(H1 & H2 & H3)]].
      - apply (IHa (inf_count G st')) with (b := rank_sum G danger_scores st')
          (c := length (open_set st')); auto. lia.
      - apply (IHb (rank_sum G danger_scores st')) with (c := length (open_set st'));
          auto; lia.
      - apply (IHc (length (open_set st'))); auto; lia. }
    destruct Hrec as (fuel & rfuel & r & Hloop & Hsome & Hnone).
    exists (S fuel), rfuel, r. split; [|split; assumption].
    rewrite (search_loop_expand _ _ _ _ _ _ _ _ _ f g cur rest nbrs Hpop Hne Hn).
    rewrite Hall. exact Hloop.
Qed.

Lemma initial_closed cs ce :
  let st0 := {| open_set := heappush [] (0, 0, start_node);
                came_from := ∅;
                g_score := <[start_node := Finite 0]> (all_infinite (nodes G));
                f_score := <[start_node := Finite (haversine_distance cs ce)]>
                             (all_infinite (nodes G)) |} in
  closed_inv st0 /\ end_inv st0.
Proof.
  intros st0.
  assert (H : forall n, discovered st0 n -> in_frontier st0 n).
  { intros n (g & Hg). unfold st0 in Hg. cbn [g_score] in Hg.
    destruct (decide (n = start_node)) as [->|Hn].
    - exists 0, 0. unfold st0. cbn [open_set heappush]. left.
    - rewrite lookup_insert_ne, all_infinite_lookup in Hg by congruence.
      case_bool_decide; discriminate. }
  split; [intros n Hn; left; apply H; exact Hn | intros Hd; apply H; exact Hd].
Qed.

(** The outcome of [a_star_search] on a well-formed graph. *)
Lemma a_star_search_total :
  exists fuel r,
    (forall fuel', (fuel <= fuel')%nat ->
       a_star_search haversine_distance G start_node end_node coords_map danger_scores
         fuel' = Return r) /\
    (forall p, r = Some p -> good_path G start_node p end_node /\ NoDup p) /\
    (r = None -> ~ connected G start_node end_node).
Proof.
  destruct (Hcoords start_node Hstart) as [cs Hcs].
  destruct (Hcoords end_node Hend) as [ce Hce].
  destruct (initial_inv haversine_distance G start_node end_node danger_scores
              Hstart Hend cs ce) as [Hinv _].
  destruct (initial_closed cs ce) as [Hclosed Hendinv].
  destruct (search_loop_total _ _ _ _ eq_refl eq_refl eq_refl Hinv Hclosed Hendinv)
    as (fuel & rfuel & r & Hloop & Hsome & Hnone).
  exists (Nat.max fuel rfuel), r. split; [|split; assumption].
  intros fuel' Hle. unfold a_star_search, getitem. rewrite Hcs, Hce.
  cbn [mbind outcome_bind].
  apply (search_loop_mono _ _ _ _ _ _ rfuel fuel' fuel fuel');
    [exact Hloop | discriminate | lia | lia].
Qed.

End General.

(** *** On a complete graph the search returns the direct path *)

Section Direct.

Variable haversine_distance : coord -> coord -> Q.
Variable G : graph.
Variables start_node end_node : string.
Variable coords_map : gmap string coord.
Variable danger_scores : gmap string Q.
Variable d_end : Q.

Hypothesis Hcomplete : complete_graph G.
Hypothesis Hstart : start_node ∈ nodes G.
Hypothesis Hend : end_node ∈ nodes G.
Hypothesis Hcoords : forall n, n ∈ nodes G -> is_Some (coords_map !! n).
Hypothesis Hdanger : forall n, n ∈ nodes G ->
  exists d, danger_scores !! n = Some d /\ 0 < d.
Hypothesis Hdistinct : start_node <> end_node.
Hypothesis Hd_end : danger_scores !! end_node = Some d_end.

Local Notation search_inv := (search_inv G start_node danger_scores).
Local Notation tracked := (tracked G start_node danger_scores).
Local Notation relax := (relax haversine_distance end_node coords_map danger_scores).
Local Notation relax_all :=
  (relax_all haversine_distance end_node coords_map danger_scores).

(** The only items for the start node are the initial one, of cost 0. *)
Definition start_cheap (st : search_state) : Prop :=
  forall f g n, (f, g, n) ∈ open_set st -> n = start_node -> g <= 0.

(** The end node has been reached from the start node, at the cost of the
    end node alone. *)
Definition end_direct (st : search_state) : Prop :=
  came_from st !! end_node = Some start_node /\
  exists ge, g_score st !! end_node = Some (Finite ge) /\ ge <= d_end.

Definition direct_pre (st : search_state) (c : string) (g : Q) : Prop :=
  (g_score st !! end_node = Some Infinity /\ c = start_node /\ g <= 0) \/
  end_direct st.

Definition direct_inv (st : search_state) : Prop :=
  start_cheap st /\
  ((g_score st !! end_node = Some Infinity /\
    forall f g n, (f, g, n) ∈ open_set st -> n = start_node) \/
   end_direct st).

Lemma relax_direct st g c nb st' :
  search_inv st -> tracked st g c -> nb ∈ nodes G ->
  start_cheap st -> direct_pre st c g ->
  relax g c st nb = Return st' ->
  start_cheap st' /\ direct_pre st' c g /\ (nb = end_node -> end_direct st').
Proof.
  intros Hinv (Hc & Hs & _) Hnb Hcheap Hpre Hrel.
  assert (Hg : 0 <= g) by (eapply scaled_nonneg; exact Hs).
  destruct (relax_cases _ _ _ _ _ _ _ _ _ Hrel) as (d & x & Hd & Hx & Hcase).
  destruct (Hdanger nb Hnb) as (d' & Hd' & Hpos). rewrite Hd in Hd'. injection Hd' as <-.
  destruct Hcase as [[Hlt ->]|[Hlt (f & ->)]].
  - split; [exact Hcheap|]. split; [exact Hpre|].
    intros ->. destruct Hpre as [(Hinf & _)|Hdir]; [|exact Hdir].
    rewrite Hinf in Hx. injection Hx as <-. discriminate.
  - apply lt_ext_true in Hlt.
    assert (Hnbs : nb <> start_node).
    { intros ->. destruct (inv_start _ _ _ st Hinv) as [E _].
      rewrite E in Hx. injection Hx as <-.
      destruct Hlt as [?|(g0 & [= <-] & Hlt)]; [discriminate | lra]. }
    split; [|split].
    + intros f' g' n Hin Hn. cbn [open_set] in Hin.
      apply elem_of_cons in Hin as [[= _ _ ->]|Hin]; [contradiction|].
      eapply Hcheap; eauto.
    + unfold direct_pre, end_direct. cbn [came_from g_score].
      destruct (decide (nb = end_node)) as [->|Hne].
      * right. rewrite !lookup_insert_eq.
        rewrite Hd_end in Hd. injection Hd as <-.
        destruct Hpre as [(_ & -> & Hg0)|(_ & ge & Hge & Hle)].
        -- split; [reflexivity|]. exists (g + d_end). split; [reflexivity | lra].
        -- rewrite Hge in Hx. injection Hx as <-.
           destruct Hlt as [?|(g0 & [= <-] & Hlt)]; [discriminate | lra].
      * rewrite !lookup_insert_ne by congruence. exact Hpre.
    + intros ->. unfold end_direct. cbn [came_from g_score].
      rewrite !lookup_insert_eq. rewrite Hd_end in Hd. injection Hd as <-.
      destruct Hpre as [(_ & -> & Hg0)|(_ & ge & Hge & Hle)].
      * split; [reflexivity|]. exists (g + d_end). split; [reflexivity | lra].
      * rewrite Hge in Hx. injection Hx as <-.
        destruct Hlt as [?|(g0 & [= <-] & Hlt)]; [discriminate | lra].
Qed.

Lemma end_direct_stays st g c nb st' :
  search_inv st -> tracked st g c -> nb ∈ nodes G ->
  start_cheap st -> end_direct st ->
  relax g c st nb = Return st' -> end_direct st'.
Proof.
  intros Hinv Hcur Hnb Hcheap Hdir Hrel.
  destruct (relax_direct st g c nb st' Hinv Hcur Hnb Hcheap (or_intror Hdir) Hrel)
    as (_ & [(Hinf & _)|H] & Hend'); [|exact H].
  destruct (decide (nb = end_node)) as [E|E]; [apply Hend'; exact E|].
  destruct (relax_cases _ _ _ _ _ _ _ _ _ Hrel) as (d & x & _ & _ & Hcase).
  destruct Hdir as (_ & ge & Hge & _).
  destruct Hcase as [[_ ->]|[_ (f & ->)]].
  - rewrite Hge in Hinf. discriminate.
  - cbn [g_score] in Hinf. rewrite lookup_insert_ne in Hinf by congruence.
    rewrite Hge in Hinf. discriminate.
Qed.

Lemma relax_all_direct g c nbrs : forall st st',
  search_inv st -> tracked st g c ->
  (forall nb, nb ∈ nbrs ->
     nb ∈ nodes G /\ nb <> c /\ exists l, neighbors G c = Some l /\ nb ∈ l) ->
  start_cheap st -> direct_pre st c g ->
  relax_all g c st nbrs = Return st' ->
  start_cheap st' /\ direct_pre st' c g /\
  (end_direct st \/ end_node ∈ nbrs -> end_direct st').
Proof.
  induction nbrs as [|nb rest IH]; intros st st' Hinv Hcur Hnbrs Hcheap Hpre Hall.
  - simpl in Hall. injection Hall as <-. split; [exact Hcheap|]. split; [exact Hpre|].
    intros [H|H]; [exact H | inversion H].
  - destruct (Hnbrs nb) as (Hnb & Hne & Hadj); [left|].
    destruct (relax_inv haversine_distance G start_node end_node coords_map danger_scores
                Hend Hcoords Hdanger st g c nb Hinv Hcur Hnb Hne Hadj)
      as (st1 & Hrel & Hinv1 & Hcur1 & _).
    cbn [AStar.relax_all] in Hall. rewrite Hrel in Hall. cbn [mbind outcome_bind] in Hall.
    destruct (relax_direct st g c nb st1 Hinv Hcur Hnb Hcheap Hpre Hrel)
      as (Hcheap1 & Hpre1 & Hend1).
    destruct (IH st1 st' Hinv1 Hcur1) as (Hcheap' & Hpre' & Hend'); auto.
    { intros x Hx. apply Hnbrs. right. exact Hx. }
    split; [exact Hcheap'|]. split; [exact Hpre'|].
    intros [Hdir|Hin]; apply Hend'.
    + left. exact (end_direct_stays st g c nb st1 Hinv Hcur Hnb Hcheap Hdir Hrel).
    + apply elem_of_cons in Hin as [E|Hin]; [left; apply Hend1; congruence | right; exact Hin].
Qed.

Lemma search_loop_direct rfuel fuel : forall st p,
  search_inv st -> reach end_node st -> direct_inv st ->
  search_loop haversine_distance G start_node end_node coords_map danger_scores
    rfuel fuel st = Return (Some p) ->
  p = [start_node; end_node].
Proof.
  induction fuel as [|fuel IH]; intros st p Hinv Hreach [Hcheap Hdir] Hloop;
    [discriminate|].
  destruct (heappop (open_set st)) as [[[[f g] cur] rest]|] eqn:Hpop.
  2:{ simpl in Hloop. rewrite Hpop in Hloop. discriminate. }
  assert (Hin : (f, g, cur) ∈ open_set st)
    by (apply (heappop_elem _ _ _ _ Hpop); left; reflexivity).
  destruct (decide (cur = end_node)) as [->|Hne].
  - erewrite search_loop_found in Hloop; [|exact Hpop].
    destruct Hdir as [(_ & Hall)|(Hcf & _)].
    { exfalso. apply Hdistinct. symmetry. eapply Hall; eauto. }
    destruct (inv_start _ _ _ st Hinv) as [_ Hnone].
    unfold reconstruct in Hloop. destruct rfuel as [|rfuel]; simpl in Hloop.
    + rewrite Hcf in Hloop. discriminate.
    + rewrite Hcf in Hloop. destruct rfuel; simpl in Hloop; rewrite Hnone in Hloop;
        simpl in Hloop; congruence.
  - destruct (expand_inv haversine_distance G start_node end_node coords_map danger_scores
                Hcomplete Hend Hcoords Hdanger st f g cur rest Hinv Hreach Hpop Hne)
      as (nbrs & st' & Hn & Hall & Hinv' & Hreach' & _).
    rewrite (search_loop_expand _ _ _ _ _ _ _ _ _ f g cur rest nbrs Hpop Hne Hn) in Hloop.
    rewrite Hall in Hloop. cbn [mbind outcome_bind] in Hloop.
    apply (IH st' p Hinv' Hreach'); [|exact Hloop].
    pose proof (inv_open _ _ _ st Hinv f g cur Hin) as Hcur.
    assert (Hinvp : search_inv (popped st rest)).
    { split; unfold AStarFacts.tracked, popped; cbn [open_set came_from g_score f_score].
      - intros f' g' n Hn'. apply (inv_open _ _ _ st Hinv f' g' n).
        apply (heappop_elem _ _ _ _ Hpop). right. exact Hn'.
      - apply (inv_score _ _ _ st Hinv).
      - apply (inv_start _ _ _ st Hinv).
      - apply (inv_from _ _ _ st Hinv). }
    destruct Hcomplete as [_ Hadj].
    destruct (Hadj cur) as (l & Hl & _ & Hmem); [apply Hcur|].
    rewrite Hl in Hn. injection Hn as <-.
    destruct (relax_all_direct g cur l (popped st rest) st' Hinvp Hcur)
      as (Hcheap' & _ & Hend'); auto.
    + intros nb Hnb. pose proof (proj1 (Hmem nb) Hnb) as [H1 H2].
      split; [exact H1|]. split; [exact H2|]. exists l. auto.
    + intros f' g' n Hn' E. apply (Hcheap f' g' n); [|exact E].
      apply (heappop_elem _ _ _ _ Hpop). right. exact Hn'.
    + destruct Hdir as [(Hinf & Hall')|Hd]; [left | right; exact Hd].
      split; [exact Hinf|]. split; [eapply Hall'; eauto|].
      apply (Hcheap f g cur Hin). eapply Hall'; eauto.
    + split; [exact Hcheap'|]. right. apply Hend'. right.
      apply Hmem. split; [exact Hend | congruence].
Qed.

Lemma initial_direct cs ce :
  direct_inv {| open_set := heappush [] (0, 0, start_node);
                came_from := ∅;
                g_score := <[start_node := Finite 0]> (all_infinite (nodes G));
                f_score := <[start_node := Finite (haversine_distance cs ce)]>
                             (all_infinite (nodes G)) |}.
Proof.
  split; [|left; split]; cbn [open_set g_score heappush].
  - intros f g n Hin _. apply list_elem_of_singleton in Hin. injection Hin as _ -> _. lra.
  - rewrite lookup_insert_ne, all_infinite_lookup by exact Hdistinct.
    rewrite bool_decide_eq_true_2 by exact Hend. reflexivity.
  - intros f g n Hin. apply list_elem_of_singleton in Hin. congruence.
Qed.

Lemma search_loop_direct_run cs ce :
  exists fuel rfuel,
    search_loop haversine_distance G start_node end_node coords_map danger_scores
      rfuel fuel
      {| open_set := heappush [] (0, 0, start_node);
         came_from := ∅;
         g_score := <[start_node := Finite 0]> (all_infinite (nodes G));
         f_score := <[start_node := Finite (haversine_distance cs ce)]>
                      (all_infinite (nodes G)) |}
    = Return (Some [start_node; end_node]).
Proof.
  destruct (initial_inv haversine_distance G start_node end_node danger_scores
              Hstart Hend cs ce) as [Hinv Hreach].
  destruct (search_loop_terminates haversine_distance G start_node end_node
              coords_map danger_scores Hcomplete Hend Hcoords Hdanger
              _ _ _ _ eq_refl eq_refl eq_refl Hinv Hreach)
    as (fuel & rfuel & path & Hloop & _).
  exists fuel, rfuel. rewrite Hloop. do 2 f_equal.
  exact (search_loop_direct rfuel fuel _ path Hinv Hreach (initial_direct cs ce) Hloop).
Qed.

End Direct.

(** X2.  On a well-formed graph in which start and end are nodes and every
    node has coordinates and a strictly positive danger score, a path
    returned by [a_star_search] starts at the start node, ends at the end
    node, follows edges of the graph and visits no node twice. *)
Theorem a_star_search_sound haversine_distance G start_node end_node
    coords_map danger_scores fuel p :
  well_formed G -> start_node ∈ nodes G -> end_node ∈ nodes G ->
  (forall n, n ∈ nodes G -> is_Some (coords_map !! n)) ->
  (forall n, n ∈ nodes G -> exists d, danger_scores !! n = Some d /\ 0 < d) ->
  a_star_search haversine_distance G start_node end_node coords_map danger_scores fuel
    = Return (Some p) ->
  head p = Some start_node /\ last p = Some end_node /\ is_path G p /\ NoDup p.
Proof.
  intros Hwf Hstart Hend Hcoords Hdanger Hret.
  destruct (a_star_search_total haversine_distance G start_node end_node coords_map
              danger_scores Hwf Hstart Hend Hcoords Hdanger)
    as (fuel0 & r & Hrun & Hsome & _).
  apply (a_star_search_mono _ _ _ _ _ _ _ (Nat.max fuel fuel0)) in Hret;
    [|discriminate|lia].
  rewrite Hrun in Hret by lia. injection Hret as ->.
  destruct (Hsome p eq_refl) as [(H1 & H2 & H3) H4]. auto.
Qed.

End SearchFacts.

(** ** Facts about the pathfinder with its library calls *)

Module PathfinderFacts.
Import Graphs AStar AStarFacts SearchFacts.

Local Notation Returned := Pathfinder.Returned.
Local Notation Raised := Pathfinder.Raised.
Local Notation NoFuel := Pathfinder.NoFuel.
Local Notation ValueError := Pathfinder.ValueError.
Local Notation LookupError := Pathfinder.LookupError.
Local Notation lift := Pathfinder.lift.
Local Notation call := Pathfinder.call.
Local Notation heapq := Pathfinder.heapq.

Lemma lift_bind {A B} (m : outcome A) (f : A -> outcome B) :
  lift (m ≫= f) = lift m ≫= (fun a => lift (f a)).
Proof. destruct m; reflexivity. Qed.

(** The heap of [AStar] is one implementation of [heapq]. *)
Lemma heappop_least h x rest y :
  heappop h = Some (x, rest) -> y ∈ h -> entry_ltb y x = false.
Proof.
  intros Hpop Hy. apply (heappop_elem _ _ _ y Hpop) in Hy as [->|Hy].
  - unfold entry_ltb.
    pose proof (ord_antisym _ entry_compare_ordering x x) as H.
    destruct (entry_compare x x); simpl in H; congruence.
  - exact (heappop_min h x rest Hpop y Hy).
Qed.

Lemma heapq_reference : heapq heappush heappop.
Proof.
  split.
  - intros h x. reflexivity.
  - apply heappop_nil.
  - intros h x rest. apply heappop_perm.
  - apply heappop_least.
Qed.

Section Refine.

Variable h : coord -> coord -> Q.
Variable G : graph.
Variables start_node end_node : string.
Variable coords_map : gmap string coord.
Variable danger_scores : gmap string Q.

Let total (a b : coord) : option Q := Some (h a b).

(** With a heuristic that always returns and the heap of [AStar], the
    pathfinder is the search of [AStar]. *)
Lemma relax_refines g c st nb :
  Pathfinder.relax heappush total end_node coords_map danger_scores g c st nb
  = lift (relax h end_node coords_map danger_scores g c st nb).
Proof.
  unfold Pathfinder.relax, relax, getitem.
  destruct (danger_scores !! nb) as [d|]; [|reflexivity]. cbn [mbind Pathfinder.run_bind outcome_bind Pathfinder.lift].
  destruct (g_score st !! nb) as [x|]; [|reflexivity]. cbn [mbind Pathfinder.run_bind outcome_bind Pathfinder.lift].
  destruct (lt_ext (g + d) x); [|reflexivity].
  destruct (coords_map !! nb) as [cn|]; [|reflexivity]. cbn [mbind Pathfinder.run_bind outcome_bind Pathfinder.lift].
  destruct (coords_map !! end_node) as [ce|]; reflexivity.
Qed.

Lemma relax_all_refines g c nbrs : forall st,
  Pathfinder.relax_all heappush total end_node coords_map danger_scores g c st nbrs
  = lift (relax_all h end_node coords_map danger_scores g c st nbrs).
Proof.
  induction nbrs as [|nb nbrs IH]; intros st; [reflexivity|].
  cbn [Pathfinder.relax_all relax_all]. rewrite relax_refines.
  destruct (relax h end_node coords_map danger_scores g c st nb) as [st'| |];
    cbn [mbind Pathfinder.run_bind outcome_bind Pathfinder.lift]; [apply IH | reflexivity..].
Qed.

Lemma search_loop_refines rfuel fuel : forall st,
  Pathfinder.search_loop heappush heappop total G start_node end_node coords_map
    danger_scores rfuel fuel st
  = lift (search_loop h G start_node end_node coords_map danger_scores rfuel fuel st).
Proof.
  induction fuel as [|fuel IH]; intros st; [reflexivity|].
  cbn [Pathfinder.search_loop search_loop].
  destruct (heappop (open_set st)) as [[[[f g] cur] rest]|]; [|reflexivity].
  destruct (String.eqb cur end_node).
  - destruct (reconstruct start_node rfuel _ cur); reflexivity.
  - destruct (neighbors G cur) as [nbrs|]; [|reflexivity].
    rewrite relax_all_refines.
    destruct (relax_all h end_node coords_map danger_scores g cur _ nbrs) as [st'| |];
      cbn [mbind Pathfinder.run_bind outcome_bind Pathfinder.lift]; [apply IH | reflexivity..].
Qed.

Lemma a_star_search_refines fuel :
  Pathfinder.a_star_search heappush heappop total G start_node end_node coords_map
    danger_scores fuel
  = lift (a_star_search h G start_node end_node coords_map danger_scores fuel).
Proof.
  unfold Pathfinder.a_star_search, a_star_search, getitem.
  destruct (coords_map !! start_node) as [cs|]; [|reflexivity].
  cbn [mbind Pathfinder.run_bind outcome_bind Pathfinder.lift].
  destruct (coords_map !! end_node) as [ce|]; [|reflexivity].
  cbn [mbind Pathfinder.run_bind outcome_bind Pathfinder.lift Pathfinder.call].
  apply search_loop_refines.
Qed.

End Refine.

(** The search calls the heuristic on the coordinates of the map only, with
    those of the end node as second argument. *)
Definition agree_on (coords_map : gmap string coord) (end_node : string)
    (h1 h2 : coord -> coord -> option Q) : Prop :=
  forall n c ce,
    coords_map !! n = Some c -> coords_map !! end_node = Some ce -> h1 c ce = h2 c ce.

Lemma relax_heuristic push h1 h2 end_node coords_map danger_scores g c st nb :
  agree_on coords_map end_node h1 h2 ->
  Pathfinder.relax push h1 end_node coords_map danger_scores g c st nb
  = Pathfinder.relax push h2 end_node coords_map danger_scores g c st nb.
Proof.
  intros Hagree. unfold Pathfinder.relax, getitem.
  destruct (danger_scores !! nb) as [d|]; [|reflexivity]. cbn [mbind Pathfinder.run_bind Pathfinder.lift].
  destruct (g_score st !! nb) as [x|]; [|reflexivity]. cbn [mbind Pathfinder.run_bind Pathfinder.lift].
  destruct (lt_ext (g + d) x); [|reflexivity].
  destruct (coords_map !! nb) as [cn|] eqn:Hn; [|reflexivity]. cbn [mbind Pathfinder.run_bind Pathfinder.lift].
  destruct (coords_map !! end_node) as [ce|] eqn:He; [|reflexivity].
  cbn [mbind Pathfinder.run_bind Pathfinder.lift].
  rewrite (Hagree nb cn ce Hn He). reflexivity.
Qed.

Lemma relax_all_heuristic push h1 h2 end_node coords_map danger_scores g c nbrs :
  agree_on coords_map end_node h1 h2 -> forall st,
  Pathfinder.relax_all push h1 end_node coords_map danger_scores g c st nbrs
  = Pathfinder.relax_all push h2 end_node coords_map danger_scores g c st nbrs.
Proof.
  intros Hagree. induction nbrs as [|nb nbrs IH]; intros st; [reflexivity|].
  cbn [Pathfinder.relax_all]. rewrite (relax_heuristic push h1 h2) by exact Hagree.
  destruct (Pathfinder.relax push h2 end_node coords_map danger_scores g c st nb);
    cbn [mbind Pathfinder.run_bind]; [apply IH | reflexivity..].
Qed.

Lemma search_loop_heuristic push pop h1 h2 G start_node end_node coords_map
    danger_scores rfuel fuel :
  agree_on coords_map end_node h1 h2 -> forall st,
  Pathfinder.search_loop push pop h1 G start_node end_node coords_map danger_scores
    rfuel fuel st
  = Pathfinder.search_loop push pop h2 G start_node end_node coords_map danger_scores
      rfuel fuel st.
Proof.
  intros Hagree. induction fuel as [|fuel IH]; intros st; [reflexivity|].
  cbn [Pathfinder.search_loop].
  destruct (pop (open_set st)) as [[[[f g] cur] rest]|]; [|reflexivity].
  destruct (String.eqb cur end_node); [reflexivity|].
  destruct (neighbors G cur) as [nbrs|]; [|reflexivity].
  rewrite (relax_all_heuristic push h1 h2) by exact Hagree.
  destruct (Pathfinder.relax_all push h2 end_node coords_map danger_scores g cur _ nbrs);
    cbn [mbind Pathfinder.run_bind]; [apply IH | reflexivity..].
Qed.

Lemma a_star_search_heuristic push pop h1 h2 G start_node end_node coords_map
    danger_scores fuel :
  agree_on coords_map end_node h1 h2 ->
  Pathfinder.a_star_search push pop h1 G start_node end_node coords_map danger_scores fuel
  = Pathfinder.a_star_search push pop h2 G start_node end_node coords_map danger_scores
      fuel.
Proof.
  intros Hagree. unfold Pathfinder.a_star_search, getitem.
  destruct (coords_map !! start_node) as [cs|] eqn:Hs; [|reflexivity].
  cbn [mbind Pathfinder.run_bind Pathfinder.lift].
  destruct (coords_map !! end_node) as [ce|] eqn:He; [|reflexivity].
  cbn [mbind Pathfinder.run_bind Pathfinder.lift].
  rewrite (Hagree start_node cs ce Hs He).
  destruct (h2 cs ce); cbn [mbind Pathfinder.run_bind Pathfinder.call]; [|reflexivity].
  apply search_loop_heuristic. exact Hagree.
Qed.

(** A domain error of the heuristic on the coordinates of start and end
    leaves the search at once, before the loop: whatever the heap, the
    graph, the danger scores and the fuel. *)
Lemma a_star_search_value_error push pop h G start_node end_node coords_map
    danger_scores cs ce fuel :
  coords_map !! start_node = Some cs -> coords_map !! end_node = Some ce ->
  h cs ce = None ->
  Pathfinder.a_star_search push pop h G start_node end_node coords_map danger_scores fuel
  = Raised ValueError.
Proof.
  intros Hs He Hh. unfold Pathfinder.a_star_search, getitem. rewrite Hs, He.
  cbn [mbind Pathfinder.run_bind Pathfinder.lift]. rewrite Hh. reflexivity.
Qed.

(** Two runs whose heaps hold the same items, in any layout, and whose
    tables are the same. *)
Definition same_items (st1 st2 : search_state) : Prop :=
  open_set st1 ≡ₚ open_set st2 /\ came_from st1 = came_from st2 /\
  g_score st1 = g_score st2 /\ f_score st1 = f_score st2.

(** No item of the heap has a smaller cost than the one recorded for its
    node. *)
Definition recorded (st : search_state) : Prop :=
  forall f g n, (f, g, n) ∈ open_set st ->
    exists gs, g_score st !! n = Some (Finite gs) /\ gs <= g.

(** Two items of the heap that compare equal are the same tuple: the three
    components (f, g, node) leave no tie to the layout of the heap. *)
Definition no_tie (st : search_state) : Prop :=
  forall x y, x ∈ open_set st -> y ∈ open_set st -> entry_compare x y = Eq -> x = y.

Lemma entry_compare_eq_parts (x y : entry) :
  entry_compare x y = Eq -> x.1.2 == y.1.2 /\ x.2 = y.2.
Proof.
  unfold entry_compare. intros H.
  destruct (Qcompare x.1.1 y.1.1); try discriminate.
  destruct (x.1.2 ?= y.1.2) eqn:E; try discriminate.
  split; [apply Qeq_alt; exact E|].
  apply String.compare_eq_iff. exact H.
Qed.

Lemma entry_compare_sym_eq (x y : entry) : entry_compare x y = Eq -> entry_compare y x = Eq.
Proof.
  intros H. rewrite (ord_antisym _ entry_compare_ordering y x), H. reflexivity.
Qed.

Lemma lt_ext_finite q g : lt_ext q (Finite g) = true -> q < g.
Proof.
  unfold lt_ext. destruct (q ?= g) eqn:E; try discriminate. intros _.
  apply Qlt_alt. exact E.
Qed.

(** How two results of the same step in the two runs are related. *)
Definition related {A} (R : A -> A -> Prop) (r1 r2 : Pathfinder.run A) : Prop :=
  match r1, r2 with
  | Returned a, Returned b => R a b
  | Raised e1, Raised e2 => e1 = e2
  | _, _ => False
  end.

Definition good_pair (st1 st2 : search_state) : Prop :=
  same_items st1 st2 /\ recorded st1 /\ no_tie st1.

Section Layout.

Variable push1 push2 : list entry -> entry -> list entry.
Variable pop1 pop2 : list entry -> option (entry * list entry).
Hypothesis Hheap1 : heapq push1 pop1.
Hypothesis Hheap2 : heapq push2 pop2.

Variable h : coord -> coord -> option Q.
Variable G : graph.
Variables start_node end_node : string.
Variable coords_map : gmap string coord.
Variable danger_scores : gmap string Q.

Lemma relax_layout g c st1 st2 nb :
  good_pair st1 st2 ->
  related good_pair
    (Pathfinder.relax push1 h end_node coords_map danger_scores g c st1 nb)
    (Pathfinder.relax push2 h end_node coords_map danger_scores g c st2 nb).
Proof.
  intros [(Hopen & Hcf & Hg & Hf) [Hrec Htie]].
  unfold Pathfinder.relax, getitem. rewrite <- Hg, <- Hcf, <- Hf.
  destruct (danger_scores !! nb) as [d|]; [|reflexivity].
  cbn [mbind Pathfinder.run_bind Pathfinder.lift].
  destruct (g_score st1 !! nb) as [x|] eqn:Hx; [|reflexivity].
  cbn [mbind Pathfinder.run_bind Pathfinder.lift].
  destruct (lt_ext (g + d) x) eqn:Hlt.
  2:{ cbn [related]. repeat split; assumption. }
  destruct (coords_map !! nb) as [cn|]; [|reflexivity].
  cbn [mbind Pathfinder.run_bind Pathfinder.lift].
  destruct (coords_map !! end_node) as [ce|]; [|reflexivity].
  cbn [mbind Pathfinder.run_bind Pathfinder.lift].
  destruct (h cn ce) as [v|]; [|reflexivity].
  cbn [mbind Pathfinder.run_bind Pathfinder.call related].
  assert (Hnew : forall y, y ∈ open_set st1 ->
            entry_compare (g + d + v, g + d, nb) y = Eq -> False).
  { intros [[f' g'] n'] Hy Heq. apply entry_compare_eq_parts in Heq as [Hq Hn].
    cbn [fst snd] in Hq, Hn. subst n'.
    destruct (Hrec f' g' nb Hy) as (gs & Hgs & Hle).
    rewrite Hx in Hgs. injection Hgs as ->.
    apply lt_ext_finite in Hlt. lra. }
  split; [|split].
  - unfold same_items. cbn [open_set came_from g_score f_score].
    split; [|auto].
    rewrite (Pathfinder.push_items _ _ Hheap1), (Pathfinder.push_items _ _ Hheap2), Hopen.
    reflexivity.
  - intros f' g' n' Hin. cbn [open_set g_score] in *.
    rewrite (Pathfinder.push_items _ _ Hheap1) in Hin.
    apply elem_of_cons in Hin as [[= -> -> ->]|Hin].
    + exists (g + d). rewrite lookup_insert_eq. split; [reflexivity | lra].
    + destruct (Hrec f' g' n' Hin) as (gs & Hgs & Hle).
      destruct (decide (n' = nb)) as [->|Hne].
      * exists (g + d). rewrite lookup_insert_eq. split; [reflexivity|].
        rewrite Hx in Hgs. injection Hgs as ->.
        apply lt_ext_finite in Hlt. lra.
      * exists gs. rewrite lookup_insert_ne by congruence. auto.
  - intros y z Hy Hz Heq. cbn [open_set] in *.
    rewrite (Pathfinder.push_items _ _ Hheap1) in Hy, Hz.
    apply elem_of_cons in Hy as [->|Hy]; apply elem_of_cons in Hz as [->|Hz].
    + reflexivity.
    + exfalso. exact (Hnew z Hz Heq).
    + exfalso. exact (Hnew y Hy (entry_compare_sym_eq _ _ Heq)).
    + exact (Htie y z Hy Hz Heq).
Qed.

Lemma relax_all_layout g c nbrs : forall st1 st2,
  good_pair st1 st2 ->
  related good_pair
    (Pathfinder.relax_all push1 h end_node coords_map danger_scores g c st1 nbrs)
    (Pathfinder.relax_all push2 h end_node coords_map danger_scores g c st2 nbrs).
Proof.
  induction nbrs as [|nb nbrs IH]; intros st1 st2 Hgood; [exact Hgood|].
  cbn [Pathfinder.relax_all].
  pose proof (relax_layout g c st1 st2 nb Hgood) as Hstep.
  destruct (Pathfinder.relax push1 h end_node coords_map danger_scores g c st1 nb)
    as [a| |];
    destruct (Pathfinder.relax push2 h end_node coords_map danger_scores g c st2 nb)
    as [b| |]; cbn [related] in Hstep; try contradiction;
    cbn [mbind Pathfinder.run_bind].
  - apply IH. exact Hstep.
  - exact Hstep.
Qed.

(** The two heaps give the same item, and what they keep are the same
    items. *)
Lemma pop_layout st1 st2 :
  good_pair st1 st2 ->
  match pop1 (open_set st1), pop2 (open_set st2) with
  | None, None => True
  | Some (x1, r1), Some (x2, r2) => x1 = x2 /\ r1 ≡ₚ r2
  | _, _ => False
  end.
Proof.
  intros [(Hopen & _) [_ Htie]].
  destruct (pop1 (open_set st1)) as [[x1 r1]|] eqn:E1;
    destruct (pop2 (open_set st2)) as [[x2 r2]|] eqn:E2.
  - pose proof (Pathfinder.pop_items _ _ Hheap1 _ _ _ E1) as P1.
    pose proof (Pathfinder.pop_items _ _ Hheap2 _ _ _ E2) as P2.
    assert (H1 : x1 ∈ open_set st1) by (rewrite P1; left).
    assert (H2 : x2 ∈ open_set st1) by (rewrite Hopen, P2; left).
    assert (L1 : entry_ltb x2 x1 = false)
      by exact (Pathfinder.pop_least _ _ Hheap1 _ _ _ x2 E1 H2).
    assert (L2 : entry_ltb x1 x2 = false).
    { apply (Pathfinder.pop_least _ _ Hheap2 _ _ _ x1 E2). rewrite <- Hopen. exact H1. }
    assert (Heq : entry_compare x1 x2 = Eq).
    { unfold entry_ltb in L1, L2.
      pose proof (ord_antisym _ entry_compare_ordering x1 x2) as Ha.
      destruct (entry_compare x1 x2), (entry_compare x2 x1);
        simpl in Ha; congruence. }
    pose proof (Htie x1 x2 H1 H2 Heq) as <-. split; [reflexivity|].
    apply (Permutation_cons_inv (a := x1)). rewrite <- P1, <- P2. exact Hopen.
  - apply (Pathfinder.pop_empty _ _ Hheap2) in E2.
    pose proof (Pathfinder.pop_items _ _ Hheap1 _ _ _ E1) as P1.
    rewrite Hopen, E2 in P1. apply Permutation_nil_cons in P1. exact P1.
  - apply (Pathfinder.pop_empty _ _ Hheap1) in E1.
    pose proof (Pathfinder.pop_items _ _ Hheap2 _ _ _ E2) as P2.
    rewrite <- Hopen, E1 in P2. apply Permutation_nil_cons in P2. exact P2.
  - exact I.
Qed.

Lemma search_loop_layout rfuel1 rfuel2 fuel1 : forall fuel2 st1 st2 r1 r2,
  good_pair st1 st2 ->
  Pathfinder.search_loop push1 pop1 h G start_node end_node coords_map danger_scores
    rfuel1 fuel1 st1 = r1 ->
  Pathfinder.search_loop push2 pop2 h G start_node end_node coords_map danger_scores
    rfuel2 fuel2 st2 = r2 ->
  r1 <> NoFuel -> r2 <> NoFuel -> r1 = r2.
Proof.
  induction fuel1 as [|fuel1 IH]; intros fuel2 st1 st2 r1 r2 Hgood H1 H2 N1 N2.
  { simpl in H1. congruence. }
  destruct fuel2 as [|fuel2]; [simpl in H2; congruence|].
  cbn [Pathfinder.search_loop] in H1, H2.
  pose proof (pop_layout st1 st2 Hgood) as Hpop.
  destruct Hgood as [(Hopen & Hcf & Hg & Hf) [Hrec Htie]].
  destruct (pop1 (open_set st1)) as [[[[f g] cur] rest1]|] eqn:E1;
    destruct (pop2 (open_set st2)) as [[x2 rest2]|] eqn:E2; try contradiction.
  2:{ congruence. }
  destruct Hpop as [<- Hrest].
  cbn [came_from] in H1, H2. rewrite <- Hcf in H2.
  destruct (String.eqb cur end_node).
  - destruct (reconstruct start_node rfuel1 (came_from st1) cur) as [p1|e1|] eqn:R1;
      destruct (reconstruct start_node rfuel2 (came_from st1) cur) as [p2|e2|] eqn:R2;
      cbn [mbind Pathfinder.run_bind Pathfinder.lift] in H1, H2; try congruence;
      apply (reconstruct_mono _ _ (Nat.max rfuel1 rfuel2)) in R1; try discriminate; try lia;
      apply (reconstruct_mono _ _ (Nat.max rfuel1 rfuel2)) in R2; try discriminate; try lia;
      rewrite R1 in R2; congruence.
  - destruct (neighbors G cur) as [nbrs|]; [|congruence].
    pose proof (Pathfinder.pop_items _ _ Hheap1 _ _ _ E1) as P1.
    assert (Hgood' : good_pair
              {| open_set := rest1; came_from := came_from st1;
                 g_score := g_score st1; f_score := f_score st1 |}
              {| open_set := rest2; came_from := came_from st1;
                 g_score := g_score st2; f_score := f_score st2 |}).
    { split; [|split].
      - unfold same_items. cbn [open_set came_from g_score f_score]. auto.
      - intros f' g' n' Hin. cbn [open_set g_score] in *.
        apply (Hrec f' g' n'). rewrite P1. right. exact Hin.
      - intros y z Hy Hz. cbn [open_set] in *.
        apply Htie; rewrite P1; right; assumption. }
    pose proof (relax_all_layout g cur nbrs _ _ Hgood') as Hstep.
    destruct (Pathfinder.relax_all push1 h end_node coords_map danger_scores g cur _ nbrs)
      as [a| |];
      destruct (Pathfinder.relax_all push2 h end_node coords_map danger_scores g cur _ nbrs)
      as [b| |]; cbn [related] in Hstep; try contradiction;
      cbn [mbind Pathfinder.run_bind] in H1, H2.
    + exact (IH fuel2 a b r1 r2 Hstep H1 H2 N1 N2).
    + congruence.
Qed.

Lemma a_star_search_layout fuel1 fuel2 r1 r2 :
  Pathfinder.a_star_search push1 pop1 h G start_node end_node coords_map danger_scores
    fuel1 = r1 ->
  Pathfinder.a_star_search push2 pop2 h G start_node end_node coords_map danger_scores
    fuel2 = r2 ->
  r1 <> NoFuel -> r2 <> NoFuel -> r1 = r2.
Proof.
  unfold Pathfinder.a_star_search, getitem. intros H1 H2 N1 N2.
  destruct (coords_map !! start_node) as [cs|]; [|cbn in *; congruence].
  cbn [mbind Pathfinder.run_bind Pathfinder.lift] in H1, H2.
  destruct (coords_map !! end_node) as [ce|]; [|cbn in *; congruence].
  cbn [mbind Pathfinder.run_bind Pathfinder.lift] in H1, H2.
  destruct (h cs ce) as [v|]; [|cbn in *; congruence].
  cbn [mbind Pathfinder.run_bind Pathfinder.call] in H1, H2.
  refine (search_loop_layout fuel1 fuel2 fuel1 fuel2 _ _ r1 r2 _ H1 H2 N1 N2).
  assert (P1 : push1 [] (0, 0, start_node) ≡ₚ [(0, 0, start_node)])
    by apply (Pathfinder.push_items _ _ Hheap1).
  assert (P2 : push2 [] (0, 0, start_node) ≡ₚ [(0, 0, start_node)])
    by apply (Pathfinder.push_items _ _ Hheap2).
  split; [|split].
  - unfold same_items. cbn [open_set came_from g_score f_score].
    rewrite P1, P2. auto.
  - intros f' g' n' Hin. cbn [open_set g_score] in *. rewrite P1 in Hin.
    apply list_elem_of_singleton in Hin as [= -> -> ->].
    exists 0. rewrite lookup_insert_eq. split; [reflexivity | lra].
  - intros y z Hy Hz _. cbn [open_set] in *. rewrite P1 in Hy, Hz.
    apply list_elem_of_singleton in Hy, Hz. congruence.
Qed.

Lemma search_loop_layout_same rfuel fuel : forall st1 st2,
  good_pair st1 st2 ->
  Pathfinder.search_loop push1 pop1 h G start_node end_node coords_map danger_scores
    rfuel fuel st1
  = Pathfinder.search_loop push2 pop2 h G start_node end_node coords_map danger_scores
      rfuel fuel st2.
Proof.
  induction fuel as [|fuel IH]; intros st1 st2 Hgood; [reflexivity|].
  cbn [Pathfinder.search_loop].
  pose proof (pop_layout st1 st2 Hgood) as Hpop.
  destruct Hgood as [(Hopen & Hcf & Hg & Hf) [Hrec Htie]].
  destruct (pop1 (open_set st1)) as [[[[f g] cur] rest1]|] eqn:E1;
    destruct (pop2 (open_set st2)) as [[x2 rest2]|] eqn:E2; try contradiction.
  2:{ reflexivity. }
  destruct Hpop as [<- Hrest].
  cbn [came_from]. rewrite <- Hcf.
  destruct (String.eqb cur end_node); [reflexivity|].
  destruct (neighbors G cur) as [nbrs|]; [|reflexivity].
  pose proof (Pathfinder.pop_items _ _ Hheap1 _ _ _ E1) as P1.
  assert (Hgood' : good_pair
            {| open_set := rest1; came_from := came_from st1;
               g_score := g_score st1; f_score := f_score st1 |}
            {| open_set := rest2; came_from := came_from st1;
               g_score := g_score st2; f_score := f_score st2 |}).
  { split; [|split].
    - unfold same_items. cbn [open_set came_from g_score f_score]. auto.
    - intros f' g' n' Hin. cbn [open_set g_score] in *.
      apply (Hrec f' g' n'). rewrite P1. right. exact Hin.
    - intros y z Hy Hz. cbn [open_set] in *.
      apply Htie; rewrite P1; right; assumption. }
  pose proof (relax_all_layout g cur nbrs _ _ Hgood') as Hstep.
  destruct (Pathfinder.relax_all push1 h end_node coords_map danger_scores g cur _ nbrs)
    as [a| |];
    destruct (Pathfinder.relax_all push2 h end_node coords_map danger_scores g cur _ nbrs)
    as [b| |]; cbn [related] in Hstep; try contradiction;
    cbn [mbind Pathfinder.run_bind].
  - exact (IH a b Hstep).
  - congruence.
Qed.

Lemma initial_good_pair v :
  good_pair
    {| open_set := push1 [] (0, 0, start_node); came_from := ∅;
       g_score := <[start_node := Finite 0]> (all_infinite (nodes G));
       f_score := <[start_node := Finite v]> (all_infinite (nodes G)) |}
    {| open_set := push2 [] (0, 0, start_node); came_from := ∅;
       g_score := <[start_node := Finite 0]> (all_infinite (nodes G));
       f_score := <[start_node := Finite v]> (all_infinite (nodes G)) |}.
Proof.
  assert (P1 : push1 [] (0, 0, start_node) ≡ₚ [(0, 0, start_node)])
    by apply (Pathfinder.push_items _ _ Hheap1).
  assert (P2 : push2 [] (0, 0, start_node) ≡ₚ [(0, 0, start_node)])
    by apply (Pathfinder.push_items _ _ Hheap2).
  split; [|split].
  - unfold same_items. cbn [open_set came_from g_score f_score].
    rewrite P1, P2. auto.
  - intros f' g' n' Hin. cbn [open_set g_score] in *. rewrite P1 in Hin.
    apply list_elem_of_singleton in Hin as [= -> -> ->].
    exists 0. rewrite lookup_insert_eq. split; [reflexivity | lra].
  - intros y z Hy Hz _. cbn [open_set] in *. rewrite P1 in Hy, Hz.
    apply list_elem_of_singleton in Hy, Hz. congruence.
Qed.

Lemma a_star_search_layout_same fuel :
  Pathfinder.a_star_search push1 pop1 h G start_node end_node coords_map danger_scores fuel
  = Pathfinder.a_star_search push2 pop2 h G start_node end_node coords_map danger_scores
      fuel.
Proof.
  unfold Pathfinder.a_star_search, getitem.
  destruct (coords_map !! start_node) as [cs|]; [|reflexivity].
  cbn [mbind Pathfinder.run_bind Pathfinder.lift].
  destruct (coords_map !! end_node) as [ce|]; [|reflexivity].
  cbn [mbind Pathfinder.run_bind Pathfinder.lift].
  destruct (h cs ce) as [v|]; [|reflexivity].
  cbn [mbind Pathfinder.run_bind Pathfinder.call].
  apply search_loop_layout_same, initial_good_pair.
Qed.

End Layout.

(** The heuristic evaluates, without a domain error, on the coordinates the
    search can pass to it. *)
Definition evaluates (coords_map : gmap string coord) (end_node : string)
    (h : coord -> coord -> option Q) : Prop :=
  forall n c ce,
    coords_map !! n = Some c -> coords_map !! end_node = Some ce -> is_Some (h c ce).

(** The value of a heuristic that evaluates. *)
Definition value_of (h : coord -> coord -> option Q) (a b : coord) : Q :=
  default 0 (h a b).

(** With any heap and a heuristic that evaluates, the pathfinder is the
    search of [AStar] with the values of the heuristic. *)
Lemma a_star_search_reference push pop h G start_node end_node coords_map
    danger_scores fuel :
  heapq push pop -> evaluates coords_map end_node h ->
  Pathfinder.a_star_search push pop h G start_node end_node coords_map danger_scores fuel
  = lift (a_star_search (value_of h) G start_node end_node coords_map danger_scores fuel).
Proof.
  intros Hheap Hev.
  rewrite (a_star_search_layout_same push heappush pop heappop Hheap heapq_reference).
  rewrite <- a_star_search_refines.
  apply a_star_search_heuristic.
  intros n c ce Hn He. destruct (Hev n c ce Hn He) as [v Hv].
  unfold value_of. rewrite Hv. reflexivity.
Qed.

(** C9.  The result of [a_star_search] does not depend on how [heapq] lays
    out the heap: two invocations on the same graph, coordinates, danger
    scores, start and end, each with any heap that pops a least item under
    Python's comparison of the tuples (f, g, node), end in the same way: the
    same path, the same "no path" or the same exception.  What makes it so is
    that two items of the heap never compare equal unless they are the same
    tuple: an item is pushed for a node only with a cost smaller than every
    cost that node was pushed with before. *)
Theorem a_star_search_layout_independent push1 pop1 push2 pop2 h G
    start_node end_node coords_map danger_scores fuel1 fuel2 r1 r2 :
  heapq push1 pop1 -> heapq push2 pop2 ->
  Pathfinder.a_star_search push1 pop1 h G start_node end_node coords_map danger_scores
    fuel1 = r1 ->
  Pathfinder.a_star_search push2 pop2 h G start_node end_node coords_map danger_scores
    fuel2 = r2 ->
  r1 <> NoFuel -> r2 <> NoFuel -> r1 = r2.
Proof.
  intros H1 H2.
  exact (a_star_search_layout push1 push2 pop1 pop2 H1 H2 h G start_node end_node
           coords_map danger_scores fuel1 fuel2 r1 r2).
Qed.

(** X1.  On a well-formed graph in which start and end are nodes, every
    node has coordinates and a strictly positive danger score, and the
    heuristic evaluates on the coordinates of the map, [a_star_search]
    terminates without raising, whatever the layout of the heap: with enough
    fuel it returns one result, and with any other amount it returns that
    result or runs out of fuel. *)
Theorem a_star_search_terminates push pop h G start_node end_node
    coords_map danger_scores :
  heapq push pop -> evaluates coords_map end_node h ->
  well_formed G -> start_node ∈ nodes G -> end_node ∈ nodes G ->
  (forall n, n ∈ nodes G -> is_Some (coords_map !! n)) ->
  (forall n, n ∈ nodes G -> exists d, danger_scores !! n = Some d /\ 0 < d) ->
  exists fuel r,
    (forall fuel', (fuel <= fuel')%nat ->
       Pathfinder.a_star_search push pop h G start_node end_node coords_map
         danger_scores fuel' = Returned r) /\
    (forall fuel',
       Pathfinder.a_star_search push pop h G start_node end_node coords_map
         danger_scores fuel' = Returned r \/
       Pathfinder.a_star_search push pop h G start_node end_node coords_map
         danger_scores fuel' = NoFuel).
Proof.
  intros Hheap Hev Hwf Hstart Hend Hcoords Hdanger.
  destruct (a_star_search_total (value_of h) G start_node end_node coords_map
              danger_scores Hwf Hstart Hend Hcoords Hdanger) as (fuel & r & Hrun & _).
  exists fuel, r. split.
  - intros fuel' Hle. rewrite a_star_search_reference by assumption.
    rewrite (Hrun fuel' Hle). reflexivity.
  - intros fuel'. rewrite a_star_search_reference by assumption.
    destruct (a_star_search (value_of h) G start_node end_node coords_map
                danger_scores fuel') as [r'|e|] eqn:E; [left|exfalso|right; reflexivity];
      apply (a_star_search_mono _ _ _ _ _ _ _ (Nat.max fuel' fuel)) in E;
      try discriminate; try lia;
      rewrite Hrun in E by lia; [|discriminate].
    injection E as ->. reflexivity.
Qed.

(** X3.  Under the conditions of X1, [a_star_search] reports that no path
    was found exactly when the graph has no path from start to end. *)
Theorem a_star_search_none_iff push pop h G start_node end_node
    coords_map danger_scores :
  heapq push pop -> evaluates coords_map end_node h ->
  well_formed G -> start_node ∈ nodes G -> end_node ∈ nodes G ->
  (forall n, n ∈ nodes G -> is_Some (coords_map !! n)) ->
  (forall n, n ∈ nodes G -> exists d, danger_scores !! n = Some d /\ 0 < d) ->
  (exists fuel,
     Pathfinder.a_star_search push pop h G start_node end_node coords_map
       danger_scores fuel = Returned None) <->
  ~ connected G start_node end_node.
Proof.
  intros Hheap Hev Hwf Hstart Hend Hcoords Hdanger.
  destruct (a_star_search_total (value_of h) G start_node end_node coords_map
              danger_scores Hwf Hstart Hend Hcoords Hdanger)
    as (fuel0 & r & Hrun & Hsome & Hnone).
  split.
  - intros [fuel Hret]. rewrite a_star_search_reference in Hret by assumption.
    destruct (a_star_search (value_of h) G start_node end_node coords_map
                danger_scores fuel) as [r'|e|] eqn:E; try discriminate.
    injection Hret as ->.
    apply (a_star_search_mono _ _ _ _ _ _ _ (Nat.max fuel fuel0)) in E;
      [|discriminate|lia].
    rewrite Hrun in E by lia. injection E as ->. apply Hnone. reflexivity.
  - intros Hno. exists fuel0. rewrite a_star_search_reference by assumption.
    rewrite Hrun by lia. cbn [Pathfinder.lift]. f_equal.
    destruct r as [p|]; [|reflexivity]. exfalso. apply Hno.
    destruct (Hsome p eq_refl) as [Hgood _]. exists p. exact Hgood.
Qed.

(** X4.  On a complete graph with coordinates and strictly positive danger
    scores for all nodes, and a heuristic that evaluates on the coordinates
    of the map, [a_star_search] between two different nodes returns the
    direct path [start; end], whatever the values of the heuristic, the
    danger scores of the other nodes and the layout of the heap. *)
Theorem a_star_search_direct push pop h G start_node end_node
    coords_map danger_scores :
  heapq push pop -> evaluates coords_map end_node h ->
  complete_graph G -> start_node ∈ nodes G -> end_node ∈ nodes G ->
  (forall n, n ∈ nodes G -> is_Some (coords_map !! n)) ->
  (forall n, n ∈ nodes G -> exists d, danger_scores !! n = Some d /\ 0 < d) ->
  start_node <> end_node ->
  exists fuel, forall fuel', (fuel <= fuel')%nat ->
    Pathfinder.a_star_search push pop h G start_node end_node coords_map
      danger_scores fuel' = Returned (Some [start_node; end_node]).
Proof.
  intros Hheap Hev Hcomplete Hstart Hend Hcoords Hdanger Hne.
  destruct (Hcoords start_node Hstart) as [cs Hcs].
  destruct (Hcoords end_node Hend) as [ce Hce].
  destruct (Hdanger end_node Hend) as (d_end & Hd_end & _).
  destruct (search_loop_direct_run (value_of h) G start_node end_node coords_map
              danger_scores d_end Hcomplete Hstart Hend Hcoords Hdanger Hne Hd_end cs ce)
    as (fuel & rfuel & Hloop).
  exists (Nat.max fuel rfuel). intros fuel' Hle.
  rewrite a_star_search_reference by assumption.
  assert (E : a_star_search (value_of h) G start_node end_node coords_map danger_scores
                fuel' = Return (Some [start_node; end_node])).
  { unfold a_star_search, getitem. rewrite Hcs, Hce. cbn [mbind outcome_bind].
    apply (search_loop_mono _ _ _ _ _ _ rfuel fuel' fuel fuel');
      [exact Hloop | discriminate | lia | lia]. }
  rewrite E. reflexivity.
Qed.

End PathfinderFacts.

(** ** The domain error of the heuristic, and what the search does with it *)

Module FloatFacts.
Import Stdlib.Floats.Floats.
Import Graphs GraphsFacts AStar AStarFacts MainFacts Examples HaversineFloat PathfinderFacts.

Local Notation Returned := Pathfinder.Returned.
Local Notation Raised := Pathfinder.Raised.
Local Notation ValueError := Pathfinder.ValueError.

(** The values of the C library (glibc, under CPython 3.11) at the
    arguments that the formula passes for the points (8, -180) and (-8, 0):
    [sin(-0.13962634015954636) = -0.13917310096006544],
    [sin(1.5707963267948966) = 1.0],
    [cos(0.13962634015954636) = cos(-0.13962634015954636) = 0.9902680687415704],
    and [x ** 2] is the float product [x * x] for the two sines.  Elsewhere
    the table is arbitrary. *)
Definition observed : libm :=
  {| m_sin := fun x =>
       if (x =? -0x1.1df46a2529d39p-3)%float then (-0x1.1d06c968d9e19p-3)%float
       else if (x =? 0x1.921fb54442d18p+0)%float then 1%float
       else x;
     m_cos := fun x =>
       if (abs x =? 0x1.1df46a2529d39p-3)%float then 0x1.fb046a930947ap-1%float
       else 1%float;
     m_atan2 := fun y x => 0%float;
     m_pow := fun x y => (x * x)%float |}.

(** Two points of the Earth that lie opposite each other. *)
Definition here : coord := (8, -180).
Definition opposite : coord := (-8, 0).

(** The quantity [a] rounds to the float above 1, and the square root of
    [1 - a] is a domain error. *)
Example haversine_a_antipodal :
  haversine_a observed (float_coord here) (float_coord opposite)
  = 0x1.0000000000001p+0%float.
Proof. vm_compute. reflexivity. Qed.

Lemma heuristic_antipodal : heuristic observed here opposite = None.
Proof. vm_compute. reflexivity. Qed.

(** A city with two areas that lie opposite each other. *)
Definition antipodes : graph := complete_on ["A"; "B"]%string.

Definition antipodal_coords : gmap string coord :=
  <["A"%string := here]> (<["B"%string := opposite]> ∅).

Definition antipodal_scores : gmap string Q :=
  <["A"%string := 1]> (<["B"%string := 1]> ∅).

Lemma antipodes_complete : complete_graph antipodes.
Proof. apply complete_on_complete. by_compute. Qed.

(** C3.  A complete graph, start and end among its nodes, coordinates and
    a positive danger score for every node, and [a_star_search] raises a
    ValueError instead of returning a path: the heuristic of the start node
    is computed before the loop, and for these two valid coordinates
    [math.sqrt(1 - a)] is a math domain error. *)
Theorem a_star_search_antipodal_raises push pop fuel :
  complete_graph antipodes /\
  "A"%string ∈ nodes antipodes /\ "B"%string ∈ nodes antipodes /\
  (forall n, n ∈ nodes antipodes -> is_Some (antipodal_coords !! n)) /\
  (forall n, n ∈ nodes antipodes ->
     exists d, antipodal_scores !! n = Some d /\ 0 < d) /\
  Pathfinder.a_star_search push pop (heuristic observed) antipodes "A" "B"
    antipodal_coords antipodal_scores fuel = Raised ValueError.
Proof.
  assert (Hn : nodes antipodes = ["A"; "B"]%string) by (vm_compute; reflexivity).
  split; [exact antipodes_complete|].
  split; [rewrite Hn; by_compute|]. split; [rewrite Hn; by_compute|].
  split; [|split].
  - intros n H. rewrite Hn in H.
    repeat (apply elem_of_cons in H as [->|H]); try (vm_compute; eauto). inversion H.
  - intros n H. rewrite Hn in H.
    repeat (apply elem_of_cons in H as [->|H]);
      try (eexists; split; [vm_compute; reflexivity | reflexivity]).
    inversion H.
  - apply (a_star_search_value_error push pop _ antipodes "A" "B" antipodal_coords
             antipodal_scores here opposite fuel); [reflexivity | reflexivity |].
    exact heuristic_antipodal.
Qed.

(** The toy graph with A and C opposite each other. *)
Definition far_coords : gmap string coord :=
  <["A"%string := here]> (<["B"%string := (0, 0)]> (<["C"%string := opposite]> ∅)).

(** C4.  On the complete graph with nodes A, B, C and danger scores
    {A: 1, B: 5, C: 2}, with valid coordinates that put A and C opposite each
    other, [a_star_search] from A to C raises a ValueError and returns no
    path, so not the path [A, C]. *)
Theorem a_star_search_toy_raises push pop fuel :
  complete_graph toy /\ nodes toy = ["A"; "B"; "C"]%string /\
  toy_scores !! "A"%string = Some 1 /\ toy_scores !! "B"%string = Some 5 /\
  toy_scores !! "C"%string = Some 2 /\
  (forall n, n ∈ nodes toy -> is_Some (far_coords !! n)) /\
  Pathfinder.a_star_search push pop (heuristic observed) toy "A" "C"
    far_coords toy_scores fuel = Raised ValueError /\
  Pathfinder.a_star_search push pop (heuristic observed) toy "A" "C"
    far_coords toy_scores fuel <> Returned (Some ["A"; "C"]%string).
Proof.
  assert (E : Pathfinder.a_star_search push pop (heuristic observed) toy "A" "C"
                far_coords toy_scores fuel = Raised ValueError).
  { apply (a_star_search_value_error push pop _ toy "A" "C" far_coords
             toy_scores here opposite fuel); [reflexivity | reflexivity |].
    exact heuristic_antipodal. }
  split; [exact toy_complete|]. split; [exact toy_nodes|].
  do 3 (split; [reflexivity|]).
  split; [|split; [exact E | rewrite E; discriminate]].
  intros n H. rewrite toy_nodes in H.
  repeat (apply elem_of_cons in H as [->|H]); try (vm_compute; eauto). inversion H.
Qed.

End FloatFacts.

(** ** The shape of the graphs the builder makes *)

Module GraphShape.
Import Scores Graphs GraphsFacts AStar SearchFacts.

(** What [networkx] keeps true of an undirected graph: the nodes are listed
    once and are the keys of the adjacency, a neighbourhood lists nodes, each
    once, and [m] is a neighbour of [n] exactly when [n] is one of [m]. *)
Record nx_graph (G : graph) : Prop := {
  nx_nodes : NoDup (nodes G);
  nx_keys : forall n, n ∈ nodes G <-> is_Some (neighbors G n);
  nx_inside : forall n l m, neighbors G n = Some l -> m ∈ l -> m ∈ nodes G;
  nx_once : forall n l, neighbors G n = Some l -> NoDup l;
  nx_sym : forall n l m, neighbors G n = Some l -> m ∈ l ->
             exists l', neighbors G m = Some l' /\ n ∈ l'
}.

Lemma nx_well_formed G : nx_graph G -> well_formed G.
Proof. intros H. split; [apply (nx_keys G H) | apply (nx_inside G H)]. Qed.

Lemma empty_graph_nx : nx_graph empty_graph.
Proof.
  split; unfold nodes, neighbors; simpl.
  - constructor.
  - intros n. rewrite elem_of_nil, lookup_empty. split; [tauto | intros [? ?]; discriminate].
  - intros n l m H. rewrite lookup_empty in H. discriminate.
  - intros n l H. rewrite lookup_empty in H. discriminate.
  - intros n l m H. rewrite lookup_empty in H. discriminate.
Qed.

Lemma add_node_nx n G : nx_graph G -> nx_graph (add_node n G).
Proof.
  intros H. unfold add_node. case_bool_decide as Hn; [exact H|].
  assert (Hnone : g_adj G !! n = None).
  { destruct (g_adj G !! n) eqn:E; [|reflexivity].
    exfalso. apply Hn. apply (nx_keys G H). unfold neighbors. rewrite E. eexists; reflexivity. }
  split; unfold nodes, neighbors; simpl.
  - apply NoDup_app. split; [apply (nx_nodes G H)|]. split; [|apply NoDup_singleton].
    intros x Hx Hs. apply list_elem_of_singleton in Hs. subst x. contradiction.
  - intros m. rewrite elem_of_app, list_elem_of_singleton.
    destruct (decide (m = n)) as [->|Hne].
    + rewrite lookup_insert_eq. split; [intros _; eexists; reflexivity | tauto].
    + rewrite lookup_insert_ne by congruence. rewrite <- (nx_keys G H m). unfold nodes. tauto.
  - intros a l m Ha Hm. rewrite elem_of_app. left.
    destruct (decide (a = n)) as [->|Hne].
    + rewrite lookup_insert_eq in Ha. injection Ha as <-. inversion Hm.
    + rewrite lookup_insert_ne in Ha by congruence. apply (nx_inside G H a l m Ha Hm).
  - intros a l Ha. destruct (decide (a = n)) as [->|Hne].
    + rewrite lookup_insert_eq in Ha. injection Ha as <-. constructor.
    + rewrite lookup_insert_ne in Ha by congruence. apply (nx_once G H a l Ha).
  - intros a l m Ha Hm. destruct (decide (a = n)) as [->|Hne].
    + rewrite lookup_insert_eq in Ha. injection Ha as <-. inversion Hm.
    + rewrite lookup_insert_ne in Ha by congruence.
      destruct (nx_sym G H a l m Ha Hm) as (l' & Hl' & Hin).
      exists l'. split; [|exact Hin].
      rewrite lookup_insert_ne; [exact Hl'|]. intros ->. unfold neighbors in Hl'. congruence.
Qed.

Lemma add_node_elem n G m : m ∈ nodes (add_node n G) <-> m ∈ nodes G \/ m = n.
Proof.
  unfold add_node, nodes. case_bool_decide as Hn; simpl.
  - split; [tauto|]. intros [H|E]; [exact H | rewrite E; exact Hn].
  - rewrite elem_of_app, list_elem_of_singleton. tauto.
Qed.

(** One direction of an edge. *)
Lemma add_neighbor_spec u v G :
  nodes (add_neighbor u v G) = nodes G /\
  forall a,
    match neighbors G a with
    | None => neighbors (add_neighbor u v G) a = None
    | Some l =>
        exists l', neighbors (add_neighbor u v G) a = Some l' /\
          (NoDup l -> NoDup l') /\
          forall m, m ∈ l' <-> m ∈ l \/ (a = u /\ m = v)
    end.
Proof.
  unfold add_neighbor, nodes, neighbors.
  destruct (g_adj G !! u) as [lu|] eqn:Hu.
  2:{ split; [reflexivity|]. intros a. destruct (g_adj G !! a) as [l|] eqn:Ha; [|reflexivity].
      exists l. split; [reflexivity|]. split; [auto|]. intros m. split; [tauto|].
      intros [?|[-> _]]; [assumption | congruence]. }
  case_bool_decide as Hv.
  - split; [reflexivity|]. intros a. destruct (g_adj G !! a) as [l|] eqn:Ha; [|reflexivity].
    exists l. split; [reflexivity|]. split; [auto|]. intros m. split; [tauto|].
    intros [?|[-> ->]]; [assumption | congruence].
  - simpl. split; [reflexivity|]. intros a. destruct (decide (a = u)) as [->|Hne].
    + rewrite Hu, lookup_insert_eq. exists (lu ++ [v]). split; [reflexivity|]. split.
      * intros Hnd. apply NoDup_app. split; [exact Hnd|]. split; [|apply NoDup_singleton].
        intros x Hx Hs. apply list_elem_of_singleton in Hs. subst x. contradiction.
      * intros m. rewrite elem_of_app, list_elem_of_singleton. tauto.
    + rewrite lookup_insert_ne by congruence.
      destruct (g_adj G !! a) as [l|]; [|reflexivity].
      exists l. split; [reflexivity|]. split; [auto|]. intros m. split; [tauto|].
      intros [?|[-> _]]; [assumption | congruence].
Qed.

Lemma add_edge_nx u v G : nx_graph G -> nx_graph (add_edge u v G).
Proof.
  intros H0. unfold add_edge.
  set (G1 := add_node v (add_node u G)).
  assert (H : nx_graph G1) by (apply add_node_nx, add_node_nx, H0).
  assert (Hu : u ∈ nodes G1) by (unfold G1; rewrite !add_node_elem; tauto).
  assert (Hv : v ∈ nodes G1) by (unfold G1; rewrite !add_node_elem; tauto).
  clearbody G1. clear H0.
  destruct (add_neighbor_spec u v G1) as [N1 A1].
  set (G2 := add_neighbor u v G1) in *.
  destruct (add_neighbor_spec v u G2) as [N2 A2].
  set (G3 := add_neighbor v u G2) in *.
  assert (Hadj : forall a,
            match neighbors G1 a with
            | None => neighbors G3 a = None
            | Some l => exists l', neighbors G3 a = Some l' /\ NoDup l' /\
                forall m, m ∈ l' <-> m ∈ l \/ (a = u /\ m = v) \/ (a = v /\ m = u)
            end).
  { intros a. specialize (A1 a). destruct (neighbors G1 a) as [l|] eqn:Ha.
    - destruct A1 as (l2 & Hl2 & Hnd2 & Hm2). specialize (A2 a). rewrite Hl2 in A2.
      destruct A2 as (l3 & Hl3 & Hnd3 & Hm3). exists l3. split; [exact Hl3|].
      split; [apply Hnd3, Hnd2, (nx_once G1 H a l Ha)|].
      intros m. rewrite Hm3, Hm2. tauto.
    - specialize (A2 a). rewrite A1 in A2. exact A2. }
  split.
  - rewrite N2, N1. apply (nx_nodes G1 H).
  - intros n. rewrite N2, N1, (nx_keys G1 H n). specialize (Hadj n).
    destruct (neighbors G1 n) as [l|].
    + destruct Hadj as (l' & -> & _). split; intros _; eexists; reflexivity.
    + rewrite Hadj. reflexivity.
  - intros n l m Hn Hm. rewrite N2, N1. specialize (Hadj n).
    destruct (neighbors G1 n) as [l1|] eqn:E; [|congruence].
    destruct Hadj as (l' & Hl' & _ & Hmem). rewrite Hn in Hl'. injection Hl' as <-.
    destruct (proj1 (Hmem m) Hm) as [Hm1|[[_ Em]|[_ Em]]];
      [|rewrite Em; assumption|rewrite Em; assumption].
    apply (nx_inside G1 H n l1 m E Hm1).
  - intros n l Hn. specialize (Hadj n).
    destruct (neighbors G1 n) as [l1|]; [|congruence].
    destruct Hadj as (l' & Hl' & Hnd & _). congruence.
  - intros n l m Hn Hm. pose proof (Hadj n) as Hn'.
    destruct (neighbors G1 n) as [l1|] eqn:E; [|congruence].
    destruct Hn' as (l' & Hl' & _ & Hmem). rewrite Hn in Hl'. injection Hl' as <-.
    assert (Hback : forall l1m, neighbors G1 m = Some l1m ->
              (n ∈ l1m \/ (m = u /\ n = v) \/ (m = v /\ n = u)) ->
              exists l', neighbors G3 m = Some l' /\ n ∈ l').
    { intros l1m Hl1m Hcase. pose proof (Hadj m) as Hm'. rewrite Hl1m in Hm'.
      destruct Hm' as (l' & Hl' & _ & Hmem'). exists l'. split; [exact Hl'|].
      apply Hmem'. exact Hcase. }
    destruct (proj1 (Hmem m) Hm) as [Hm1|[[En Em]|[En Em]]].
    + destruct (nx_sym G1 H n l1 m E Hm1) as (l1m & Hl1m & Hin).
      apply (Hback l1m Hl1m). left. exact Hin.
    + destruct (proj1 (nx_keys G1 H m)) as [lm Hlm]; [rewrite Em; exact Hv|].
      apply (Hback lm Hlm). right. right. split; assumption.
    + destruct (proj1 (nx_keys G1 H m)) as [lm Hlm]; [rewrite Em; exact Hu|].
      apply (Hback lm Hlm). right. left. split; assumption.
Qed.

Lemma add_nodes_from_nx ns : forall G, nx_graph G -> nx_graph (add_nodes_from ns G).
Proof.
  induction ns as [|n ns IH]; intros G H; [exact H|].
  apply (IH (add_node n G)). apply add_node_nx. exact H.
Qed.

Lemma add_all_edges_nx ns : forall G, nx_graph G -> nx_graph (add_all_edges ns G).
Proof.
  induction ns as [|n rest IH]; intros G H; [exact H|].
  cbn [add_all_edges]. apply IH.
  clear IH. revert G H. induction rest as [|r rest IHr]; intros G H; [exact H|].
  cbn [foldl]. apply IHr. apply add_edge_nx. exact H.
Qed.

Lemma complete_on_nx ns : nx_graph (complete_on ns).
Proof. apply add_all_edges_nx, add_nodes_from_nx, empty_graph_nx. Qed.

(** X5.  Every graph that [build_city_graphs] stores keeps the shape of a
    [networkx] graph, whether or not area names repeat among the rows of a
    city: nodes listed once, neighbourhoods made of nodes listed once, and a
    symmetric neighbour relation. *)
Theorem build_city_graphs_shape processed_data c G :
  city_graphs (build_city_graphs processed_data) !! c = Some G -> nx_graph G.
Proof.
  intros HG.
  destruct (build_city_graphs_lookup processed_data c) as [Hsome Hnone].
  destruct (city_rows c processed_data) as [|r rows] eqn:Hrows.
  - destruct (Hnone eq_refl) as (E & _). rewrite E in HG. discriminate.
  - destruct Hsome as (E1 & _); [discriminate|].
    rewrite E1 in HG. injection HG as <-. apply complete_on_nx.
Qed.

End GraphShape.

(** ** From the observations to the answer *)

Module PipelineFacts.
Import Scores ScoresFacts Graphs GraphsFacts AStar AStarFacts Main MainFacts SearchFacts.

Lemma calculate_danger_bounds data_df rows r :
  calculate_danger_scores data_df = Some rows -> r ∈ rows ->
  1 <= danger_score r <= 10.
Proof.
  intros Hcalc Hin.
  destruct (calculate_rows data_df) as (rows' & Hcalc' & Hrows).
  rewrite Hcalc in Hcalc'. injection Hcalc' as <-.
  apply list_elem_of_lookup in Hin as [i Hr].
  destruct (Hrows i r Hr) as (_ & _ & y & ys & Hs & ->).
  assert (Hc : In (composite_of r) (y :: ys)).
  { rewrite <- Hs. apply in_map. eapply lookup_In; eauto. }
  pose proof (series_range _ _ _ Hc) as [Hlo Hhi].
  pose proof (norm_with_range _ _ _ Hlo Hhi). lra.
Qed.

(** The keys of the score frame are the (city, area) pairs of the data. *)
Lemma group_keys_elem obs k : k ∈ group_keys obs <-> k ∈ map key_of obs.
Proof.
  unfold group_keys. induction (map key_of obs) as [|x l IH]; simpl; [reflexivity|].
  rewrite insert_key_elem, IH, elem_of_cons. tauto.
Qed.

Lemma calculate_rows_elem data_df rows c a :
  calculate_danger_scores data_df = Some rows ->
  ((exists r, r ∈ rows /\ city r = c /\ area_name r = a) <->
   (exists o, o ∈ data_df /\ o_city o = c /\ o_area_name o = a)).
Proof.
  intros Hcalc. pose proof (calculate_keys _ _ Hcalc) as Hkeys.
  assert (E : (c, a) ∈ map (fun r => (city r, area_name r)) rows <-> (c, a) ∈ map key_of data_df)
    by (rewrite Hkeys; apply group_keys_elem).
  rewrite !list_elem_of_fmap in E. split.
  - intros (r & Hr & <- & <-). destruct (proj1 E) as (o & Ho & Hin); [exists r; auto|].
    unfold key_of in Ho. injection Ho as -> ->. exists o. auto.
  - intros (o & Ho & <- & <-). destruct (proj2 E) as (r & Hr & Hin); [exists o; auto|].
    injection Hr as -> ->. exists r. auto.
Qed.

Lemma geocode_areas_elem geocode rows gr :
  gr ∈ geocode_areas geocode rows <->
  profile gr ∈ rows /\
  geocode (city (profile gr)) (area_name (profile gr)) = Some (coords gr).
Proof.
  unfold geocode_areas. rewrite list_elem_of_omap. split.
  - intros (r & Hr & Hg). destruct (geocode (city r) (area_name r)) as [cd|] eqn:E;
      [|discriminate].
    cbn [mbind option_bind] in Hg. injection Hg as <-. simpl. auto.
  - intros [Hr Hg]. exists (profile gr). split; [exact Hr|]. rewrite Hg.
    destruct gr. reflexivity.
Qed.

Lemma to_dict_foldl_notin {V} (value : geocoded_area -> V) rows :
  forall (m : gmap string V) n,
  n ∉ map (fun r => area_name (profile r)) rows ->
  foldl (fun m r => <[area_name (profile r) := value r]> m) m rows !! n = m !! n.
Proof.
  induction rows as [|x rows IH]; intros m n Hn; [reflexivity|].
  cbn [foldl map] in *. apply not_elem_of_cons in Hn as [Hne Hn].
  rewrite IH by exact Hn. apply lookup_insert_ne. congruence.
Qed.

Lemma to_dict_lookup_elem {V} (value : geocoded_area -> V) rows n v :
  to_dict value rows !! n = Some v ->
  exists r, r ∈ rows /\ area_name (profile r) = n /\ value r = v.
Proof.
  unfold to_dict.
  assert (H : forall m : gmap string V,
    foldl (fun m r => <[area_name (profile r) := value r]> m) m rows !! n = Some v ->
    m !! n = Some v \/ exists r, r ∈ rows /\ area_name (profile r) = n /\ value r = v).
  { induction rows as [|x rows IH]; intros m Hm; [left; exact Hm|].
    cbn [foldl] in Hm. destruct (IH _ Hm) as [Hins|(r & Hr & H1 & H2)].
    - destruct (decide (area_name (profile x) = n)) as [E|E].
      + rewrite E, lookup_insert_eq in Hins. injection Hins as <-.
        right. exists x. split; [left|]. auto.
      + rewrite lookup_insert_ne in Hins by exact E. left. exact Hins.
    - right. exists r. split; [right; exact Hr|]. auto. }
  intros Hl. destruct (H ∅ Hl) as [Hm|Hr]; [|exact Hr].
  rewrite lookup_empty in Hm. discriminate.
Qed.

Lemma to_dict_lookup_distinct {V} (value : geocoded_area -> V) rows r :
  NoDup (map (fun r => area_name (profile r)) rows) -> r ∈ rows ->
  to_dict value rows !! area_name (profile r) = Some (value r).
Proof.
  unfold to_dict. generalize (∅ : gmap string V).
  induction rows as [|x rows IH]; intros m Hnd Hr; [inversion Hr|].
  cbn [map] in Hnd. apply NoDup_cons in Hnd as [Hx Hnd]. cbn [foldl].
  apply elem_of_cons in Hr as [->|Hr].
  - rewrite to_dict_foldl_notin by exact Hx. apply lookup_insert_eq.
  - apply IH; assumption.
Qed.


Lemma a_star_search_same haversine_distance G n coords_map danger_scores c fuel :
  coords_map !! n = Some c ->
  a_star_search haversine_distance G n n coords_map danger_scores (S fuel)
    = Return (Some [n]).
Proof.
  intros Hc. unfold a_star_search, getitem. rewrite Hc. simpl.
  rewrite String.eqb_refl. unfold reconstruct.
  destruct fuel; simpl; rewrite lookup_empty; reflexivity.
Qed.

(** What [data_pipeline] returns when it succeeds. *)
Lemma data_pipeline_tables geocode data t :
  data_pipeline geocode (Some data) = Some t ->
  exists rows,
    calculate_danger_scores data = Some rows /\
    geocode_areas geocode rows <> [] /\
    t = build_city_graphs (geocode_areas geocode rows).
Proof.
  unfold data_pipeline. cbn [mbind option_bind].
  destruct (calculate_danger_scores data) as [rows|]; [|discriminate].
  cbn [mbind option_bind]. intros H. exists rows. split; [reflexivity|].
  destruct (geocode_areas geocode rows) as [|gr grs]; [discriminate|].
  injection H as <-. split; [discriminate | reflexivity].
Qed.

(** The tables of one city, as the pathfinder needs them. *)
Lemma data_pipeline_city geocode data t c G :
  data_pipeline geocode (Some data) = Some t ->
  city_graphs t !! c = Some G ->
  exists rows cm dm,
    calculate_danger_scores data = Some rows /\
    G = complete_on (area_names c (geocode_areas geocode rows)) /\
    city_coords t !! c = Some cm /\
    cm = to_dict coords (city_rows c (geocode_areas geocode rows)) /\
    city_danger_scores t !! c = Some dm /\
    dm = to_dict (fun r => danger_score (profile r))
           (city_rows c (geocode_areas geocode rows)) /\
    complete_graph G /\
    (forall n, n ∈ nodes G -> is_Some (cm !! n)) /\
    (forall n, n ∈ nodes G -> exists d, dm !! n = Some d /\ 1 <= d <= 10).
Proof.
  intros Hpipe HG.
  destruct (data_pipeline_tables _ _ _ Hpipe) as (rows & Hcalc & _ & ->).
  set (gd := geocode_areas geocode rows) in *.
  destruct (build_city_graphs_lookup gd c) as [Hsome Hnone].
  destruct (city_rows c gd) as [|r0 rs] eqn:Hrows.
  { destruct (Hnone eq_refl) as (E & _). rewrite E in HG. discriminate. }
  destruct Hsome as (E1 & E2 & E3); [discriminate|].
  rewrite E1 in HG. injection HG as <-.
  exists rows, (to_dict coords (r0 :: rs)),
    (to_dict (fun r => danger_score (profile r)) (r0 :: rs)).
  fold gd. rewrite Hrows.
  split; [exact Hcalc|]. split; [reflexivity|]. split; [exact E2|].
  split; [reflexivity|]. split; [exact E3|]. split; [reflexivity|].
  assert (Hnames : area_names c gd = map (fun r => area_name (profile r)) (r0 :: rs))
    by (unfold area_names; rewrite Hrows; reflexivity).
  split; [|split].
  - apply complete_on_complete. apply (pipeline_names_NoDup geocode data rows c Hcalc).
  - intros n Hn. apply to_dict_keys. rewrite <- Hnames.
    apply complete_on_elem. exact Hn.
  - intros n Hn.
    assert (Hk : is_Some (to_dict (fun r => danger_score (profile r)) (r0 :: rs) !! n)).
    { apply to_dict_keys. rewrite <- Hnames. apply complete_on_elem. exact Hn. }
    destruct Hk as [d Hd]. exists d. split; [exact Hd|].
    destruct (to_dict_lookup_elem _ _ _ _ Hd) as (r & Hr & _ & <-).
    apply (calculate_danger_bounds data rows _ Hcalc).
    assert (Hgd : r ∈ gd).
    { rewrite <- Hrows in Hr. unfold city_rows in Hr.
      apply list_elem_of_In, filter_In in Hr as [Hr _]. apply list_elem_of_In. exact Hr. }
    apply geocode_areas_elem in Hgd as [Hp _]. exact Hp.
Qed.

(** The nodes of a city's graph, from the data and the geocoding service. *)
Lemma data_pipeline_nodes geocode data t c G n :
  data_pipeline geocode (Some data) = Some t ->
  city_graphs t !! c = Some G ->
  (n ∈ nodes G <->
   (exists o, o ∈ data /\ o_city o = c /\ o_area_name o = n) /\ is_Some (geocode c n)).
Proof.
  intros Hpipe HG.
  destruct (data_pipeline_city _ _ _ _ _ Hpipe HG) as (rows & cm & dm & Hcalc & -> & _).
  unfold nodes. rewrite complete_on_elem. unfold area_names, city_rows.
  rewrite <- (calculate_rows_elem data rows c n Hcalc).
  rewrite list_elem_of_fmap. split.
  - intros (gr & -> & Hgr). apply list_elem_of_In, filter_In in Hgr as [Hgr Hc].
    apply String.eqb_eq in Hc. apply list_elem_of_In, geocode_areas_elem in Hgr as [Hp Hg].
    split; [exists (profile gr); auto|]. rewrite <- Hc, Hg. eexists; reflexivity.
  - intros [(r & Hr & Hc & Hn) [cd Hg]].
    exists {| profile := r; coords := cd |}. cbn [profile]. split; [auto|].
    apply list_elem_of_In, filter_In. cbn [profile]. split; [|apply String.eqb_eq; exact Hc].
    apply list_elem_of_In, geocode_areas_elem. cbn [profile coords].
    split; [exact Hr|]. rewrite Hc, Hn. exact Hg.
Qed.

(** X7.  The nodes of a city's graph are exactly the areas of that city in
    the data that the geocoding service located; an area without coordinates
    never becomes a node. *)
Theorem pipeline_nodes geocode data t c G n :
  data_pipeline geocode (Some data) = Some t ->
  city_graphs t !! c = Some G ->
  (n ∈ nodes G <->
   (exists o, o ∈ data /\ o_city o = c /\ o_area_name o = n) /\ is_Some (geocode c n)).
Proof. exact (data_pipeline_nodes geocode data t c G n). Qed.

(** The entries of the dictionaries of a city. *)
Lemma data_pipeline_lookups geocode data rows t c cm dm n :
  calculate_danger_scores data = Some rows ->
  data_pipeline geocode (Some data) = Some t ->
  city_coords t !! c = Some cm ->
  city_danger_scores t !! c = Some dm ->
  (forall cd, cm !! n = Some cd <->
     geocode c n = Some cd /\ exists r, r ∈ rows /\ city r = c /\ area_name r = n) /\
  (forall d, dm !! n = Some d <->
     is_Some (geocode c n) /\
     exists r, r ∈ rows /\ city r = c /\ area_name r = n /\ danger_score r = d).
Proof.
  intros Hcalc Hpipe Hcm Hdm.
  destruct (data_pipeline_tables _ _ _ Hpipe) as (rows' & Hcalc' & _ & ->).
  rewrite Hcalc in Hcalc'. injection Hcalc' as <-.
  pose proof (pipeline_names_NoDup geocode data rows c Hcalc) as Hnd.
  unfold area_names in Hnd.
  set (gd := geocode_areas geocode rows) in *.
  destruct (build_city_graphs_lookup gd c) as [Hsome Hnone].
  destruct (city_rows c gd) as [|r0 rs] eqn:Hrows.
  { destruct (Hnone eq_refl) as (_ & E & _). rewrite E in Hcm. discriminate. }
  destruct Hsome as (_ & E2 & E3); [discriminate|].
  rewrite E2 in Hcm. injection Hcm as <-. rewrite E3 in Hdm. injection Hdm as <-.
  assert (Hrow : forall gr, gr ∈ r0 :: rs <->
            profile gr ∈ rows /\ city (profile gr) = c /\
            geocode c (area_name (profile gr)) = Some (coords gr)).
  { intros gr. rewrite <- Hrows. unfold city_rows.
    rewrite list_elem_of_In, filter_In, <- list_elem_of_In, String.eqb_eq.
    unfold gd. rewrite geocode_areas_elem. split.
    - intros [[Hp Hg] Hc]. rewrite Hc in Hg. auto.
    - intros (Hp & Hc & Hg). rewrite Hc. auto. }
  split.
  - intros cd. split.
    + intros Hl. destruct (to_dict_lookup_elem _ _ _ _ Hl) as (gr & Hgr & <- & <-).
      apply Hrow in Hgr as (Hp & Hc & Hg). split; [exact Hg|]. exists (profile gr). auto.
    + intros (Hg & r & Hr & Hc & Hn).
      assert (Hgr : {| profile := r; coords := cd |} ∈ r0 :: rs).
      { apply Hrow. cbn [profile coords]. rewrite Hn. auto. }
      rewrite <- Hn.
      exact (to_dict_lookup_distinct coords _ _ Hnd Hgr).
  - intros d. split.
    + intros Hl. destruct (to_dict_lookup_elem _ _ _ _ Hl) as (gr & Hgr & Hn & Hd).
      apply Hrow in Hgr as (Hp & Hc & Hg). rewrite Hn in Hg.
      split; [rewrite Hg; eexists; reflexivity|]. exists (profile gr). auto.
    + intros ([cd Hg] & r & Hr & Hc & Hn & Hd).
      assert (Hgr : {| profile := r; coords := cd |} ∈ r0 :: rs).
      { apply Hrow. cbn [profile coords]. rewrite Hn. auto. }
      rewrite <- Hn, <- Hd.
      exact (to_dict_lookup_distinct (fun r => danger_score (profile r)) _ _ Hnd Hgr).
Qed.

(** X8.  The per-city dictionaries hold what the earlier stages computed:
    the coordinates stored for an area are the ones the geocoding service
    gave for it, the danger score stored for it is the one
    [calculate_danger_scores] gave to that (city, area), and nothing else is
    stored. *)
Theorem pipeline_lookups geocode data rows t c cm dm n :
  calculate_danger_scores data = Some rows ->
  data_pipeline geocode (Some data) = Some t ->
  city_coords t !! c = Some cm ->
  city_danger_scores t !! c = Some dm ->
  (forall cd, cm !! n = Some cd <->
     geocode c n = Some cd /\ exists r, r ∈ rows /\ city r = c /\ area_name r = n) /\
  (forall d, dm !! n = Some d <->
     is_Some (geocode c n) /\
     exists r, r ∈ rows /\ city r = c /\ area_name r = n /\ danger_score r = d).
Proof. exact (data_pipeline_lookups geocode data rows t c cm dm n). Qed.

(** The user interaction never reports a failed setup. *)
Lemma user_interaction_not_setup haversine_distance t city start_area end_area fuel :
  user_interaction haversine_distance t city start_area end_area fuel
  <> Return SetupFailed.
Proof.
  unfold user_interaction.
  destruct (city_graphs t !! city) as [G|]; [|discriminate].
  destruct (negb _ || negb _); [discriminate|].
  destruct (getitem (city_coords t) city) as [cm| |]; cbn [mbind outcome_bind];
    try discriminate.
  destruct (getitem (city_danger_scores t) city) as [dm| |]; cbn [mbind outcome_bind];
    try discriminate.
  destruct (a_star_search haversine_distance G start_area end_area cm dm fuel)
    as [[[|n p]|]| |]; cbn [mbind outcome_bind]; discriminate.
Qed.

(** When the pipeline fails. *)
Lemma data_pipeline_none geocode d :
  data_pipeline geocode d = None <->
  d = None \/
  exists data, d = Some data /\
    forall o, o ∈ data -> geocode (o_city o) (o_area_name o) = None.
Proof.
  destruct d as [data|]; [|split; [left; reflexivity | reflexivity]].
  unfold data_pipeline. cbn [mbind option_bind].
  destruct (calculate_rows data) as (rows & Hcalc & _). rewrite Hcalc.
  cbn [mbind option_bind].
  split.
  - intros H. right. exists data. split; [reflexivity|]. intros o Ho.
    destruct (geocode (o_city o) (o_area_name o)) as [cd|] eqn:Hg; [|reflexivity].
    exfalso.
    destruct (proj2 (calculate_rows_elem data rows (o_city o) (o_area_name o) Hcalc))
      as (r & Hr & Hc & Ha); [exists o; auto|].
    assert (Hin : {| profile := r; coords := cd |} ∈ geocode_areas geocode rows).
    { apply geocode_areas_elem. cbn [profile coords]. split; [exact Hr|].
      rewrite Hc, Ha. exact Hg. }
    destruct (geocode_areas geocode rows); [inversion Hin | discriminate].
  - intros [H|(data' & E & Hall)]; [discriminate|]. injection E as <-.
    destruct (geocode_areas geocode rows) as [|gr grs] eqn:Hgd; [reflexivity|].
    exfalso.
    assert (Hin : gr ∈ geocode_areas geocode rows) by (rewrite Hgd; left).
    apply geocode_areas_elem in Hin as [Hp Hg].
    destruct (proj1 (calculate_rows_elem data rows (city (profile gr))
                       (area_name (profile gr)) Hcalc)) as (o & Ho & Hc & Ha);
      [exists (profile gr); auto|].
    rewrite <- Hc, <- Ha, (Hall o Ho) in Hg. discriminate.
Qed.

(** X9.  The application gives up during setup ("Failed to load data" or
    "Geocoding failed") exactly when the data could not be loaded or the
    geocoding service located none of the areas of the data; empty data is
    such a case. *)
Theorem setup_fails_iff haversine_distance geocode d city start_area end_area fuel :
  run_application haversine_distance geocode d city start_area end_area fuel
    = Return SetupFailed <->
  d = None \/
  exists data, d = Some data /\
    forall o, o ∈ data -> geocode (o_city o) (o_area_name o) = None.
Proof.
  rewrite <- data_pipeline_none. unfold run_application.
  destruct (data_pipeline geocode d) as [t|].
  - split; [|discriminate]. intros H.
    exfalso. exact (user_interaction_not_setup _ _ _ _ _ _ H).
  - split; reflexivity.
Qed.

End PipelineFacts.

(** ** More about [calculate_danger_scores]: the rows and their order *)

Module ScoresMore.
Import Scores ScoresFacts PipelineFacts.

(** The aggregates of a row of the merged frame. *)
Lemma merge_rows obs b :
  b ∈ merge (crime_counts obs) (area_features obs) ->
  base_key b ∈ group_keys obs /\
  b_crime_count b = length (group_of (base_key b) obs) /\
  b_lighting_quality_score b
    = mean (map o_lighting_quality_score (group_of (base_key b) obs)) /\
  b_uptime_ratio b = mean (map o_uptime_ratio (group_of (base_key b) obs)).
Proof.
  unfold merge. intros Hb. apply list_elem_of_In, in_flat_map in Hb as (c & Hc & Hb).
  apply in_map_iff in Hb as (a & <- & Ha). apply filter_In in Ha as [Ha Hk].
  apply key_eqb_eq in Hk.
  unfold crime_counts in Hc. apply in_map_iff in Hc as (k & <- & Hkin).
  unfold area_features in Ha. apply in_map_iff in Ha as (k' & <- & _).
  cbn [fst snd] in *. subst k'. unfold base_key. cbn [b_city b_area_name
    b_crime_count b_lighting_quality_score b_uptime_ratio].
  destruct k as [c a]. cbn [fst snd].
  split; [apply list_elem_of_In; exact Hkin|]. auto.
Qed.

Lemma group_of_nonempty obs k : k ∈ group_keys obs -> group_of k obs <> [].
Proof.
  intros Hk. apply group_keys_elem in Hk. apply list_elem_of_fmap in Hk as (o & -> & Ho).
  unfold group_of. intros E.
  assert (Hin : In o (List.filter (fun o' => key_eqb (key_of o') (key_of o)) obs)).
  { apply filter_In. split; [apply list_elem_of_In; exact Ho | apply key_eqb_eq; reflexivity]. }
  rewrite E in Hin. exact Hin.
Qed.

(** A finished row and the row of the merged frame it was made from. *)
Lemma calculate_base data_df rows r :
  calculate_danger_scores data_df = Some rows -> r ∈ rows ->
  exists b, b ∈ merge (crime_counts data_df) (area_features data_df) /\
    city r = b_city b /\ area_name r = b_area_name b /\
    crime_count r = b_crime_count b /\
    lighting_quality_score r = b_lighting_quality_score b /\
    uptime_ratio r = b_uptime_ratio b.
Proof.
  intros Hcalc Hr.
  destruct (calculate_stages data_df) as (cn & ln & _ & _ & _ & _ & E).
  rewrite E in Hcalc. injection Hcalc as <-.
  apply list_elem_of_lookup in Hr as [i Hi].
  apply add_columns_lookup in Hi as (b & cn' & li & d & Hb & _ & _ & _ & ->).
  exists b. split; [eapply list_elem_of_lookup_2; exact Hb|]. repeat split.
Qed.

(** X11.  [calculate_danger_scores] returns exactly one row for every
    (city, area_name) pair of the data, sorted by city and then by area
    name, and no other row. *)
Theorem calculate_one_row_per_area data_df rows :
  calculate_danger_scores data_df = Some rows ->
  let keys := map (fun r => (city r, area_name r)) rows in
  NoDup keys /\
  StronglySorted (fun a b => key_compare a b = Lt) keys /\
  (forall c a, (c, a) ∈ keys <->
     exists o, o ∈ data_df /\ o_city o = c /\ o_area_name o = a).
Proof.
  intros Hcalc keys. unfold keys. rewrite (calculate_keys _ _ Hcalc).
  split; [apply group_keys_NoDup|]. split.
  - unfold group_keys. induction (map key_of data_df) as [|k l IH]; simpl; [constructor|].
    apply insert_key_sorted. exact IH.
  - intros c a. rewrite group_keys_elem, list_elem_of_fmap. unfold key_of. split.
    + intros (o & [= -> ->] & Ho). exists o. auto.
    + intros (o & Ho & <- & <-). exists o. auto.
Qed.

(** X12.  In a row of the result, [crime_count] is the number of
    records of the data for that city and area (at least one), and
    [lighting_quality_score] and [uptime_ratio] are the means of those
    records' values. *)
Theorem calculate_aggregates data_df rows r :
  calculate_danger_scores data_df = Some rows -> r ∈ rows ->
  let group := List.filter
                 (fun o => String.eqb (o_city o) (city r)
                           && String.eqb (o_area_name o) (area_name r)) data_df in
  crime_count r = length group /\ (0 < crime_count r)%nat /\
  lighting_quality_score r = mean (map o_lighting_quality_score group) /\
  uptime_ratio r = mean (map o_uptime_ratio group).
Proof.
  intros Hcalc Hr group.
  destruct (calculate_base _ _ _ Hcalc Hr) as (b & Hb & Hc & Ha & Hn & Hl & Hu).
  destruct (merge_rows _ _ Hb) as (Hk & En & El & Eu).
  assert (G : group = group_of (base_key b) data_df).
  { unfold group, group_of, base_key, key_eqb, key_of. rewrite Hc, Ha. reflexivity. }
  rewrite G, Hn, Hl, Hu. split; [exact En|]. split; [|split; assumption].
  rewrite En. pose proof (group_of_nonempty _ _ Hk) as Hne.
  destruct (group_of (base_key b) data_df); [contradiction | simpl; lia].
Qed.

Lemma norm_with_mono mn mx v1 v2 :
  mn <= mx -> v1 <= v2 -> norm_with mn mx v1 <= norm_with mn mx v2.
Proof.
  intros Hm Hv. unfold norm_with.
  destruct (Qeq_bool mx mn) eqn:E; [lra|].
  apply Qeq_bool_neq in E.
  assert (Hpos : 0 < mx - mn).
  { destruct (Qlt_le_dec mn mx) as [H|H]; [lra|]. exfalso. apply E. lra. }
  unfold Qdiv. apply Qmult_le_compat_r; [lra|].
  apply Qlt_le_weak, Qinv_lt_0_compat. exact Hpos.
Qed.

(** X13.  The final scores rank the areas as the weighted composite
    0.7 * crime_norm + 0.3 * lighting_inverted_norm does, over all cities
    together: a row with a smaller or equal composite never has a larger
    danger score. *)
Theorem danger_score_monotone data_df rows r1 r2 :
  calculate_danger_scores data_df = Some rows -> r1 ∈ rows -> r2 ∈ rows ->
  composite_of r1 <= composite_of r2 -> danger_score r1 <= danger_score r2.
Proof.
  intros Hcalc H1 H2 Hle.
  destruct (calculate_rows data_df) as (rows' & Hcalc' & Hrows).
  rewrite Hcalc in Hcalc'. injection Hcalc' as <-.
  apply list_elem_of_lookup in H1 as [i1 Hi1]. apply list_elem_of_lookup in H2 as [i2 Hi2].
  destruct (Hrows _ _ Hi1) as (_ & _ & y & ys & Hs & E1).
  destruct (Hrows _ _ Hi2) as (_ & _ & y' & ys' & Hs' & E2).
  rewrite Hs in Hs'. injection Hs' as <- <-.
  rewrite E1, E2.
  assert (Hm : series_min y ys <= series_max y ys).
  { destruct (series_range y ys y) as [A B]; [left; reflexivity|]. lra. }
  pose proof (norm_with_mono _ _ _ _ Hm Hle). lra.
Qed.

End ScoresMore.

(** ** The pathfinder on complete graphs: the cost of the returned path *)

Module SearchComplete.
Import Scores Graphs AStar AStarFacts SearchFacts PipelineFacts.

(** What the search returns on a complete graph. *)
Lemma a_star_search_complete_result haversine_distance G start_node end_node
    coords_map danger_scores fuel p :
  complete_graph G -> start_node ∈ nodes G -> end_node ∈ nodes G ->
  (forall n, n ∈ nodes G -> is_Some (coords_map !! n)) ->
  (forall n, n ∈ nodes G -> exists d, danger_scores !! n = Some d /\ 0 < d) ->
  a_star_search haversine_distance G start_node end_node coords_map danger_scores fuel
    = Return (Some p) ->
  p = if decide (start_node = end_node) then [start_node] else [start_node; end_node].
Proof.
  intros Hcomplete Hstart Hend Hcoords Hdanger Hret.
  destruct (Hcoords start_node Hstart) as [cs Hcs].
  destruct (Hcoords end_node Hend) as [ce Hce].
  destruct (decide (start_node = end_node)) as [<-|Hne].
  - apply (a_star_search_mono _ _ _ _ _ _ _ (S fuel)) in Hret; [|discriminate|lia].
    rewrite (a_star_search_same _ _ _ _ _ cs fuel Hcs) in Hret. congruence.
  - destruct (Hdanger end_node Hend) as (d_end & Hd_end & _).
    destruct (search_loop_direct_run haversine_distance G start_node end_node coords_map
                danger_scores d_end Hcomplete Hstart Hend Hcoords Hdanger Hne Hd_end cs ce)
      as (fuel0 & rfuel & Hloop).
    apply (a_star_search_mono _ _ _ _ _ _ _ (Nat.max fuel (Nat.max fuel0 rfuel))) in Hret;
      [|discriminate|lia].
    unfold a_star_search, getitem in Hret. rewrite Hcs, Hce in Hret.
    cbn [mbind outcome_bind] in Hret.
    rewrite (search_loop_mono _ _ _ _ _ _ rfuel _ fuel0 _ _ _ Hloop) in Hret;
      [congruence | discriminate | lia | lia].
Qed.

(** On a complete graph a path that starts in the graph stays in it. *)
Lemma is_path_nodes G : complete_graph G ->
  forall q a, head q = Some a -> a ∈ nodes G -> is_path G q ->
  forall n, n ∈ q -> n ∈ nodes G.
Proof.
  intros [_ Hc]. induction q as [|x q IH]; intros a Hh Ha Hp n Hn; [inversion Hn|].
  injection Hh as ->. apply elem_of_cons in Hn as [->|Hn]; [exact Ha|].
  destruct q as [|y q]; [inversion Hn|].
  destruct Hp as [(l & Hl & Hy) Hp].
  destruct (Hc a Ha) as (l' & Hl' & _ & Hmem). rewrite Hl in Hl'. injection Hl' as <-.
  apply (IH y eq_refl); [apply Hmem; exact Hy | exact Hp | exact Hn].
Qed.

(** X14.  On a complete graph with positive danger scores the path that
    [a_star_search] returns is a cheapest one: no path of the graph from
    start to end has a smaller cumulative danger score. *)
Theorem a_star_search_cheapest haversine_distance G start_node end_node
    coords_map danger_scores fuel p q :
  complete_graph G -> start_node ∈ nodes G -> end_node ∈ nodes G ->
  (forall n, n ∈ nodes G -> is_Some (coords_map !! n)) ->
  (forall n, n ∈ nodes G -> exists d, danger_scores !! n = Some d /\ 0 < d) ->
  a_star_search haversine_distance G start_node end_node coords_map danger_scores fuel
    = Return (Some p) ->
  head q = Some start_node -> last q = Some end_node -> is_path G q ->
  path_cost danger_scores p <= path_cost danger_scores q.
Proof.
  intros Hcomplete Hstart Hend Hcoords Hdanger Hret Hhead Hlast Hpath.
  pose proof (is_path_nodes G Hcomplete q start_node Hhead Hstart Hpath) as Hq.
  rewrite (a_star_search_complete_result _ _ _ _ _ _ _ _
             Hcomplete Hstart Hend Hcoords Hdanger Hret).
  assert (Hpos : forall n, n ∈ q -> 0 <= default 0 (danger_scores !! n)).
  { intros n Hn. destruct (Hdanger n (Hq n Hn)) as (d & -> & Hd). simpl. lra. }
  destruct (Hdanger end_node Hend) as (d_end & Hd_end & Hd_pos).
  destruct q as [|a tl]; [discriminate|]. injection Hhead as ->.
  unfold path_cost.
  assert (Hsum : forall l : list string, (forall n, n ∈ l -> n ∈ start_node :: tl) ->
            0 <= foldr Qplus 0 (map (fun n => default 0 (danger_scores !! n)) l)).
  { induction l as [|x l IH]; intros Hl; [simpl; lra|]. cbn [map foldr].
    assert (0 <= default 0 (danger_scores !! x)) by (apply Hpos, Hl; left).
    assert (0 <= foldr Qplus 0 (map (fun n => default 0 (danger_scores !! n)) l))
      by (apply IH; intros n Hn; apply Hl; right; exact Hn).
    lra. }
  destruct (decide (start_node = end_node)) as [E|Hne].
  - cbn [tail map foldr]. apply Hsum. intros n Hn. right. exact Hn.
  - cbn [tail map foldr]. rewrite Hd_end. cbn [default].
    destruct tl as [|b tl]; [simpl in Hlast; congruence|].
    assert (Hl : last (b :: tl) = Some end_node) by exact Hlast.
    eapply Qle_trans;
      [|exact (path_cost_last danger_scores (b :: tl) end_node d_end
                 (fun n Hn => Hpos n (list_elem_of_further _ _ _ Hn)) Hl Hd_end)].
    unfold id. lra.
Qed.

End SearchComplete.

(** ** Facts about the map drawing *)

Module VisualFacts.
Import Scores Graphs Visualization.

Lemma subscript_some cm loc c : cm !! loc = Some c -> subscript cm loc = Ok c.
Proof. intros H. unfold subscript. rewrite H. reflexivity. Qed.

(** A comprehension either gives one value per element, or raises what its
    body raised on the first element where it raised. *)
Lemma for_each_cases {A B} (f : A -> result B) (l : list A) :
  (exists ys, for_each f l = Ok ys /\ Forall2 (fun x y => f x = Ok y) l ys) \/
  (exists l1 x l2 e, l = l1 ++ x :: l2 /\
     Forall (fun y => exists z, f y = Ok z) l1 /\ f x = Raised e /\
     for_each f l = Raised e).
Proof.
  induction l as [|x l IH].
  - left. exists []. split; [reflexivity | constructor].
  - cbn [for_each]. destruct (f x) as [y|e] eqn:Hx.
    + destruct IH as [(ys & -> & Hall)|(l1 & x' & l2 & e & -> & Hall & Hx' & ->)].
      * left. exists (y :: ys). split; [reflexivity|]. constructor; assumption.
      * right. exists (x :: l1), x', l2, e. split; [reflexivity|].
        split; [constructor; [eexists; exact Hx | exact Hall]|]. split; [exact Hx'|reflexivity].
    + right. exists [], x, l, e. split; [reflexivity|]. split; [constructor|].
      split; [exact Hx | reflexivity].
Qed.

Lemma for_each_ok {A B} (f : A -> result B) (l : list A) ys :
  Forall2 (fun x y => f x = Ok y) l ys -> for_each f l = Ok ys.
Proof.
  induction 1 as [|x y l ys Hx _ IH]; [reflexivity|].
  cbn [for_each]. rewrite Hx. cbn [mbind result_mbind result_bind]. rewrite IH. reflexivity.
Qed.

Lemma for_each_raised {A B} (f : A -> result B) l1 x l2 e :
  Forall (fun y => exists z, f y = Ok z) l1 -> f x = Raised e ->
  for_each f (l1 ++ x :: l2) = Raised e.
Proof.
  intros Hall Hx. induction Hall as [|y l1 [z Hy] _ IH]; cbn [app for_each].
  - rewrite Hx. reflexivity.
  - rewrite Hy. cbn [mbind result_mbind result_bind]. rewrite IH. reflexivity.
Qed.

(** The coordinates of the areas of a path, one by one. *)
Definition located (city_coords : gmap string coord) (path : list string)
    (cs : list coord) : Prop :=
  Forall2 (fun loc c => city_coords !! loc = Some c) path cs.

Lemma located_fun cm path cs cs' : located cm path cs -> located cm path cs' -> cs = cs'.
Proof.
  intros H. revert cs'. induction H as [|n c path cs Hn _ IH]; intros cs' H';
    inversion H' as [|? c' ? cs'' Hn' Hrest]; subst; [reflexivity|].
  rewrite Hn in Hn'. injection Hn' as <-. f_equal. apply IH. exact Hrest.
Qed.

Lemma located_exists cm path :
  (forall n, n ∈ path -> is_Some (cm !! n)) -> exists cs, located cm path cs.
Proof.
  induction path as [|n path IH]; intros H; [exists []; constructor|].
  destruct (H n) as [c Hc]; [left|].
  destruct IH as [cs Hcs]; [intros m Hm; apply H; right; exact Hm|].
  exists (c :: cs). constructor; assumption.
Qed.

Lemma located_elem cm path cs n :
  located cm path cs -> n ∈ path -> is_Some (cm !! n).
Proof.
  intros H Hn. induction H as [|m c path cs Hm _ IH]; [inversion Hn|].
  apply elem_of_cons in Hn as [->|Hn]; [rewrite Hm; eexists; reflexivity | apply IH; exact Hn].
Qed.

Lemma located_subscript cm path cs :
  located cm path cs ->
  for_each (subscript cm) path = Ok cs /\
  for_each (fun loc => c ← subscript cm loc; Ok c.1) path = Ok (map fst cs) /\
  for_each (fun loc => c ← subscript cm loc; Ok c.2) path = Ok (map snd cs).
Proof.
  intros H. split; [|split]; apply for_each_ok.
  - eapply Forall2_impl; [exact H|]. intros n c Hn. unfold subscript. rewrite Hn. reflexivity.
  - apply Forall2_fmap_r. eapply Forall2_impl; [exact H|]. intros n c Hn.
    unfold subscript. rewrite Hn. reflexivity.
  - apply Forall2_fmap_r. eapply Forall2_impl; [exact H|]. intros n c Hn.
    unfold subscript. rewrite Hn. reflexivity.
Qed.

(** The first area of a path that has no coordinates. *)
Definition first_missing (city_coords : gmap string coord) (path : list string)
    (loc : string) : Prop :=
  exists l1 l2, path = l1 ++ loc :: l2 /\
    (forall n, n ∈ l1 -> is_Some (city_coords !! n)) /\ city_coords !! loc = None.

Lemma first_missing_raised cm path loc :
  first_missing cm path loc ->
  for_each (fun loc => c ← subscript cm loc; Ok c.1) path = Raised (MissingCoords loc).
Proof.
  intros (l1 & l2 & -> & Hall & Hk). apply for_each_raised.
  - apply Forall_forall. intros n Hn. destruct (Hall n Hn) as [c Hc].
    exists c.1. unfold subscript. rewrite Hc. reflexivity.
  - unfold subscript. rewrite Hk. reflexivity.
Qed.

Lemma located_or_missing cm path :
  (exists cs, located cm path cs) \/ (exists loc, first_missing cm path loc).
Proof.
  induction path as [|n path IH]; [left; exists []; constructor|].
  destruct (cm !! n) as [c|] eqn:Hn.
  - destruct IH as [[cs Hcs]|(loc & l1 & l2 & -> & Hall & Hk)].
    + left. exists (c :: cs). constructor; assumption.
    + right. exists loc, (n :: l1), l2. split; [reflexivity|]. split; [|exact Hk].
      intros m Hm. apply elem_of_cons in Hm as [->|Hm]; [rewrite Hn; eexists; reflexivity|].
      apply Hall. exact Hm.
  - right. exists n, [], path. split; [reflexivity|]. split; [|exact Hn].
    intros m Hm. inversion Hm.
Qed.

Lemma first_missing_fun cm path loc loc' :
  first_missing cm path loc -> first_missing cm path loc' -> loc = loc'.
Proof.
  intros H H'. apply first_missing_raised in H, H'. congruence.
Qed.

Lemma first_missing_not_located cm path loc cs :
  first_missing cm path loc -> located cm path cs -> False.
Proof.
  intros (l1 & l2 & -> & _ & Hk) H.
  destruct (located_elem cm _ cs loc H) as [c Hc]; [|congruence].
  apply elem_of_app. right. left.
Qed.

(** The line drawn for a route. *)
Definition route_line (reply : osrm_reply) (path_coords : list coord) : poly_line :=
  match reply with
  | Geometry (p :: route) =>
      {| line_points := p :: route; line_color := blue; line_weight := 5 |}
  | _ => {| line_points := path_coords; line_color := purple; line_weight := 3 |}
  end.

Definition swap (c : coord) : Q * Q := (c.2, c.1).

(** [create_route_map] on a path whose areas all have coordinates. *)
Lemma create_route_map_located request path cm dm first rest cs :
  path = first :: rest -> located cm path cs ->
  exists c_first c_last,
    cm !! first = Some c_first /\ cm !! List.last path first = Some c_last /\
    create_route_map request path cm dm =
    match request (map swap cs) with
    | NoGeometry => Raised BadReply
    | reply =>
        Ok (Some {| map_location := (mean (map fst cs), mean (map snd cs));
                    circle_markers := map (circle_of dm) (map_to_list cm);
                    markers := [ {| marker_location := c_first; marker_kind_of := START;
                                    marker_area := first; marker_color := green |};
                                 {| marker_location := c_last; marker_kind_of := FINISH;
                                    marker_area := List.last path first;
                                    marker_color := red |} ];
                    poly_lines := [route_line reply cs] |})
    end.
Proof.
  intros -> Hloc.
  destruct (located_elem cm _ cs first Hloc) as [c_first Hf]; [left|].
  destruct (located_elem cm _ cs (List.last (first :: rest) first) Hloc) as [c_last Hl].
  { apply list_elem_of_In.
    destruct (exists_last (l := first :: rest)) as (l' & a & E); [discriminate|].
    rewrite E, last_last, <- E.
    assert (In a (l' ++ [a])) by (apply in_or_app; right; left; reflexivity).
    rewrite <- E in H. exact H. }
  exists c_first, c_last. split; [exact Hf|]. split; [exact Hl|].
  destruct (located_subscript cm _ cs Hloc) as (E1 & E2 & E3).
  unfold create_route_map. rewrite E2. cbn [mbind result_mbind result_bind].
  rewrite E3. cbn [mbind result_mbind result_bind].
  rewrite (subscript_some _ _ _ Hf). cbn [mbind result_mbind result_bind].
  rewrite (subscript_some _ _ _ Hl). cbn [mbind result_mbind result_bind].
  rewrite E1. cbn [mbind result_mbind result_bind].
  unfold get_osrm_route. fold swap.
  destruct (request (map swap cs)) as [| |[|p route]];
    cbn [mbind result_mbind result_bind route_line]; reflexivity.
Qed.

Lemma danger_color_spec score :
  (danger_color score = green <-> score < 7 # 2) /\
  (danger_color score = orange <-> 7 # 2 <= score /\ score < 6) /\
  (danger_color score = red <-> 6 <= score).
Proof.
  unfold danger_color.
  destruct (Qlt_le_dec score (7 # 2)) as [H1|H1]; [|destruct (Qlt_le_dec score 6) as [H2|H2]];
    repeat split; intros;
    first [ reflexivity | discriminate | lra | (exfalso; lra)
          | (exfalso; match goal with H : _ /\ _ |- _ => destruct H; lra end) ].
Qed.

(** X15.  [create_route_map] returns no map exactly for the empty path; it
    raises a KeyError exactly when an area of the path has no coordinates,
    and then for the first such area; the only other failure is a reply of
    the routing service without a route geometry. *)
Theorem create_route_map_failures request path city_coords city_danger_scores :
  (create_route_map request path city_coords city_danger_scores = Ok None
     <-> path = []) /\
  (forall loc,
     create_route_map request path city_coords city_danger_scores
       = Raised (MissingCoords loc)
     <-> first_missing city_coords path loc) /\
  (create_route_map request path city_coords city_danger_scores = Raised BadReply
     <-> path <> [] /\
         exists cs, located city_coords path cs /\ request (map swap cs) = NoGeometry).
Proof.
  destruct path as [|first rest].
  { split; [split; reflexivity|]. split.
    - intros loc. split; [discriminate|]. intros (l1 & l2 & E & _). destruct l1; discriminate.
    - split; [discriminate|]. intros [H _]. contradiction. }
  destruct (located_or_missing city_coords (first :: rest)) as [[cs Hcs]|[loc0 Hmiss]].
  - destruct (create_route_map_located request _ city_coords city_danger_scores
                first rest cs eq_refl Hcs) as (c1 & c2 & _ & _ & E).
    rewrite E. split; [|split].
    + split; [|discriminate]. destruct (request (map swap cs)); discriminate.
    + intros loc. split.
      * destruct (request (map swap cs)); discriminate.
      * intros Hm. exfalso. exact (first_missing_not_located _ _ _ _ Hm Hcs).
    + split.
      * intros H. split; [discriminate|]. exists cs. split; [exact Hcs|].
        destruct (request (map swap cs)); try discriminate. reflexivity.
      * intros (_ & cs' & Hcs' & Hreq). rewrite (located_fun _ _ _ _ Hcs Hcs'), Hreq.
        reflexivity.
  - assert (E : create_route_map request (first :: rest) city_coords city_danger_scores
                = Raised (MissingCoords loc0)).
    { unfold create_route_map. rewrite (first_missing_raised _ _ _ Hmiss). reflexivity. }
    rewrite E. split; [|split].
    + split; discriminate.
    + intros loc. split.
      * intros [= <-]. exact Hmiss.
      * intros Hm. rewrite (first_missing_fun _ _ _ _ Hmiss Hm). reflexivity.
    + split; [discriminate|]. intros (_ & cs & Hcs & _). exfalso.
      exact (first_missing_not_located _ _ _ _ Hmiss Hcs).
Qed.

(** What [create_route_map] returned when it returned a map. *)
Lemma create_route_map_inv request path cm dm m :
  create_route_map request path cm dm = Ok (Some m) ->
  exists first rest cs c_first c_last,
    path = first :: rest /\ located cm path cs /\
    cm !! first = Some c_first /\ cm !! List.last path first = Some c_last /\
    request (map swap cs) <> NoGeometry /\
    m = {| map_location := (mean (map fst cs), mean (map snd cs));
           circle_markers := map (circle_of dm) (map_to_list cm);
           markers := [ {| marker_location := c_first; marker_kind_of := START;
                           marker_area := first; marker_color := green |};
                        {| marker_location := c_last; marker_kind_of := FINISH;
                           marker_area := List.last path first;
                           marker_color := red |} ];
           poly_lines := [route_line (request (map swap cs)) cs] |}.
Proof.
  intros H. destruct path as [|first rest]; [discriminate|].
  destruct (located_or_missing cm (first :: rest)) as [[cs Hcs]|[loc0 Hmiss]].
  - destruct (create_route_map_located request _ cm dm first rest cs eq_refl Hcs)
      as (c1 & c2 & H1 & H2 & E).
    rewrite E in H. exists first, rest, cs, c1, c2.
    split; [reflexivity|]. split; [exact Hcs|]. split; [exact H1|]. split; [exact H2|].
    destruct (request (map swap cs)); try discriminate;
      (split; [discriminate|]); congruence.
  - unfold create_route_map in H. rewrite (first_missing_raised _ _ _ Hmiss) in H.
    discriminate.
Qed.

(** X16.  On the map that [create_route_map] returns, the start marker is
    at the coordinates of the first area of the path and the end marker at
    those of the last, the map is centred on the mean of the coordinates of
    the path, and there is one route line, never empty: the route of the
    routing service in blue when it gave a non-empty one, and otherwise the
    straight segments through the coordinates of the areas of the path, in
    the order of the path, in purple. *)
Theorem create_route_map_drawing request path city_coords city_danger_scores m :
  create_route_map request path city_coords city_danger_scores = Ok (Some m) ->
  exists cs start finish line,
    located city_coords path cs /\
    map_location m = (mean (map fst cs), mean (map snd cs)) /\
    markers m = [start; finish] /\
    head path = Some (marker_area start) /\
    city_coords !! marker_area start = Some (marker_location start) /\
    last path = Some (marker_area finish) /\
    city_coords !! marker_area finish = Some (marker_location finish) /\
    poly_lines m = [line] /\ line_points line <> [] /\
    ((line_color line = blue /\
      request (map swap cs) = Geometry (line_points line)) \/
     (line_color line = purple /\ line_points line = cs /\
      (request (map swap cs) = RequestFailed \/ request (map swap cs) = Geometry []))).
Proof.
  intros H.
  destruct (create_route_map_inv _ _ _ _ _ H)
    as (first & rest & cs & c1 & c2 & -> & Hcs & H1 & H2 & Hreq & ->).
  eexists cs, _, _, _. split; [exact Hcs|]. split; [reflexivity|].
  split; [reflexivity|]. cbn [marker_area marker_location line_points line_color].
  split; [reflexivity|]. split; [exact H1|].
  split.
  { destruct (exists_last (l := first :: rest)) as (l' & a & E); [discriminate|].
    rewrite E, last_last, last_snoc. reflexivity. }
  split; [exact H2|]. split; [reflexivity|].
  assert (Hne : cs <> []) by (inversion Hcs; discriminate).
  destruct (request (map swap cs)) as [| |[|p route]]; cbn [route_line line_points line_color].
  - split; [exact Hne|]. right. auto.
  - contradiction.
  - split; [exact Hne|]. right. auto.
  - split; [discriminate|]. left. auto.
Qed.

(** X17.  The map has exactly one circle for every area that has
    coordinates, at those coordinates.  Its score is the danger score of the
    area, or 0 when the area has none, and its colour follows the score:
    green below 3.5, orange from 3.5 and below 6, red from 6; so an area
    without a danger score is drawn green. *)
Theorem create_route_map_circles request path city_coords city_danger_scores m :
  create_route_map request path city_coords city_danger_scores = Ok (Some m) ->
  NoDup (map circle_area (circle_markers m)) /\
  (forall area, area ∈ map circle_area (circle_markers m)
                <-> is_Some (city_coords !! area)) /\
  (forall c, c ∈ circle_markers m ->
     city_coords !! circle_area c = Some (circle_location c) /\
     circle_score c = default 0 (city_danger_scores !! circle_area c) /\
     (circle_color c = green <-> circle_score c < 7 # 2) /\
     (circle_color c = orange <-> 7 # 2 <= circle_score c /\ circle_score c < 6) /\
     (circle_color c = red <-> 6 <= circle_score c) /\
     (city_danger_scores !! circle_area c = None -> circle_color c = green)).
Proof.
  intros H.
  destruct (create_route_map_inv _ _ _ _ _ H)
    as (first & rest & cs & c1 & c2 & _ & _ & _ & _ & _ & ->).
  cbn [circle_markers].
  assert (E : map circle_area (map (circle_of city_danger_scores) (map_to_list city_coords))
              = (map_to_list city_coords).*1).
  { rewrite map_map. reflexivity. }
  rewrite E. split; [apply NoDup_fst_map_to_list|]. split.
  - intros area. rewrite list_elem_of_fmap. split.
    + intros ([a c] & -> & Hin). apply elem_of_map_to_list in Hin. cbn [fst].
      rewrite Hin. eexists; reflexivity.
    + intros [c Hc]. exists (area, c). split; [reflexivity|].
      apply elem_of_map_to_list. exact Hc.
  - intros c Hc. apply list_elem_of_fmap in Hc as ([a cd] & -> & Hin).
    apply elem_of_map_to_list in Hin.
    unfold circle_of. cbn [fst snd circle_area circle_location circle_score circle_color].
    split; [exact Hin|]. split; [reflexivity|].
    destruct (danger_color_spec (default 0 (city_danger_scores !! a))) as (Hg & Ho & Hr).
    split; [exact Hg|]. split; [exact Ho|]. split; [exact Hr|].
    intros ->. reflexivity.
Qed.

End VisualFacts.

(** ** Facts about loading, and about the application from the workbook to
       the saved map *)

Module AppFacts.
Import Scores ScoresFacts Graphs GraphsFacts AStar AStarFacts Main MainFacts.
Import SearchFacts PipelineFacts SearchComplete Visualization VisualFacts DataHandler App.


(** The frames collected from the sheets of a workbook. *)
Definition collect (xls : gmap string (list observation))
    (items : list (string * string)) : list (list observation) :=
  omap (fun item : string * string =>
          match xls !! item.1 with
          | Some df => Some (map (set_city item.2) df)
          | None => None
          end) items.

Lemma load_and_combine_data_unfold read_excel :
  load_and_combine_data read_excel =
  match read_excel (map fst sheet_names_map) with
  | Some xls =>
      match collect xls sheet_names_map with
      | [] => None
      | _ => Some (concat (collect xls sheet_names_map))
      end
  | None => None
  end.
Proof. reflexivity. Qed.

Lemma filter_set_city c c' df :
  List.filter (fun o => String.eqb (o_city o) c) (map (set_city c') df)
  = if String.eqb c' c then map (set_city c') df else [].
Proof.
  induction df as [|o df IH]; [destruct (String.eqb c' c); reflexivity|].
  cbn [map List.filter set_city o_city]. rewrite IH.
  destruct (String.eqb c' c); reflexivity.
Qed.

Lemma filter_concat {A} (f : A -> bool) (ls : list (list A)) :
  List.filter f (concat ls) = concat (map (List.filter f) ls).
Proof.
  induction ls as [|l ls IH]; [reflexivity|].
  cbn [concat map]. rewrite List.filter_app, IH. reflexivity.
Qed.

(** The records of one city in the collected frames. *)
Lemma collect_city xls items c :
  NoDup (map snd items) ->
  List.filter (fun o => String.eqb (o_city o) c) (concat (collect xls items))
  = match List.find (fun item => String.eqb item.2 c) items with
    | Some item =>
        match xls !! item.1 with
        | Some df => map (set_city c) df
        | None => []
        end
    | None => []
    end.
Proof.
  induction items as [|[s c'] items IH]; intros Hnd; [reflexivity|].
  cbn [map snd] in Hnd. apply NoDup_cons in Hnd as [Hc' Hnd].
  cbn [List.find snd fst]. unfold collect. cbn [omap list_omap fst snd]. fold (collect xls items).
  destruct (String.eqb c' c) eqn:E.
  - apply String.eqb_eq in E. subst c'.
    assert (Hrest : List.filter (fun o => String.eqb (o_city o) c) (concat (collect xls items)) = []).
    { rewrite (IH Hnd).
      destruct (List.find (fun item => String.eqb item.2 c) items) as [item|] eqn:F;
        [|reflexivity].
      apply List.find_some in F as [Hin Heq]. apply String.eqb_eq in Heq.
      exfalso. apply Hc'. apply list_elem_of_In, in_map_iff. exists item. auto. }
    cbn [fst snd]. destruct (xls !! s) as [df|]; [|exact Hrest].
    cbn [concat]. rewrite List.filter_app, Hrest, filter_set_city, String.eqb_refl.
    apply app_nil_r.
  - destruct (xls !! s) as [df|]; [|exact (IH Hnd)].
    cbn [concat]. rewrite List.filter_app, filter_set_city, E. exact (IH Hnd).
Qed.

Lemma collect_elem xls items o :
  o ∈ concat (collect xls items) <->
  exists sheet city_name df raw,
    (sheet, city_name) ∈ items /\ xls !! sheet = Some df /\ raw ∈ df /\
    o = set_city city_name raw.
Proof.
  induction items as [|[s c] items IH].
  - split; [intros H; inversion H|]. intros (? & ? & ? & ? & H & _). inversion H.
  - unfold collect. cbn [omap list_omap fst snd]. fold (collect xls items).
    destruct (xls !! s) as [df|] eqn:Hs.
    + cbn [concat]. rewrite elem_of_app, IH, list_elem_of_fmap. split.
      * intros [(raw & -> & Hraw)|(s' & c' & df' & raw & Hin & Hl & Hraw & ->)].
        -- exists s, c, df, raw. split; [left|]. auto.
        -- exists s', c', df', raw. split; [right; exact Hin|]. auto.
      * intros (s' & c' & df' & raw & Hin & Hl & Hraw & ->).
        apply elem_of_cons in Hin as [[= -> ->]|Hin].
        -- left. rewrite Hs in Hl. injection Hl as <-. exists raw. auto.
        -- right. exists s', c', df', raw. auto.
    + rewrite IH. split.
      * intros (s' & c' & df' & raw & Hin & Hl & Hraw & ->).
        exists s', c', df', raw. split; [right; exact Hin|]. auto.
      * intros (s' & c' & df' & raw & Hin & Hl & Hraw & ->).
        apply elem_of_cons in Hin as [[= -> ->]|Hin]; [congruence|].
        exists s', c', df', raw. auto.
Qed.

Lemma collect_nil xls items :
  collect xls items = [] <-> forall item, item ∈ items -> xls !! item.1 = None.
Proof.
  induction items as [|[s c] items IH].
  - split; [intros _ item H; inversion H | reflexivity].
  - unfold collect. cbn [omap list_omap fst snd]. fold (collect xls items).
    destruct (xls !! s) as [df|] eqn:Hs.
    + split; [discriminate|]. intros H. specialize (H (s, c)). cbn [fst] in H.
      rewrite Hs in H. discriminate H. left.
    + rewrite IH. split.
      * intros H item Hin. apply elem_of_cons in Hin as [->|Hin]; [exact Hs | apply H; exact Hin].
      * intros H item Hin. apply H. right. exact Hin.
Qed.

(** X19.  The loaded data are the rows of the sheets that were read, each
    with its city set to the city of its sheet, whatever the sheet had in
    that column: no row is lost, added or reordered within a city, and no
    row has another city than Delhi, Mumbai, Chennai, Bengaluru or Kochi. *)
Theorem load_and_combine_data_rows read_excel xls data :
  read_excel (map fst sheet_names_map) = Some xls ->
  load_and_combine_data read_excel = Some data ->
  (forall o, o ∈ data -> o_city o ∈ map snd sheet_names_map) /\
  (forall sheet city_name, (sheet, city_name) ∈ sheet_names_map ->
     List.filter (fun o => String.eqb (o_city o) city_name) data
     = match xls !! sheet with
       | Some df => map (set_city city_name) df
       | None => []
       end).
Proof.
  intros Hread Hload. rewrite load_and_combine_data_unfold, Hread in Hload.
  assert (E : data = concat (collect xls sheet_names_map)).
  { destruct (collect xls sheet_names_map); [discriminate | congruence]. }
  clear Hload. subst data. split.
  - intros o Ho. apply collect_elem in Ho as (s & c & df & raw & Hin & _ & _ & ->).
    cbn [set_city o_city]. apply list_elem_of_fmap. exists (s, c). auto.
  - intros sheet city_name Hin.
    rewrite collect_city by (apply (bool_decide_unpack _); vm_compute; reflexivity).
    repeat (apply elem_of_cons in Hin as [[= -> ->]|Hin]; [reflexivity|]).
    inversion Hin.
Qed.

(** What a found path tells about the query. *)
Lemma user_interaction_path haversine_distance t city start_area end_area fuel p :
  user_interaction haversine_distance t city start_area end_area fuel
    = Return (PathFound p) ->
  exists G cm dm,
    city_graphs t !! city = Some G /\ start_area ∈ nodes G /\ end_area ∈ nodes G /\
    city_coords t !! city = Some cm /\ city_danger_scores t !! city = Some dm /\
    a_star_search haversine_distance G start_area end_area cm dm fuel = Return (Some p).
Proof.
  unfold user_interaction. intros H.
  destruct (city_graphs t !! city) as [G|]; [|discriminate].
  destruct (decide (start_area ∈ nodes G)) as [Hs|Hs];
    [rewrite (bool_decide_eq_true_2 _ Hs) in H
    |rewrite (bool_decide_eq_false_2 _ Hs) in H; discriminate].
  destruct (decide (end_area ∈ nodes G)) as [He|He];
    [rewrite (bool_decide_eq_true_2 _ He) in H
    |rewrite (bool_decide_eq_false_2 _ He) in H; discriminate].
  cbn [negb orb] in H. unfold getitem in H.
  destruct (city_coords t !! city) as [cm|]; [|discriminate].
  cbn [mbind outcome_bind] in H.
  destruct (city_danger_scores t !! city) as [dm|]; [|discriminate].
  cbn [mbind outcome_bind] in H.
  destruct (a_star_search haversine_distance G start_area end_area cm dm fuel)
    as [[[|n q]|]| |] eqn:Hsearch; cbn [mbind outcome_bind] in H; try discriminate.
  injection H as <-. exists G, cm, dm. repeat split; assumption || reflexivity.
Qed.

(** A city that has a graph is a city of the data. *)
Lemma data_pipeline_city_known geocode data t c G :
  data_pipeline geocode (Some data) = Some t ->
  city_graphs t !! c = Some G ->
  exists o, o ∈ data /\ o_city o = c.
Proof.
  intros Hpipe HG.
  destruct (data_pipeline_tables _ _ _ Hpipe) as (rows & Hcalc & _ & ->).
  destruct (build_city_graphs_lookup (geocode_areas geocode rows) c) as [_ Hnone].
  destruct (city_rows c (geocode_areas geocode rows)) as [|gr grs] eqn:Hrows.
  { destruct (Hnone eq_refl) as (E & _). rewrite E in HG. discriminate. }
  assert (Hin : gr ∈ city_rows c (geocode_areas geocode rows)) by (rewrite Hrows; left).
  unfold city_rows in Hin. apply list_elem_of_In, filter_In in Hin as [Hin Hc].
  apply String.eqb_eq in Hc. apply list_elem_of_In, geocode_areas_elem in Hin as [Hp _].
  destruct (proj1 (calculate_rows_elem data rows c (area_name (profile gr)) Hcalc))
    as (o & Ho & Hoc & _); [exists (profile gr); auto|].
  exists o. auto.
Qed.

(** X20.  With the data of the loader, only Delhi, Mumbai, Chennai,
    Bengaluru and Kochi can be queried: for any other city name the
    application answers that the city is invalid (or that the setup
    failed), whatever the workbook contains. *)
Theorem unknown_city_rejected haversine_distance read_excel geocode
    city start_area end_area fuel :
  city ∉ map snd sheet_names_map ->
  run_application haversine_distance geocode (load_and_combine_data read_excel)
    city start_area end_area fuel = Return SetupFailed \/
  run_application haversine_distance geocode (load_and_combine_data read_excel)
    city start_area end_area fuel = Return InvalidCity.
Proof.
  intros Hcity. unfold run_application.
  destruct (data_pipeline geocode (load_and_combine_data read_excel)) as [t|] eqn:Hpipe;
    [right | left; reflexivity].
  unfold user_interaction.
  destruct (city_graphs t !! city) as [G|] eqn:HG; [exfalso | reflexivity].
  destruct (load_and_combine_data read_excel) as [data|] eqn:Hload; [|discriminate].
  destruct (data_pipeline_city_known _ _ _ _ _ Hpipe HG) as (o & Ho & Hc).
  rewrite load_and_combine_data_unfold in Hload.
  destruct (read_excel (map fst sheet_names_map)) as [xls|]; [|discriminate].
  assert (E : data = concat (collect xls sheet_names_map)).
  { destruct (collect xls sheet_names_map); [discriminate | congruence]. }
  subst data. apply collect_elem in Ho as (s & c & df & raw & Hin & _ & _ & ->).
  apply Hcity. rewrite <- Hc. cbn [set_city o_city].
  apply list_elem_of_fmap. exists (s, c). auto.
Qed.

(** X21.  From the workbook to the map: whenever the application reports
    a path, it is the direct one, and drawing the map never fails for want
    of coordinates.  Unless the routing service sent a reply without a route,
    the map is saved, with the start and end markers on the areas the user
    typed, at the coordinates the geocoding service gave for them, and with
    every circle at the coordinates the geocoding service gave for its
    area. *)
Theorem run_from_file_map haversine_distance read_excel geocode request
    city start_area end_area fuel p res :
  run_from_file haversine_distance read_excel geocode request
    city start_area end_area fuel = Return (PathFound p, res) ->
  p = (if decide (start_area = end_area) then [start_area]
       else [start_area; end_area]) /\
  (res = Raised BadReply \/
   exists m start finish,
     res = Ok (Some m) /\ markers m = [start; finish] /\
     marker_area start = start_area /\
     geocode city start_area = Some (marker_location start) /\
     marker_area finish = end_area /\
     geocode city end_area = Some (marker_location finish) /\
     forall c, c ∈ circle_markers m ->
       geocode city (circle_area c) = Some (circle_location c)).
Proof.
  unfold run_from_file. intros H.
  unfold run_application in H.
  destruct (load_and_combine_data read_excel) as [data|] eqn:Hload.
  2:{ cbn [data_pipeline mbind option_bind outcome_bind] in H. discriminate. }
  destruct (data_pipeline geocode (Some data)) as [t|] eqn:Hpipe;
    [|cbn [mbind outcome_bind] in H; discriminate].
  destruct (user_interaction haversine_distance t city start_area end_area fuel)
    as [r| |] eqn:Hui; cbn [mbind outcome_bind] in H; try discriminate.
  injection H as -> <-.
  destruct (user_interaction_path _ _ _ _ _ _ _ Hui)
    as (G & cm & dm & HG & Hs & He & Hcm & Hdm & Hsearch).
  destruct (data_pipeline_city _ _ _ _ _ Hpipe HG)
    as (rows & cm' & dm' & Hcalc & HGeq & Hcm' & Ecm & Hdm' & Edm & Hcomplete & Hcoords
        & Hscores).
  rewrite Hcm in Hcm'. injection Hcm' as <-. rewrite Hdm in Hdm'. injection Hdm' as <-.
  assert (Hdanger : forall n, n ∈ nodes G -> exists d, dm !! n = Some d /\ 0 < d).
  { intros n Hn. destruct (Hscores n Hn) as (d & Hd & Hlo & _). exists d.
    split; [exact Hd | lra]. }
  pose proof (a_star_search_complete_result _ _ _ _ _ _ _ _
                Hcomplete Hs He Hcoords Hdanger Hsearch) as Hp.
  split; [exact Hp|].
  unfold draw_route. rewrite Hcm, Hdm.
  destruct (data_pipeline_tables _ _ _ Hpipe) as (rows' & Hcalc' & _ & Et).
  rewrite Hcalc in Hcalc'. injection Hcalc' as <-.
  assert (Hpath : forall n, n ∈ p -> n ∈ nodes G).
  { intros n Hn. rewrite Hp in Hn.
    destruct (decide (start_area = end_area)) as [<-|].
    - apply list_elem_of_singleton in Hn as ->. exact Hs.
    - apply elem_of_cons in Hn as [->|Hn]; [exact Hs|].
      apply list_elem_of_singleton in Hn as ->. exact He. }
  destruct (located_exists cm p) as [cs Hcs];
    [intros n Hn; apply Hcoords, Hpath; exact Hn|].
  assert (Hshape : exists rest, p = start_area :: rest /\ List.last p start_area = end_area).
  { rewrite Hp. destruct (decide (start_area = end_area)) as [<-|]; eexists; split; reflexivity. }
  destruct Hshape as (rest & Epath & Hlast).
  destruct (create_route_map_located request p cm dm start_area rest cs Epath Hcs)
    as (c1 & c2 & H1 & H2 & E).
  rewrite E, Hlast. rewrite Hlast in H2.
  pose proof (fun n => proj1 (data_pipeline_lookups geocode data rows t city cm dm n
                                Hcalc Hpipe Hcm Hdm)) as Hgeo.
  assert (Hdrawn : forall reply, reply <> NoGeometry ->
    exists m start finish,
      Ok (save_map (Some
        {| map_location := (mean (map fst cs), mean (map snd cs));
           circle_markers := map (circle_of dm) (map_to_list cm);
           markers := [ {| marker_location := c1; marker_kind_of := START;
                           marker_area := start_area; marker_color := green |};
                        {| marker_location := c2; marker_kind_of := FINISH;
                           marker_area := end_area; marker_color := red |} ];
           poly_lines := [route_line reply cs] |})) = Ok (Some m) /\
      markers m = [start; finish] /\
      marker_area start = start_area /\
      geocode city start_area = Some (marker_location start) /\
      marker_area finish = end_area /\
      geocode city end_area = Some (marker_location finish) /\
      forall c, c ∈ circle_markers m ->
        geocode city (circle_area c) = Some (circle_location c)).
  { intros reply _. eexists _, _, _. split; [reflexivity|].
    cbn [markers circle_markers marker_area marker_location].
    split; [reflexivity|]. split; [reflexivity|].
    split; [apply (Hgeo start_area c1); exact H1|].
    split; [reflexivity|].
    split; [apply (Hgeo end_area c2); exact H2|].
    intros c Hc. apply list_elem_of_fmap in Hc as ([a cd] & -> & Hin).
    apply elem_of_map_to_list in Hin.
    unfold circle_of. cbn [fst snd circle_area circle_location circle_score].
    apply (Hgeo a cd); exact Hin. }
  destruct (request (map swap cs)) as [| |route] eqn:Hreq;
    cbn [mbind result_mbind result_bind].
  - right. apply Hdrawn. discriminate.
  - left. reflexivity.
  - right. apply Hdrawn. discriminate.
Qed.

(** X6.  Whenever the application reports a path, it is the direct route:
    the path [start; end], or [start] when both are the same area, whatever
    the values of the heuristic and the danger scores of the other areas of
    the city. *)
Theorem application_direct_route haversine_distance geocode combined_data
    city start_area end_area fuel p :
  run_application haversine_distance geocode combined_data city start_area end_area fuel
    = Return (PathFound p) ->
  p = (if decide (start_area = end_area) then [start_area]
       else [start_area; end_area]).
Proof.
  unfold run_application. intros H.
  destruct (data_pipeline geocode combined_data) as [t|] eqn:Hpipe; [|discriminate].
  destruct combined_data as [data|]; [|discriminate].
  destruct (user_interaction_path _ _ _ _ _ _ _ H)
    as (G & cm & dm & HG & Hs & He & Hcm & Hdm & Hsearch).
  destruct (data_pipeline_city _ _ _ _ _ Hpipe HG)
    as (rows & cm' & dm' & _ & _ & Hcm' & _ & Hdm' & _ & Hcomplete & Hcoords & Hscores).
  rewrite Hcm in Hcm'. injection Hcm' as <-. rewrite Hdm in Hdm'. injection Hdm' as <-.
  assert (Hdanger : forall n, n ∈ nodes G -> exists d, dm !! n = Some d /\ 0 < d).
  { intros n Hn. destruct (Hscores n Hn) as (d & Hd & Hlo & _). exists d.
    split; [exact Hd | lra]. }
  exact (a_star_search_complete_result _ _ _ _ _ _ _ _
           Hcomplete Hs He Hcoords Hdanger Hsearch).
Qed.

(** X18.  [pd.read_excel] is asked for the five sheets and returns all of
    them or raises.  With such a reader the loader returns nothing exactly
    when reading raised (the file or one of the sheets is missing), and a
    workbook whose five sheets are empty is loaded, as an empty data set. *)
Theorem load_and_combine_data_none read_excel :
  (forall xls, read_excel (map fst sheet_names_map) = Some xls ->
     forall sheet, sheet ∈ map fst sheet_names_map -> is_Some (xls !! sheet)) ->
  (load_and_combine_data read_excel = None
     <-> read_excel (map fst sheet_names_map) = None) /\
  (forall xls, read_excel (map fst sheet_names_map) = Some xls ->
     (forall sheet, sheet ∈ map fst sheet_names_map -> xls !! sheet = Some []) ->
     load_and_combine_data read_excel = Some []).
Proof.
  intros Hall. rewrite load_and_combine_data_unfold.
  destruct (read_excel (map fst sheet_names_map)) as [xls|] eqn:Hread.
  2:{ split; [split; reflexivity|]. intros xls H. discriminate. }
  specialize (Hall xls eq_refl).
  split.
  - split; [|discriminate]. intros H. exfalso.
    destruct (collect xls sheet_names_map) eqn:E; [|discriminate].
    pose proof (proj1 (collect_nil xls sheet_names_map) E) as E'.
    destruct (Hall "delhi_combined_data"%string) as [df Hdf]; [apply (bool_decide_unpack _); vm_compute; reflexivity|].
    assert (Hnone : xls !! "delhi_combined_data"%string = None)
      by (apply (E' ("delhi_combined_data", "Delhi")%string); left).
    congruence.
  - intros xls' [= <-] Hempty.
    unfold collect, sheet_names_map. cbn [omap list_omap fst snd].
    rewrite !Hempty by (apply (bool_decide_unpack _); vm_compute; reflexivity).
    reflexivity.
Qed.

End AppFacts.

(** ** Facts about the heuristic *)

Module HaversineFacts.
Import Stdlib.Reals.Reals Stdlib.micromega.Lra Haversine.
Local Open Scope R_scope.

Local Open Scope R_scope.

Lemma sin2_half x : (sin (x / 2)) ^ 2 = (1 - cos x) / 2.
Proof.
  replace x with (2 * (x / 2)) at 2 by lra.
  rewrite cos_2a_sin. simpl. lra.
Qed.

Lemma sin2_bound x : 0 <= (sin x) ^ 2 <= 1.
Proof.
  pose proof (sin2_cos2 x) as H. unfold Rsqr in H.
  pose proof (pow2_ge_0 (sin x)). pose proof (pow2_ge_0 (cos x)).
  simpl in *. lra.
Qed.

(** The quantity [a] is the haversine of an angle: it lies in [0, 1]. *)
Lemma haversine_a_bound c1 c2 : 0 <= haversine_a c1 c2 <= 1.
Proof.
  unfold haversine_a.
  set (p1 := radians c1.1). set (p2 := radians c2.1).
  set (t := (sin ((radians c2.2 - radians c1.2) / 2)) ^ 2).
  assert (Ht : 0 <= t <= 1) by apply sin2_bound.
  rewrite sin2_half, cos_minus.
  pose proof (COS_bound (p2 - p1)) as B1. rewrite cos_minus in B1.
  pose proof (COS_bound (p2 + p1)) as B2. rewrite cos_plus in B2.
  set (cc := cos p2 * cos p1) in *. set (ss := sin p2 * sin p1) in *.
  replace (cos p1 * cos p2) with cc by (unfold cc; ring).
  split; nra.
Qed.

Lemma atan2_quadrant y x : 0 <= y -> 0 <= x -> 0 <= atan2 y x <= PI / 2.
Proof.
  intros Hy Hx. unfold atan2. pose proof PI_RGT_0 as Hpi.
  destruct (Rlt_dec 0 x) as [H|H].
  - pose proof (atan_bound (y / x)) as [_ Hb].
    assert (0 <= y / x)
      by (unfold Rdiv; apply Rmult_le_pos; [exact Hy | apply Rlt_le, Rinv_0_lt_compat; exact H]).
    destruct (Rle_lt_or_eq_dec 0 (y / x) H0) as [Hlt|<-].
    + apply atan_increasing in Hlt. rewrite atan_0 in Hlt. lra.
    + rewrite atan_0. lra.
  - destruct (Rlt_dec x 0) as [H'|H']; [lra|].
    destruct (Rlt_dec 0 y); [lra|].
    destruct (Rlt_dec y 0); lra.
Qed.

Lemma haversine_distance_value c1 c2 :
  haversine_distance c1 c2 =
  Some (6371 * (2 * atan2 (sqrt (haversine_a c1 c2)) (sqrt (1 - haversine_a c1 c2)))).
Proof.
  unfold haversine_distance, sqrt_checked.
  destruct (haversine_a_bound c1 c2) as [H0 H1].
  destruct (Rle_dec 0 (haversine_a c1 c2)) as [_|N]; [|contradiction].
  cbn [mbind option_bind].
  destruct (Rle_dec 0 (1 - haversine_a c1 c2)) as [_|N]; [reflexivity|].
  exfalso. apply N. lra.
Qed.

Lemma haversine_a_sym c1 c2 : haversine_a c1 c2 = haversine_a c2 c1.
Proof.
  unfold haversine_a.
  rewrite !sin2_half.
  replace (radians c2.1 - radians c1.1) with (- (radians c1.1 - radians c2.1)) by ring.
  replace (radians c2.2 - radians c1.2) with (- (radians c1.2 - radians c2.2)) by ring.
  rewrite !cos_neg. ring.
Qed.

(** X23.  The distance is symmetric, and it is 0 from a point to itself,
    so the heuristic of the search is 0 at the destination. *)
Theorem haversine_distance_symmetric coord1 coord2 :
  haversine_distance coord1 coord2 = haversine_distance coord2 coord1 /\
  haversine_distance coord1 coord1 = Some 0.
Proof.
  split.
  - rewrite !haversine_distance_value, (haversine_a_sym coord1 coord2). reflexivity.
  - rewrite haversine_distance_value.
    assert (E : haversine_a coord1 coord1 = 0).
    { unfold haversine_a. rewrite !Rminus_diag.
      replace (0 / 2) with 0 by lra. rewrite sin_0. simpl. ring. }
    rewrite E, Rminus_0_r, sqrt_0, sqrt_1.
    unfold atan2. destruct (Rlt_dec 0 1) as [_|N]; [|exfalso; lra].
    replace (0 / 1) with 0 by lra. rewrite atan_0. f_equal. ring.
Qed.

End HaversineFacts.

(** ** More concrete runs *)

Module MoreExamples.
Import Scores ScoresFacts Graphs GraphsFacts AStar AStarFacts Main MainFacts Examples.
Import SearchFacts GraphShape PipelineFacts ScoresMore SearchComplete.
Import Visualization VisualFacts DataHandler App AppFacts PathfinderFacts.

(** A graph that is not complete: the chain A - B - C and the isolated
    node D. *)
Definition chain : graph :=
  add_edge "B" "C" (add_edge "A" "B" (add_node "D" empty_graph)).

Definition chain_coords : gmap string coord :=
  <["A"%string := (0, 0)]> (<["B"%string := (1, 1)]>
    (<["C"%string := (2, 0)]> (<["D"%string := (5, 5)]> ∅))).

Definition chain_scores : gmap string Q :=
  <["A"%string := 1]> (<["B"%string := 5]>
    (<["C"%string := 2]> (<["D"%string := 3]> ∅))).

Lemma chain_well_formed : well_formed chain.
Proof. apply nx_well_formed, add_edge_nx, add_edge_nx, add_node_nx, empty_graph_nx. Qed.

Lemma chain_nodes : nodes chain = ["D"; "A"; "B"; "C"]%string.
Proof. vm_compute. reflexivity. Qed.

Lemma chain_has_coords : forall n, n ∈ nodes chain -> is_Some (chain_coords !! n).
Proof.
  intros n Hn. rewrite chain_nodes in Hn.
  repeat (apply elem_of_cons in Hn as [->|Hn]); try (vm_compute; eauto).
  inversion Hn.
Qed.

Lemma chain_has_scores :
  forall n, n ∈ nodes chain -> exists d, chain_scores !! n = Some d /\ 0 < d.
Proof.
  intros n Hn. rewrite chain_nodes in Hn.
  repeat (apply elem_of_cons in Hn as [->|Hn]);
    try (eexists; split; [vm_compute; reflexivity | reflexivity]).
  inversion Hn.
Qed.

Example chain_run :
  a_star_search flat_distance chain "A" "C" chain_coords chain_scores 10
    = Return (Some ["A"; "B"; "C"]%string).
Proof. vm_compute. reflexivity. Qed.

Example chain_no_path :
  a_star_search flat_distance chain "A" "D" chain_coords chain_scores 10 = Return None.
Proof. vm_compute. reflexivity. Qed.

Lemma a_star_search_sound_witness :
  well_formed chain /\ "A"%string ∈ nodes chain /\ "C"%string ∈ nodes chain /\
  (forall n, n ∈ nodes chain -> is_Some (chain_coords !! n)) /\
  (forall n, n ∈ nodes chain -> exists d, chain_scores !! n = Some d /\ 0 < d) /\
  a_star_search flat_distance chain "A" "C" chain_coords chain_scores 10
    = Return (Some ["A"; "B"; "C"]%string) /\
  head ["A"; "B"; "C"]%string = Some "A"%string /\
  last ["A"; "B"; "C"]%string = Some "C"%string /\
  is_path chain ["A"; "B"; "C"]%string /\ NoDup ["A"; "B"; "C"]%string.
Proof.
  assert (HA : "A"%string ∈ nodes chain) by by_compute.
  assert (HC : "C"%string ∈ nodes chain) by by_compute.
  split; [exact chain_well_formed|]. split; [exact HA|]. split; [exact HC|].
  split; [exact chain_has_coords|]. split; [exact chain_has_scores|].
  split; [exact chain_run|].
  exact (a_star_search_sound flat_distance chain "A" "C" chain_coords chain_scores 10
           ["A"; "B"; "C"]%string
           chain_well_formed HA HC chain_has_coords chain_has_scores chain_run).
Defined.

Lemma a_star_search_cheapest_witness :
  complete_graph toy /\ "A"%string ∈ nodes toy /\ "C"%string ∈ nodes toy /\
  (forall n, n ∈ nodes toy -> is_Some (toy_coords !! n)) /\
  (forall n, n ∈ nodes toy -> exists d, toy_scores !! n = Some d /\ 0 < d) /\
  a_star_search flat_distance toy "A" "C" toy_coords toy_scores 5
    = Return (Some ["A"; "C"]%string) /\
  head ["A"; "B"; "C"]%string = Some "A"%string /\
  last ["A"; "B"; "C"]%string = Some "C"%string /\
  is_path toy ["A"; "B"; "C"]%string /\
  path_cost toy_scores ["A"; "C"]%string <= path_cost toy_scores ["A"; "B"; "C"]%string.
Proof.
  assert (HA : "A"%string ∈ nodes toy) by by_compute.
  assert (HC : "C"%string ∈ nodes toy) by by_compute.
  assert (Hp : is_path toy ["A"; "B"; "C"]%string).
  { simpl. split; [eexists; split; [vm_compute; reflexivity | by_compute]|].
    split; [eexists; split; [vm_compute; reflexivity | by_compute]|]. exact I. }
  split; [exact toy_complete|]. split; [exact HA|]. split; [exact HC|].
  split; [exact toy_has_coords|]. split; [exact toy_has_scores|].
  split; [exact toy_run|]. split; [reflexivity|]. split; [reflexivity|].
  split; [exact Hp|].
  exact (a_star_search_cheapest flat_distance toy "A" "C" toy_coords toy_scores 5
           ["A"; "C"]%string ["A"; "B"; "C"]%string
           toy_complete HA HC toy_has_coords toy_has_scores toy_run eq_refl eq_refl Hp).
Defined.

Lemma build_city_graphs_shape_witness :
  city_graphs (build_city_graphs two_cities) !! "Delhi"%string
    = Some (complete_on ["Saket"; "Rohini"; "Dwarka"]%string) /\
  nx_graph (complete_on ["Saket"; "Rohini"; "Dwarka"]%string).
Proof.
  assert (H : city_graphs (build_city_graphs two_cities) !! "Delhi"%string
              = Some (complete_on ["Saket"; "Rohini"; "Dwarka"]%string))
    by (vm_compute; reflexivity).
  split; [exact H|].
  exact (build_city_graphs_shape two_cities "Delhi" _ H).
Defined.

(** A geocoding service that does not find Rohini. *)
Definition locate (c a : string) : option coord :=
  if String.eqb a "Rohini" then None
  else if String.eqb a "Saket" then Some (2852 # 100, 7721 # 100)
  else if String.eqb a "Bandra" then Some (1905 # 100, 7283 # 100)
  else if String.eqb a "Dadar" then Some (1902 # 100, 7284 # 100)
  else Some (1002 # 100, 7630 # 100).

Definition three_rows : list area_profile :=
  default [] (calculate_danger_scores three_cities).

Definition three_tables : city_tables :=
  build_city_graphs (geocode_areas locate three_rows).

Definition mumbai : graph := complete_on ["Bandra"; "Dadar"]%string.

Definition mumbai_coords : gmap string coord :=
  default ∅ (city_coords three_tables !! "Mumbai"%string).

Definition mumbai_scores : gmap string Q :=
  default ∅ (city_danger_scores three_tables !! "Mumbai"%string).

Lemma three_calculated : calculate_danger_scores three_cities = Some three_rows.
Proof. vm_compute. reflexivity. Qed.

Lemma three_pipeline : data_pipeline locate (Some three_cities) = Some three_tables.
Proof. vm_compute. reflexivity. Qed.

Lemma three_mumbai : city_graphs three_tables !! "Mumbai"%string = Some mumbai.
Proof. vm_compute. reflexivity. Qed.

Lemma three_mumbai_coords : city_coords three_tables !! "Mumbai"%string = Some mumbai_coords.
Proof. vm_compute. reflexivity. Qed.

Lemma three_mumbai_scores :
  city_danger_scores three_tables !! "Mumbai"%string = Some mumbai_scores.
Proof. vm_compute. reflexivity. Qed.

Lemma pipeline_nodes_witness :
  data_pipeline locate (Some three_cities) = Some three_tables /\
  city_graphs three_tables !! "Delhi"%string = Some (complete_on ["Saket"%string]) /\
  ("Rohini"%string ∈ nodes (complete_on ["Saket"%string]) <->
   (exists o, o ∈ three_cities /\ o_city o = "Delhi"%string /\
              o_area_name o = "Rohini"%string) /\
   is_Some (locate "Delhi" "Rohini")).
Proof.
  assert (H : city_graphs three_tables !! "Delhi"%string
              = Some (complete_on ["Saket"%string])) by (vm_compute; reflexivity).
  split; [exact three_pipeline|]. split; [exact H|].
  exact (pipeline_nodes locate three_cities three_tables "Delhi" _ "Rohini"
           three_pipeline H).
Defined.

Lemma pipeline_lookups_witness :
  calculate_danger_scores three_cities = Some three_rows /\
  data_pipeline locate (Some three_cities) = Some three_tables /\
  city_coords three_tables !! "Mumbai"%string = Some mumbai_coords /\
  city_danger_scores three_tables !! "Mumbai"%string = Some mumbai_scores /\
  (forall cd, mumbai_coords !! "Dadar"%string = Some cd <->
     locate "Mumbai" "Dadar" = Some cd /\
     exists r, r ∈ three_rows /\ city r = "Mumbai"%string /\ area_name r = "Dadar"%string) /\
  (forall d, mumbai_scores !! "Dadar"%string = Some d <->
     is_Some (locate "Mumbai" "Dadar") /\
     exists r, r ∈ three_rows /\ city r = "Mumbai"%string /\
               area_name r = "Dadar"%string /\ danger_score r = d).
Proof.
  split; [exact three_calculated|]. split; [exact three_pipeline|].
  split; [exact three_mumbai_coords|]. split; [exact three_mumbai_scores|].
  exact (pipeline_lookups locate three_cities three_rows three_tables "Mumbai"
           mumbai_coords mumbai_scores "Dadar"
           three_calculated three_pipeline three_mumbai_coords three_mumbai_scores).
Defined.

Lemma calculate_one_row_per_area_witness :
  calculate_danger_scores three_cities = Some three_rows /\
  NoDup (map (fun r => (city r, area_name r)) three_rows) /\
  StronglySorted (fun a b => key_compare a b = Lt)
    (map (fun r => (city r, area_name r)) three_rows) /\
  (forall c a, (c, a) ∈ map (fun r => (city r, area_name r)) three_rows <->
     exists o, o ∈ three_cities /\ o_city o = c /\ o_area_name o = a).
Proof.
  split; [exact three_calculated|].
  exact (calculate_one_row_per_area three_cities three_rows three_calculated).
Defined.

Definition no_row : area_profile :=
  {| city := ""; area_name := ""; crime_count := 0; lighting_quality_score := 0;
     uptime_ratio := 0; crime_norm := 0; lighting_inverted_norm := 0; danger_score := 0 |}.

(** The rows of Rohini and Saket, the first two of the result. *)
Definition rohini_row : area_profile := nth 0 three_rows no_row.
Definition saket_row : area_profile := nth 1 three_rows no_row.

Lemma rohini_in : rohini_row ∈ three_rows.
Proof. apply list_elem_of_In. vm_compute. left. reflexivity. Qed.

Lemma saket_in : saket_row ∈ three_rows.
Proof. apply list_elem_of_In. vm_compute. right. left. reflexivity. Qed.

Lemma calculate_aggregates_witness :
  calculate_danger_scores three_cities = Some three_rows /\
  rohini_row ∈ three_rows /\
  crime_count rohini_row
    = length (List.filter
                (fun o => String.eqb (o_city o) (city rohini_row)
                          && String.eqb (o_area_name o) (area_name rohini_row))
                three_cities) /\
  (0 < crime_count rohini_row)%nat.
Proof.
  split; [exact three_calculated|]. split; [exact rohini_in|].
  destruct (calculate_aggregates three_cities three_rows rohini_row
              three_calculated rohini_in) as (H1 & H2 & _).
  split; [exact H1 | exact H2].
Defined.

Lemma danger_score_monotone_witness :
  calculate_danger_scores three_cities = Some three_rows /\
  saket_row ∈ three_rows /\ rohini_row ∈ three_rows /\
  composite_of saket_row <= composite_of rohini_row /\
  danger_score saket_row <= danger_score rohini_row.
Proof.
  assert (H : composite_of saket_row <= composite_of rohini_row)
    by (vm_compute; intros E; discriminate E).
  split; [exact three_calculated|]. split; [exact saket_in|]. split; [exact rohini_in|].
  split; [exact H|].
  exact (danger_score_monotone three_cities three_rows saket_row rohini_row
           three_calculated saket_in rohini_in H).
Defined.

(** A routing service that cannot be reached. *)
Definition no_service (waypoints : list (Q * Q)) : osrm_reply := RequestFailed.

(** The map of the route from A to C on the toy graph, drawn with straight
    lines. *)
Definition toy_map : folium_map :=
  {| map_location := (2 # 2, 0 # 2);
     circle_markers := map (circle_of toy_scores) (map_to_list toy_coords);
     markers := [ {| marker_location := (0, 0); marker_kind_of := START;
                     marker_area := "A"; marker_color := green |};
                  {| marker_location := (2, 0); marker_kind_of := FINISH;
                     marker_area := "C"; marker_color := red |} ];
     poly_lines := [ {| line_points := [(0, 0); (2, 0)]; line_color := purple;
                        line_weight := 3 |} ] |}.

Lemma toy_map_drawn :
  create_route_map no_service ["A"; "C"]%string toy_coords toy_scores = Ok (Some toy_map).
Proof. vm_compute. reflexivity. Qed.

Example toy_map_colours :
  map (fun c => (circle_area c, Qred (circle_score c), circle_color c))
    (circle_markers toy_map)
  = [ ("C", 2, green); ("A", 1, green); ("B", 5, orange) ]%string.
Proof. vm_compute. reflexivity. Qed.

Example route_map_missing_coords :
  create_route_map no_service ["A"; "D"; "E"]%string toy_coords toy_scores
  = Raised (MissingCoords "D").
Proof. vm_compute. reflexivity. Qed.

Lemma create_route_map_drawing_witness :
  create_route_map no_service ["A"; "C"]%string toy_coords toy_scores = Ok (Some toy_map) /\
  exists start finish line,
    markers toy_map = [start; finish] /\
    head ["A"; "C"]%string = Some (marker_area start) /\
    last ["A"; "C"]%string = Some (marker_area finish) /\
    poly_lines toy_map = [line] /\ line_points line <> [].
Proof.
  split; [exact toy_map_drawn|].
  destruct (create_route_map_drawing no_service ["A"; "C"]%string toy_coords toy_scores
              toy_map toy_map_drawn)
    as (cs & start & finish & line & _ & _ & Hm & Hs & _ & Hf & _ & Hl & Hne & _).
  exists start, finish, line. repeat split; assumption.
Defined.

Lemma create_route_map_circles_witness :
  create_route_map no_service ["A"; "C"]%string toy_coords toy_scores = Ok (Some toy_map) /\
  NoDup (map circle_area (circle_markers toy_map)) /\
  (forall area, area ∈ map circle_area (circle_markers toy_map)
                <-> is_Some (toy_coords !! area)).
Proof.
  split; [exact toy_map_drawn|].
  destruct (create_route_map_circles no_service ["A"; "C"]%string toy_coords toy_scores
              toy_map toy_map_drawn) as (H1 & H2 & _).
  split; [exact H1 | exact H2].
Defined.

Local Notation Returned := Pathfinder.Returned.
Local Notation NoFuel := Pathfinder.NoFuel.
Local Notation heapq := Pathfinder.heapq.

(** Another layout of the heap: items are added at the far end, and the
    least item is looked for from there. *)
Definition append_push (h : list entry) (x : entry) : list entry := h ++ [x].
Definition pop_reversed (h : list entry) : option (entry * list entry) :=
  heappop (rev h).

Lemma heapq_reversed : heapq append_push pop_reversed.
Proof.
  split; unfold append_push, pop_reversed.
  - intros h x. rewrite Permutation_app_comm. reflexivity.
  - intros h. rewrite heappop_nil. split; [|intros ->; reflexivity].
    intros H. apply (f_equal (@rev entry)) in H. rewrite rev_involutive in H. exact H.
  - intros h x rest H. apply heappop_perm in H. rewrite <- H. apply Permutation_rev.
  - intros h x rest y H Hy. apply (heappop_least _ _ _ y H).
    rewrite <- (Permutation_rev h). exact Hy.
Qed.

(** A heuristic that evaluates everywhere. *)
Definition flat (a b : coord) : option Q := Some (flat_distance a b).

Lemma flat_evaluates coords_map end_node : evaluates coords_map end_node flat.
Proof. intros n c ce _ _. eexists. reflexivity. Qed.

Example toy_run_reference :
  Pathfinder.a_star_search heappush heappop flat toy "C" "B" toy_coords toy_scores 3
  = Returned (Some ["C"; "B"]%string).
Proof. vm_compute. reflexivity. Qed.

Example toy_run_reversed :
  Pathfinder.a_star_search append_push pop_reversed flat toy "C" "B" toy_coords toy_scores 8
  = Returned (Some ["C"; "B"]%string).
Proof. vm_compute. reflexivity. Qed.

Lemma a_star_search_layout_independent_witness :
  heapq heappush heappop /\ heapq append_push pop_reversed /\
  Pathfinder.a_star_search heappush heappop flat toy "C" "B" toy_coords toy_scores 3
    = Returned (Some ["C"; "B"]%string) /\
  Pathfinder.a_star_search append_push pop_reversed flat toy "C" "B" toy_coords toy_scores 8
    = Returned (Some ["C"; "B"]%string) /\
  Returned (Some ["C"; "B"]%string) <> NoFuel /\
  Returned (Some ["C"; "B"]%string) = Returned (Some ["C"; "B"]%string).
Proof.
  assert (N : Returned (Some ["C"; "B"]%string) <> NoFuel) by discriminate.
  split; [exact heapq_reference|]. split; [exact heapq_reversed|].
  split; [exact toy_run_reference|]. split; [exact toy_run_reversed|].
  split; [exact N|].
  exact (a_star_search_layout_independent heappush heappop append_push pop_reversed
           flat toy "C" "B" toy_coords toy_scores 3 8 _ _
           heapq_reference heapq_reversed toy_run_reference toy_run_reversed N N).
Defined.

Lemma a_star_search_terminates_witness :
  heapq append_push pop_reversed /\ evaluates chain_coords "C" flat /\
  well_formed chain /\ "A"%string ∈ nodes chain /\ "C"%string ∈ nodes chain /\
  (forall n, n ∈ nodes chain -> is_Some (chain_coords !! n)) /\
  (forall n, n ∈ nodes chain -> exists d, chain_scores !! n = Some d /\ 0 < d) /\
  exists fuel r,
    (forall fuel', (fuel <= fuel')%nat ->
       Pathfinder.a_star_search append_push pop_reversed flat chain "A" "C"
         chain_coords chain_scores fuel' = Returned r) /\
    (forall fuel',
       Pathfinder.a_star_search append_push pop_reversed flat chain "A" "C"
         chain_coords chain_scores fuel' = Returned r \/
       Pathfinder.a_star_search append_push pop_reversed flat chain "A" "C"
         chain_coords chain_scores fuel' = NoFuel).
Proof.
  assert (HA : "A"%string ∈ nodes chain) by by_compute.
  assert (HC : "C"%string ∈ nodes chain) by by_compute.
  split; [exact heapq_reversed|]. split; [exact (flat_evaluates chain_coords "C")|].
  split; [exact chain_well_formed|]. split; [exact HA|]. split; [exact HC|].
  split; [exact chain_has_coords|]. split; [exact chain_has_scores|].
  exact (a_star_search_terminates append_push pop_reversed flat chain "A" "C"
           chain_coords chain_scores heapq_reversed (flat_evaluates chain_coords "C")
           chain_well_formed HA HC chain_has_coords chain_has_scores).
Defined.

Lemma a_star_search_none_iff_witness :
  heapq heappush heappop /\ evaluates chain_coords "D" flat /\
  well_formed chain /\ "A"%string ∈ nodes chain /\ "D"%string ∈ nodes chain /\
  (forall n, n ∈ nodes chain -> is_Some (chain_coords !! n)) /\
  (forall n, n ∈ nodes chain -> exists d, chain_scores !! n = Some d /\ 0 < d) /\
  ((exists fuel,
      Pathfinder.a_star_search heappush heappop flat chain "A" "D"
        chain_coords chain_scores fuel = Returned None) <->
   ~ connected chain "A" "D").
Proof.
  assert (HA : "A"%string ∈ nodes chain) by by_compute.
  assert (HD : "D"%string ∈ nodes chain) by by_compute.
  split; [exact heapq_reference|]. split; [exact (flat_evaluates chain_coords "D")|].
  split; [exact chain_well_formed|]. split; [exact HA|]. split; [exact HD|].
  split; [exact chain_has_coords|]. split; [exact chain_has_scores|].
  exact (a_star_search_none_iff heappush heappop flat chain "A" "D"
           chain_coords chain_scores heapq_reference (flat_evaluates chain_coords "D")
           chain_well_formed HA HD chain_has_coords chain_has_scores).
Defined.

Lemma a_star_search_direct_witness :
  heapq heappush heappop /\ evaluates toy_coords "C" flat /\
  complete_graph toy /\ "A"%string ∈ nodes toy /\ "C"%string ∈ nodes toy /\
  (forall n, n ∈ nodes toy -> is_Some (toy_coords !! n)) /\
  (forall n, n ∈ nodes toy -> exists d, toy_scores !! n = Some d /\ 0 < d) /\
  "A"%string <> "C"%string /\
  exists fuel, forall fuel', (fuel <= fuel')%nat ->
    Pathfinder.a_star_search heappush heappop flat toy "A" "C" toy_coords toy_scores fuel'
      = Returned (Some ["A"; "C"]%string).
Proof.
  assert (HA : "A"%string ∈ nodes toy) by by_compute.
  assert (HC : "C"%string ∈ nodes toy) by by_compute.
  assert (Hne : "A"%string <> "C"%string) by discriminate.
  split; [exact heapq_reference|]. split; [exact (flat_evaluates toy_coords "C")|].
  split; [exact toy_complete|]. split; [exact HA|]. split; [exact HC|].
  split; [exact toy_has_coords|]. split; [exact toy_has_scores|]. split; [exact Hne|].
  exact (a_star_search_direct heappush heappop flat toy "A" "C" toy_coords toy_scores
           heapq_reference (flat_evaluates toy_coords "C")
           toy_complete HA HC toy_has_coords toy_has_scores Hne).
Defined.

(** A workbook with the five sheets; the rows of the Delhi sheet carry other
    city names, or none. *)
Definition workbook : gmap string (list observation) :=
  <["delhi_combined_data"%string :=
      [ ob "New Delhi" "Saket" 5 1; ob "" "Rohini" 1 1; ob "Delhi" "Rohini" 1 1 ]]>
  (<["mumbai_combined_data"%string :=
      [ ob "Mumbai" "Bandra" 2 1; ob "Mumbai" "Dadar" 4 1; ob "Mumbai" "Dadar" 4 1 ]]>
  (<["chennai_combined_data"%string := [ ob "Chennai" "Adyar" 2 1 ]]>
  (<["bengaluru_combined_data"%string := [ ob "Bengaluru" "Indiranagar" 3 1 ]]>
  (<["kochi_combined_data"%string := [ ob "Kochi" "Edappally" 3 1 ]]> ∅)))).

Definition read_workbook (sheet_name : list string)
  : option (gmap string (list observation)) := Some workbook.

(** What the loader makes of it. *)
Definition five_cities : list observation :=
  [ ob "Delhi" "Saket" 5 1; ob "Delhi" "Rohini" 1 1; ob "Delhi" "Rohini" 1 1;
    ob "Mumbai" "Bandra" 2 1; ob "Mumbai" "Dadar" 4 1; ob "Mumbai" "Dadar" 4 1;
    ob "Chennai" "Adyar" 2 1; ob "Bengaluru" "Indiranagar" 3 1;
    ob "Kochi" "Edappally" 3 1 ].

Lemma workbook_loaded : load_and_combine_data read_workbook = Some five_cities.
Proof. vm_compute. reflexivity. Qed.

Lemma workbook_sheets xls :
  read_workbook (map fst sheet_names_map) = Some xls ->
  forall sheet, sheet ∈ map fst sheet_names_map -> is_Some (xls !! sheet).
Proof.
  intros [= <-] sheet H.
  repeat (apply elem_of_cons in H as [->|H]); try (vm_compute; eauto).
  inversion H.
Qed.

Lemma load_and_combine_data_none_witness :
  (forall xls, read_workbook (map fst sheet_names_map) = Some xls ->
     forall sheet, sheet ∈ map fst sheet_names_map -> is_Some (xls !! sheet)) /\
  (load_and_combine_data read_workbook = None
     <-> read_workbook (map fst sheet_names_map) = None).
Proof.
  split; [exact workbook_sheets|].
  exact (proj1 (load_and_combine_data_none read_workbook workbook_sheets)).
Defined.

Lemma load_and_combine_data_rows_witness :
  read_workbook (map fst sheet_names_map) = Some workbook /\
  load_and_combine_data read_workbook = Some five_cities /\
  (forall o, o ∈ five_cities -> o_city o ∈ map snd sheet_names_map) /\
  (forall sheet city_name, (sheet, city_name) ∈ sheet_names_map ->
     List.filter (fun o => String.eqb (o_city o) city_name) five_cities
     = match workbook !! sheet with
       | Some df => map (set_city city_name) df
       | None => []
       end).
Proof.
  split; [reflexivity|]. split; [exact workbook_loaded|].
  exact (load_and_combine_data_rows read_workbook workbook five_cities
           eq_refl workbook_loaded).
Defined.

Lemma unknown_city_rejected_witness :
  "Pune"%string ∉ map snd sheet_names_map /\
  (run_application flat_distance locate (load_and_combine_data read_workbook)
     "Pune" "Aundh" "Baner" 10 = Return SetupFailed \/
   run_application flat_distance locate (load_and_combine_data read_workbook)
     "Pune" "Aundh" "Baner" 10 = Return InvalidCity).
Proof.
  assert (H : "Pune"%string ∉ map snd sheet_names_map) by by_compute.
  split; [exact H|].
  exact (unknown_city_rejected flat_distance read_workbook locate
           "Pune" "Aundh" "Baner" 10 H).
Defined.

Definition five_tables : city_tables :=
  build_city_graphs
    (geocode_areas locate (default [] (calculate_danger_scores five_cities))).

(** What was drawn for the query from Bandra to Dadar. *)
Definition mumbai_drawing : result (option folium_map) :=
  draw_route no_service five_tables "Mumbai" (PathFound ["Bandra"; "Dadar"]%string).

Lemma workbook_route :
  run_from_file flat_distance read_workbook locate no_service "Mumbai" "Bandra" "Dadar" 10
  = Return (PathFound ["Bandra"; "Dadar"]%string, mumbai_drawing).
Proof. vm_compute. reflexivity. Qed.

Lemma run_from_file_map_witness :
  run_from_file flat_distance read_workbook locate no_service "Mumbai" "Bandra" "Dadar" 10
    = Return (PathFound ["Bandra"; "Dadar"]%string, mumbai_drawing) /\
  (mumbai_drawing = Raised BadReply \/
   exists m start finish,
     mumbai_drawing = Ok (Some m) /\ markers m = [start; finish] /\
     marker_area start = "Bandra"%string /\
     locate "Mumbai" "Bandra" = Some (marker_location start) /\
     marker_area finish = "Dadar"%string /\
     locate "Mumbai" "Dadar" = Some (marker_location finish) /\
     forall c, c ∈ circle_markers m ->
       locate "Mumbai" (circle_area c) = Some (circle_location c)).
Proof.
  split; [exact workbook_route|].
  exact (proj2 (run_from_file_map flat_distance read_workbook locate no_service
                  "Mumbai" "Bandra" "Dadar" 10 _ _ workbook_route)).
Defined.

Lemma application_run_loaded :
  run_application flat_distance locate (load_and_combine_data read_workbook)
    "Mumbai" "Dadar" "Bandra" 10 = Return (PathFound ["Dadar"; "Bandra"]%string).
Proof. vm_compute. reflexivity. Qed.

Lemma application_direct_route_witness :
  run_application flat_distance locate (load_and_combine_data read_workbook)
    "Mumbai" "Dadar" "Bandra" 10 = Return (PathFound ["Dadar"; "Bandra"]%string) /\
  ["Dadar"; "Bandra"]%string
  = (if decide ("Dadar"%string = "Bandra"%string) then ["Dadar"%string]
     else ["Dadar"; "Bandra"]%string).
Proof.
  split; [exact application_run_loaded|].
  exact (application_direct_route flat_distance locate
           (load_and_combine_data read_workbook) "Mumbai" "Dadar" "Bandra" 10 _
           application_run_loaded).
Defined.

End MoreExamples.
